(** * Ferry crossing simulation (ferry_cross.c): interleaving model and proofs

    The program runs one ferry thread and [FERRY_CAPACITY] car threads that
    meet through four counting semaphores, one mutex and the shared counter
    [cars_on_board]; [main] creates the threads, sleeps for the run time,
    cancels and joins them, and returns 0.

    The model is a small-step interleaving semantics at the granularity of
    the C statements: every thread has a program counter naming the statement
    it executes next, and a schedule (a list of actions) chooses which thread
    moves, how the clock advances and what the environment returns to
    [rand()] and [pthread_create].  All definitions are executable. *)

From Stdlib Require Import ZArith Lia List String Bool Sorted.
From stdpp Require Import base option list.
Import ListNotations.
Local Open Scope Z_scope.

(* ===================================================================== *)
(** ** Configuration (lines 12-14) *)

Definition FERRY_CAPACITY : Z := 5.
Definition PROGRAM_RUNTIME : Z := 60.

(** [stdlib.h]'s failure status, as on glibc and macOS. *)
Definition EXIT_FAILURE : Z := 1.

(** Times are kept in whole microseconds since [start_time]: the two
    [timeval]s that [get_relative_time_sec] subtracts have microsecond
    resolution, and its comparisons against [PROGRAM_RUNTIME] (a whole
    number of seconds) agree with the comparison of the microsecond counts. *)
Definition usec (seconds : Z) : Z := seconds * 1000000.

Record timeval := mkTimeval { tv_sec : Z; tv_usec : Z }.

(** Lines 34-41, scaled to microseconds.  The code returns a [double] of
    seconds, [(sec difference) + (usec difference) / 1000000.0]; this is its
    exact value times 10^6.  The two agree in order, and in the comparison
    with [PROGRAM_RUNTIME], as long as the instants are less than 2^31 s
    apart, where a [double] is finer than a quarter of a microsecond;
    further out the [double] no longer separates neighbouring microseconds
    and this count does. *)
Definition get_relative_time (start_time current_time : timeval) : Z :=
  usec (tv_sec current_time - tv_sec start_time)
  + (tv_usec current_time - tv_usec start_time).

(** [get_relative_time_sec() >= PROGRAM_RUNTIME] (lines 74, 86, 116). *)
Definition time_is_up (t : Z) : bool := usec PROGRAM_RUNTIME <=? t.

(** C [int] arithmetic on [cars_on_board] and the loop counters. *)
Definition wrap_int (z : Z) : Z := (z + 2 ^ 31) mod 2 ^ 32 - 2 ^ 31.

(* ===================================================================== *)
(** ** The event logger (lines 46-64) *)

Inductive log_line :=
| FerryLine (clock : Z) (message : string)             (* "[Clock : t] Ferry m" *)
| CarLine (clock : Z) (car_num : Z) (message : string). (* "[Clock : t] Car n m" *)

Definition line_clock (l : log_line) : Z :=
  match l with FerryLine t _ => t | CarLine t _ _ => t end.

(** [current_time] is the clock value read at line 47; the result is the line
    sent to [printf], if any. *)
Definition print_status (current_time : Z) (message : string) (car_num : Z)
  : option log_line :=
  if (usec PROGRAM_RUNTIME <? current_time) && negb (car_num =? -99) then None
  else if (car_num =? -1) || (car_num =? -99)
       then Some (FerryLine current_time message)
       else Some (CarLine current_time car_num message).

(* ===================================================================== *)
(** ** Threads, program counters and the shared state *)

Inductive tid := TMain | TFerry | TCar (i : nat).

Global Instance tid_eq_dec : EqDecision tid.
Proof. solve_decision. Defined.

Inductive status :=
| NotCreated      (* pthread_create has not run for it yet *)
| Running
| CancelPending   (* pthread_cancel was called on it; deferred cancellation *)
| Cancelled       (* it acted on the request at a cancellation point *)
| Returned.       (* it returned NULL *)

Definition runnable (st : status) : bool :=
  match st with Running | CancelPending => true | _ => false end.

Definition terminated (st : status) : bool :=
  match st with Cancelled | Returned => true | _ => false end.

(** The statement a ferry thread executes next (lines 68-104). *)
Inductive ferry_pc :=
| F_print_arrives              (* 70 *)
| F_check_top                  (* 74 *)
| F_post_board (i : Z)         (* 78-80, loop counter i *)
| F_wait_full                  (* 83 *)
| F_check_depart               (* 86 *)
| F_print_leaves               (* 90 *)
| F_sleep                      (* 91, about to call sleep(3) *)
| F_sleeping (wake : Z)        (* 91, inside sleep(3) *)
| F_print_arrives_dock         (* 94 *)
| F_post_unboard (i : Z)       (* 96-98, loop counter i *)
| F_wait_empty                 (* 101 *)
| F_return (loaded : bool).    (* 103, after the break of line 86 (true) or 74 (false) *)

(** The statement a car thread executes next (lines 114-160). *)
Inductive car_pc :=
| C_check                      (* 116 *)
| C_wait_board                 (* 120 *)
| C_lock_board                 (* 123 *)
| C_usleep_board               (* 127, about to call usleep *)
| C_sleeping_board (wake : Z)  (* 127, inside usleep *)
| C_incr                       (* 129, about to read cars_on_board *)
| C_incr_write (seen : Z)      (* 129, about to write seen + 1 *)
| C_print_entered              (* 130 *)
| C_check_full                 (* 133-135 *)
| C_unlock_board               (* 136 *)
| C_wait_unboard               (* 140 *)
| C_usleep_unboard             (* 143, about to call usleep *)
| C_sleeping_unboard (wake : Z) (* 143, inside usleep *)
| C_print_left                 (* 144 *)
| C_lock_unboard               (* 147 *)
| C_decr                       (* 148, about to read cars_on_board *)
| C_decr_write (seen : Z)      (* 148, about to write seen - 1 *)
| C_check_empty                (* 151-153 *)
| C_unlock_unboard             (* 154 *)
| C_usleep_return              (* 159, about to call usleep *)
| C_sleeping_return (wake : Z)  (* 159, inside usleep *)
| C_return.                    (* 161, after the break of line 116 *)

(** Where [main] stands once the semaphores are open (lines 187-232). *)
Inductive main_pc :=
| M_create_ferry               (* 188 *)
| M_car_usleep (i : Z)         (* 193-194, loop counter i *)
| M_car_sleeping (i wake : Z)  (* 194, inside usleep *)
| M_car_create (i : Z)         (* 196-199 *)
| M_sleep                      (* 208, about to call sleep *)
| M_sleeping (wake : Z)        (* 208, inside sleep *)
| M_cancel_ferry               (* 215 *)
| M_join_ferry                 (* 216 *)
| M_cancel_car (i : Z)         (* 219-220, loop counter i *)
| M_join_car (i : Z)           (* 221 *)
| M_cleanup                    (* 226-230 *)
| M_return                     (* 232 *)
| M_exit_failure               (* 189, 200: exit(EXIT_FAILURE) *)
| M_exited (code : Z).         (* the process is gone *)

Record thread (PC : Type) := mkThread { th_status : status; th_pc : PC }.
Arguments mkThread {PC} _ _.
Arguments th_status {PC} _.
Arguments th_pc {PC} _.

(** The globals of lines 18-29, the threads, and what was printed. *)
Record State := mkState {
  now : Z;                          (* microseconds since start_time *)
  sem_board : nat;
  sem_full : nat;
  sem_unboard : nat;
  sem_empty : nat;
  car_count_mutex : option tid;     (* the owner, when locked *)
  cars_on_board : Z;
  main_at : main_pc;
  ferry : thread ferry_pc;
  cars : list (thread car_pc);      (* car_threads[i]; its car_id is i + 1 *)
  stdout : list log_line            (* oldest line first *)
}.

Inductive sem_name := SemBoard | SemFull | SemUnboard | SemEmpty.

Definition sem_value (x : sem_name) (s : State) : nat :=
  match x with
  | SemBoard => sem_board s
  | SemFull => sem_full s
  | SemUnboard => sem_unboard s
  | SemEmpty => sem_empty s
  end.

(** Field updates. *)
Definition set_now (v : Z) (s : State) : State :=
  mkState v (sem_board s) (sem_full s) (sem_unboard s) (sem_empty s)
    (car_count_mutex s) (cars_on_board s) (main_at s) (ferry s) (cars s) (stdout s).
Definition set_sem (x : sem_name) (v : nat) (s : State) : State :=
  match x with
  | SemBoard => mkState (now s) v (sem_full s) (sem_unboard s) (sem_empty s)
      (car_count_mutex s) (cars_on_board s) (main_at s) (ferry s) (cars s) (stdout s)
  | SemFull => mkState (now s) (sem_board s) v (sem_unboard s) (sem_empty s)
      (car_count_mutex s) (cars_on_board s) (main_at s) (ferry s) (cars s) (stdout s)
  | SemUnboard => mkState (now s) (sem_board s) (sem_full s) v (sem_empty s)
      (car_count_mutex s) (cars_on_board s) (main_at s) (ferry s) (cars s) (stdout s)
  | SemEmpty => mkState (now s) (sem_board s) (sem_full s) (sem_unboard s) v
      (car_count_mutex s) (cars_on_board s) (main_at s) (ferry s) (cars s) (stdout s)
  end.
Definition set_mutex (v : option tid) (s : State) : State :=
  mkState (now s) (sem_board s) (sem_full s) (sem_unboard s) (sem_empty s)
    v (cars_on_board s) (main_at s) (ferry s) (cars s) (stdout s).
Definition set_count (v : Z) (s : State) : State :=
  mkState (now s) (sem_board s) (sem_full s) (sem_unboard s) (sem_empty s)
    (car_count_mutex s) v (main_at s) (ferry s) (cars s) (stdout s).
Definition set_main (v : main_pc) (s : State) : State :=
  mkState (now s) (sem_board s) (sem_full s) (sem_unboard s) (sem_empty s)
    (car_count_mutex s) (cars_on_board s) v (ferry s) (cars s) (stdout s).
Definition set_ferry (v : thread ferry_pc) (s : State) : State :=
  mkState (now s) (sem_board s) (sem_full s) (sem_unboard s) (sem_empty s)
    (car_count_mutex s) (cars_on_board s) (main_at s) v (cars s) (stdout s).
Definition set_cars (v : list (thread car_pc)) (s : State) : State :=
  mkState (now s) (sem_board s) (sem_full s) (sem_unboard s) (sem_empty s)
    (car_count_mutex s) (cars_on_board s) (main_at s) (ferry s) v (stdout s).
Definition set_stdout (v : list log_line) (s : State) : State :=
  mkState (now s) (sem_board s) (sem_full s) (sem_unboard s) (sem_empty s)
    (car_count_mutex s) (cars_on_board s) (main_at s) (ferry s) (cars s) v.

(* ===================================================================== *)
(** ** What a step does, as seen from outside *)

Inductive op :=
| OTimeCheck (t : Z) (stop : bool)   (* the clock read, and whether it is >= the run time *)
| OSemPost (x : sem_name)
| OSemWait (x : sem_name)            (* sem_wait returned *)
| OLock                              (* pthread_mutex_lock returned *)
| OUnlock
| ORead (v : Z)                      (* cars_on_board read for ++ or --, v its value *)
| OIncr (v : Z)                      (* cars_on_board++ written, v the new value *)
| ODecr (v : Z)                      (* cars_on_board-- written, v the new value *)
| ONoPost (x : sem_name)             (* the test guarding sem_post(x) was false *)
| OPrint (message : string) (car_num : Z) (line : option log_line)
| OSleep (duration : Z)              (* usleep or sleep called, microseconds *)
| OWake                              (* usleep or sleep returned *)
| OLoopExit                          (* a for loop's test was false *)
| OCreate (t : tid) (rc : Z)         (* pthread_create returned rc *)
| OCancel (t : tid)                  (* pthread_cancel *)
| OJoin (t : tid)                    (* pthread_join returned *)
| OCleanup
| OExit (code : Z)
| OReturn.                           (* a thread function returned *)

Inductive Event :=
| Ev (who : tid) (what : op)   (* thread [who] executed [what] *)
| Elapse (d : Z)               (* d microseconds passed *)
| Killed (t : tid).            (* thread t acted on a cancellation request *)

(** What a schedule chooses at each step. [env] is what the environment
    returns to the call the thread is about to make, where it makes one:
    the result of [rand()], or the return code of [pthread_create]. *)
Inductive Act :=
| Tick (d : Z)
| Go (t : tid) (env : Z)
| Kill (t : tid).

(* ===================================================================== *)
(** ** Semaphores, the logger call and sleeping *)

Definition sem_post (x : sem_name) (s : State) : State :=
  set_sem x (S (sem_value x s)) s.

(** [None]: the caller stays blocked. *)
Definition sem_wait (x : sem_name) (s : State) : option State :=
  match sem_value x s with
  | O => None
  | S v => Some (set_sem x v s)
  end.

(** A call of [print_status]: it reads the clock and prints, or not.  The
    call is one step here.  In the code the clock is read at line 47 and the
    line is written at line 59 or 62; the calls of lines 70, 90, 94 and 130
    are made while no other thread can print, the call of line 144 is not:
    two cars can write their "left the ferry" lines in the reverse order of
    the clock values they read.  Nothing below is stated about the order of
    two such lines. *)
Definition emit (message : string) (car_num : Z) (s : State) : op * State :=
  let line := print_status (now s) message car_num in
  (OPrint message car_num line,
   match line with
   | Some l => set_stdout (stdout s ++ [l]) s
   | None => s
   end).

(** [usleep]/[sleep] return no earlier than the requested time after the call. *)
Definition woken (wake : Z) (s : State) : bool := wake <=? now s.

(* ===================================================================== *)
(** ** The ferry thread (lines 68-104) *)

Definition at_ferry (pc : ferry_pc) (s : State) : State :=
  set_ferry (mkThread (th_status (ferry s)) pc) s.

Definition ferry_returns (s : State) : State :=
  set_ferry (mkThread Returned (th_pc (ferry s))) s.

Definition ferry_thread (s : State) : option (op * State) :=
  match th_pc (ferry s) with
  | F_print_arrives =>
      let '(o, s1) := emit "arrives to new dock" (-1) s in
      Some (o, at_ferry F_check_top s1)
  | F_check_top =>
      if time_is_up (now s)
      then Some (OTimeCheck (now s) true, at_ferry (F_return false) s)
      else Some (OTimeCheck (now s) false, at_ferry (F_post_board 0) s)
  | F_post_board i =>
      if i <? FERRY_CAPACITY
      then Some (OSemPost SemBoard,
                 at_ferry (F_post_board (wrap_int (i + 1))) (sem_post SemBoard s))
      else Some (OLoopExit, at_ferry F_wait_full s)
  | F_wait_full =>
      s1 ← sem_wait SemFull s;
      Some (OSemWait SemFull, at_ferry F_check_depart s1)
  | F_check_depart =>
      if time_is_up (now s)
      then Some (OTimeCheck (now s) true, at_ferry (F_return true) s)
      else Some (OTimeCheck (now s) false, at_ferry F_print_leaves s)
  | F_print_leaves =>
      let '(o, s1) := emit "leaves the dock" (-1) s in
      Some (o, at_ferry F_sleep s1)
  | F_sleep =>
      Some (OSleep (usec 3), at_ferry (F_sleeping (now s + usec 3)) s)
  | F_sleeping wake =>
      if woken wake s then Some (OWake, at_ferry F_print_arrives_dock s) else None
  | F_print_arrives_dock =>
      let '(o, s1) := emit "arrives to new dock" (-1) s in
      Some (o, at_ferry (F_post_unboard 0) s1)
  | F_post_unboard i =>
      if i <? FERRY_CAPACITY
      then Some (OSemPost SemUnboard,
                 at_ferry (F_post_unboard (wrap_int (i + 1))) (sem_post SemUnboard s))
      else Some (OLoopExit, at_ferry F_wait_empty s)
  | F_wait_empty =>
      s1 ← sem_wait SemEmpty s;
      Some (OSemWait SemEmpty, at_ferry F_check_top s1)
  | F_return _ => Some (OReturn, ferry_returns s)
  end.

(* ===================================================================== *)
(** ** A car thread (lines 108-162) *)

(** [*car_id = i + 1] (line 197). *)
Definition car_id (i : nat) : Z := Z.of_nat i + 1.

Definition at_car (i : nat) (th : thread car_pc) (pc : car_pc) (s : State) : State :=
  set_cars (<[i := mkThread (th_status th) pc]> (cars s)) s.

Definition car_returns (i : nat) (th : thread car_pc) (s : State) : State :=
  set_cars (<[i := mkThread Returned (th_pc th)]> (cars s)) s.

(** [None]: pthread_mutex_lock stays blocked. *)
Definition mutex_lock (t : tid) (s : State) : option State :=
  match car_count_mutex s with
  | None => Some (set_mutex (Some t) s)
  | Some _ => None
  end.

Definition mutex_unlock (s : State) : State := set_mutex None s.

(** Car [i], whose slot holds [th], executes its next statement; [env] is the
    value of [rand()] where the statement calls it. *)
Definition car_thread (i : nat) (th : thread car_pc) (env : Z) (s : State)
  : option (op * State) :=
  match th_pc th with
  | C_check =>
      if time_is_up (now s)
      then Some (OTimeCheck (now s) true, at_car i th C_return s)
      else Some (OTimeCheck (now s) false, at_car i th C_wait_board s)
  | C_wait_board =>
      s1 ← sem_wait SemBoard s;
      Some (OSemWait SemBoard, at_car i th C_lock_board s1)
  | C_lock_board =>
      s1 ← mutex_lock (TCar i) s;
      Some (OLock, at_car i th C_usleep_board s1)
  | C_usleep_board =>
      let d := Z.rem env 40000 + 10000 in
      Some (OSleep d, at_car i th (C_sleeping_board (now s + d)) s)
  | C_sleeping_board wake =>
      if woken wake s then Some (OWake, at_car i th C_incr s) else None
  | C_incr =>
      let seen := cars_on_board s in
      Some (ORead seen, at_car i th (C_incr_write seen) s)
  | C_incr_write seen =>
      let v := wrap_int (seen + 1) in
      Some (OIncr v, at_car i th C_print_entered (set_count v s))
  | C_print_entered =>
      let '(o, s1) := emit "entered the ferry" (car_id i) s in
      Some (o, at_car i th C_check_full s1)
  | C_check_full =>
      if cars_on_board s =? FERRY_CAPACITY
      then Some (OSemPost SemFull, at_car i th C_unlock_board (sem_post SemFull s))
      else Some (ONoPost SemFull, at_car i th C_unlock_board s)
  | C_unlock_board =>
      Some (OUnlock, at_car i th C_wait_unboard (mutex_unlock s))
  | C_wait_unboard =>
      s1 ← sem_wait SemUnboard s;
      Some (OSemWait SemUnboard, at_car i th C_usleep_unboard s1)
  | C_usleep_unboard =>
      let d := Z.rem env 20000 + 5000 in
      Some (OSleep d, at_car i th (C_sleeping_unboard (now s + d)) s)
  | C_sleeping_unboard wake =>
      if woken wake s then Some (OWake, at_car i th C_print_left s) else None
  | C_print_left =>
      let '(o, s1) := emit "left the ferry" (car_id i) s in
      Some (o, at_car i th C_lock_unboard s1)
  | C_lock_unboard =>
      s1 ← mutex_lock (TCar i) s;
      Some (OLock, at_car i th C_decr s1)
  | C_decr =>
      let seen := cars_on_board s in
      Some (ORead seen, at_car i th (C_decr_write seen) s)
  | C_decr_write seen =>
      let v := wrap_int (seen - 1) in
      Some (ODecr v, at_car i th C_check_empty (set_count v s))
  | C_check_empty =>
      if cars_on_board s =? 0
      then Some (OSemPost SemEmpty, at_car i th C_unlock_unboard (sem_post SemEmpty s))
      else Some (ONoPost SemEmpty, at_car i th C_unlock_unboard s)
  | C_unlock_unboard =>
      Some (OUnlock, at_car i th C_usleep_return (mutex_unlock s))
  | C_usleep_return =>
      let d := Z.rem env 1000000 + 500000 in
      Some (OSleep d, at_car i th (C_sleeping_return (now s + d)) s)
  | C_sleeping_return wake =>
      if woken wake s then Some (OWake, at_car i th C_check s) else None
  | C_return => Some (OReturn, car_returns i th s)
  end.

(* ===================================================================== *)
(** ** [main] (lines 164-233) *)

(** Which of the four [sem_open] calls of lines 180-183 succeed. *)
Record SetupEnv := mkSetupEnv {
  board_opens : bool;
  full_opens : bool;
  unboard_opens : bool;
  empty_opens : bool
}.

(** [sem_open(name, O_CREAT, 0644, value)]: the new semaphore's value, or
    [None] for SEM_FAILED. *)
Definition sem_open (succeeds : bool) (value : nat) : option nat :=
  if succeeds then Some value else None.

Record Handles := mkHandles {
  h_board : option nat;
  h_full : option nat;
  h_unboard : option nat;
  h_empty : option nat
}.

Inductive setup_result :=
| SetupExit (code : Z)        (* exit(code) was called *)
| SetupDone (h : Handles).    (* main goes on to create the threads *)

(** Lines 168-185: open the four semaphores with value 0 and test the first. *)
Definition main_setup (env : SetupEnv) : setup_result :=
  let h := mkHandles (sem_open (board_opens env) 0) (sem_open (full_opens env) 0)
                     (sem_open (unboard_opens env) 0) (sem_open (empty_opens env) 0) in
  match h_board h with
  | None => SetupExit EXIT_FAILURE
  | Some _ => SetupDone h
  end.

(** A slot of [car_threads] before its thread exists: the entry of
    [car_thread], not yet created. *)
Definition empty_slot : thread car_pc := mkThread NotCreated C_check.

(** The state in which [main] reaches line 187, when all four semaphores
    exist.  The simulation is modelled from such a state only: the code
    passes a SEM_FAILED handle on to [sem_post] and [sem_wait] unchecked. *)
Definition boot_state (h : Handles) : option State :=
  b ← h_board h; f ← h_full h; u ← h_unboard h; e ← h_empty h;
  Some (mkState 0 b f u e None 0 M_create_ferry
          (mkThread NotCreated F_print_arrives)
          (replicate (Z.to_nat FERRY_CAPACITY) empty_slot) []).

Definition all_open : SetupEnv := mkSetupEnv true true true true.

Definition boot : State :=
  mkState 0 0 0 0 0 None 0 M_create_ferry
    (mkThread NotCreated F_print_arrives)
    (replicate (Z.to_nat FERRY_CAPACITY) empty_slot) [].

Definition started {PC} (th : thread PC) : thread PC :=
  mkThread Running (th_pc th).

(** pthread_cancel: the request stays pending until a cancellation point. *)
Definition cancel_requested {PC} (th : thread PC) : thread PC :=
  match th_status th with
  | Running => mkThread CancelPending (th_pc th)
  | _ => th
  end.

(** [main] executes its next statement; [env] is the value of [rand()] or
    the return code of [pthread_create] where the statement calls one. *)
Definition main_thread (env : Z) (s : State) : option (op * State) :=
  match main_at s with
  | M_create_ferry =>
      if env =? 0
      then Some (OCreate TFerry env,
                 set_main (M_car_usleep 0) (set_ferry (started (ferry s)) s))
      else Some (OCreate TFerry env, set_main M_exit_failure s)
  | M_car_usleep i =>
      if i <? FERRY_CAPACITY
      then let d := Z.rem env 999000 + 1000 in
           Some (OSleep d, set_main (M_car_sleeping i (now s + d)) s)
      else Some (OLoopExit, set_main M_sleep s)
  | M_car_sleeping i wake =>
      if woken wake s then Some (OWake, set_main (M_car_create i) s) else None
  | M_car_create i =>
      if env =? 0
      then Some (OCreate (TCar (Z.to_nat i)) env,
                 set_main (M_car_usleep (wrap_int (i + 1)))
                   (set_cars (alter started (Z.to_nat i) (cars s)) s))
      else Some (OCreate (TCar (Z.to_nat i)) env, set_main M_exit_failure s)
  | M_sleep =>
      Some (OSleep (usec PROGRAM_RUNTIME),
            set_main (M_sleeping (now s + usec PROGRAM_RUNTIME)) s)
  | M_sleeping wake =>
      if woken wake s then Some (OWake, set_main M_cancel_ferry s) else None
  | M_cancel_ferry =>
      Some (OCancel TFerry,
            set_main M_join_ferry (set_ferry (cancel_requested (ferry s)) s))
  | M_join_ferry =>
      if terminated (th_status (ferry s))
      then Some (OJoin TFerry, set_main (M_cancel_car 0) s)
      else None
  | M_cancel_car i =>
      if i <? FERRY_CAPACITY
      then Some (OCancel (TCar (Z.to_nat i)),
                 set_main (M_join_car i)
                   (set_cars (alter cancel_requested (Z.to_nat i) (cars s)) s))
      else Some (OLoopExit, set_main M_cleanup s)
  | M_join_car i =>
      th ← cars s !! Z.to_nat i;
      if terminated (th_status th)
      then Some (OJoin (TCar (Z.to_nat i)), set_main (M_cancel_car (wrap_int (i + 1))) s)
      else None
  | M_cleanup => Some (OCleanup, set_main M_return s)
  | M_return => Some (OExit 0, set_main (M_exited 0) s)
  | M_exit_failure => Some (OExit EXIT_FAILURE, set_main (M_exited EXIT_FAILURE) s)
  | M_exited _ => None
  end.

(* ===================================================================== *)
(** ** Cancellation points and the whole system *)

(** Where deferred cancellation can take effect: sem_wait, sleep, usleep,
    and print_status (through printf). *)
Definition ferry_cancel_point (pc : ferry_pc) : bool :=
  match pc with
  | F_print_arrives | F_wait_full | F_print_leaves | F_sleep | F_sleeping _
  | F_print_arrives_dock | F_wait_empty => true
  | _ => false
  end.

Definition car_cancel_point (pc : car_pc) : bool :=
  match pc with
  | C_wait_board | C_usleep_board | C_sleeping_board _ | C_print_entered
  | C_wait_unboard | C_usleep_unboard | C_sleeping_unboard _ | C_print_left
  | C_usleep_return | C_sleeping_return _ => true
  | _ => false
  end.

Definition killable {PC} (point : PC -> bool) (th : thread PC) : bool :=
  match th_status th with
  | CancelPending => point (th_pc th)
  | _ => false
  end.

Definition exited (s : State) : bool :=
  match main_at s with M_exited _ => true | _ => false end.

Definition by_thread (t : tid) (r : option (op * State)) : option (Event * State) :=
  '(o, s') ← r; Some (Ev t o, s').

(** One step of the system.  Nothing moves once the process has exited. *)
Definition do_step (a : Act) (s : State) : option (Event * State) :=
  if exited s then None else
  match a with
  | Tick d => if 0 <=? d then Some (Elapse d, set_now (now s + d) s) else None
  | Go t env =>
      if env <? 0 then None else
      match t with
      | TMain => by_thread TMain (main_thread env s)
      | TFerry =>
          if runnable (th_status (ferry s))
          then by_thread TFerry (ferry_thread s) else None
      | TCar i =>
          th ← cars s !! i;
          if runnable (th_status th)
          then by_thread (TCar i) (car_thread i th env s) else None
      end
  | Kill TMain => None
  | Kill TFerry =>
      if killable ferry_cancel_point (ferry s)
      then Some (Killed TFerry,
                 set_ferry (mkThread Cancelled (th_pc (ferry s))) s)
      else None
  | Kill (TCar i) =>
      th ← cars s !! i;
      if killable car_cancel_point th
      then Some (Killed (TCar i),
                 set_cars (<[i := mkThread Cancelled (th_pc th)]> (cars s)) s)
      else None
  end.

(** Executions: the events so far, oldest first, and the state reached. *)
Inductive exec (s0 : State) : list Event -> State -> Prop :=
| exec_start : exec s0 [] s0
| exec_step tr s a e s' :
    exec s0 tr s -> do_step a s = Some (e, s') -> exec s0 (tr ++ [e]) s'.

(** Running a schedule. *)
Fixpoint run (sched : list Act) (s : State) : option (list Event * State) :=
  match sched with
  | [] => Some ([], s)
  | a :: rest =>
      '(e, s1) ← do_step a s;
      '(tr, s2) ← run rest s1;
      Some (e :: tr, s2)
  end.

(* ##################################################################### *)
(** * Definitions used by the statements and the proofs *)

(* ===================================================================== *)
(** ** Where the cars stand: counting program counters *)

(** Holds a board permit and has not incremented yet (lines 123-129). *)
Definition permit_taken (pc : car_pc) : nat :=
  match pc with
  | C_lock_board | C_usleep_board | C_sleeping_board _ | C_incr
  | C_incr_write _ => 1
  | _ => 0
  end.

(** Has incremented and not decremented yet (lines 130-148). *)
Definition aboard (pc : car_pc) : nat :=
  match pc with
  | C_print_entered | C_check_full | C_unlock_board | C_wait_unboard
  | C_usleep_unboard | C_sleeping_unboard _ | C_print_left | C_lock_unboard
  | C_decr | C_decr_write _ => 1
  | _ => 0
  end.

(** Holds an unboard permit and has not decremented yet (lines 143-148). *)
Definition leaving (pc : car_pc) : nat :=
  match pc with
  | C_usleep_unboard | C_sleeping_unboard _ | C_print_left | C_lock_unboard
  | C_decr | C_decr_write _ => 1
  | _ => 0
  end.

(** Has incremented and not yet tested for a full ferry (lines 130-133). *)
Definition just_in (pc : car_pc) : nat :=
  match pc with C_print_entered | C_check_full => 1 | _ => 0 end.

(** Has decremented and not yet tested for an empty ferry (line 151). *)
Definition just_out (pc : car_pc) : nat :=
  match pc with C_check_empty => 1 | _ => 0 end.

(** Between a pthread_mutex_lock and its pthread_mutex_unlock. *)
Definition holding (pc : car_pc) : nat :=
  match pc with
  | C_usleep_board | C_sleeping_board _ | C_incr | C_incr_write _
  | C_print_entered | C_check_full | C_unlock_board
  | C_decr | C_decr_write _ | C_check_empty | C_unlock_unboard => 1
  | _ => 0
  end.

(** How many slots stand at a program counter selected by [f]. *)
Fixpoint cnt (f : car_pc -> nat) (l : list (thread car_pc)) : nat :=
  match l with
  | [] => 0
  | th :: rest => (f (th_pc th) + cnt f rest)%nat
  end.

(** The ferry's loop position as a phase, with the permits posted in it. *)
Inductive phase :=
| Boarding (posted : Z)
| Unboarding (posted : Z).

Definition phase_of (pc : ferry_pc) : phase :=
  match pc with
  | F_print_arrives | F_check_top => Boarding 0
  | F_post_board i => Boarding i
  | F_wait_full => Boarding FERRY_CAPACITY
  | F_check_depart | F_print_leaves | F_sleep | F_sleeping _
  | F_print_arrives_dock => Unboarding 0
  | F_post_unboard i => Unboarding i
  | F_wait_empty => Unboarding FERRY_CAPACITY
  | F_return false => Boarding 0
  | F_return true => Unboarding 0
  end.

(** The mutex owner is a car standing inside a critical section. *)
Definition owner_ok (m : option tid) (l : list (thread car_pc)) : Prop :=
  match m with
  | None => True
  | Some (TCar j) =>
      match l !! j with
      | Some th => holding (th_pc th) = 1%nat
      | None => False
      end
  | Some _ => False
  end.

Definition locked (m : option tid) : Z :=
  match m with Some _ => 1 | None => 0 end.

(** A car between the read and the write of its update of the counter has
    read the value [n] the counter still has. *)
Definition seen_ok (n : Z) (pc : car_pc) : Prop :=
  match pc with
  | C_incr_write seen | C_decr_write seen => seen = n
  | _ => True
  end.

(** The inductive invariant of the boarding gate. *)
Definition gate_inv (s : State) : Prop :=
  let l := cars s in
  let n := cars_on_board s in
  length l = Z.to_nat FERRY_CAPACITY
  /\ Z.of_nat (cnt aboard l) = n
  /\ Z.of_nat (cnt holding l) = locked (car_count_mutex s)
  /\ owner_ok (car_count_mutex s) l
  /\ match phase_of (th_pc (ferry s)) with
     | Boarding i =>
         0 <= i <= FERRY_CAPACITY
         /\ Z.of_nat (sem_board s) + Z.of_nat (cnt permit_taken l) + n = i
         /\ sem_unboard s = 0%nat /\ cnt leaving l = 0%nat
         /\ sem_empty s = 0%nat /\ cnt just_out l = 0%nat
         /\ (n = FERRY_CAPACITY -> Z.of_nat (sem_full s) + Z.of_nat (cnt just_in l) = 1)
         /\ (n < FERRY_CAPACITY -> sem_full s = 0%nat)
     | Unboarding j =>
         0 <= j <= FERRY_CAPACITY
         /\ sem_board s = 0%nat /\ cnt permit_taken l = 0%nat
         /\ sem_full s = 0%nat /\ cnt just_in l = 0%nat
         /\ Z.of_nat (sem_unboard s) + Z.of_nat (cnt leaving l)
            + (FERRY_CAPACITY - n) = j
         /\ (n = 0 -> Z.of_nat (sem_empty s) + Z.of_nat (cnt just_out l) = 1)
         /\ (0 < n -> sem_empty s = 0%nat)
     end
  /\ (forall j th, l !! j = Some th -> seen_ok n (th_pc th)).

(* ===================================================================== *)
(** ** Reading executions *)

(** The shapes a step can take. *)
Inductive step_case (s : State) : Event -> State -> Prop :=
| sc_tick d :
    0 <= d -> step_case s (Elapse d) (set_now (now s + d) s)
| sc_main env o s' :
    0 <= env -> main_thread env s = Some (o, s') -> step_case s (Ev TMain o) s'
| sc_ferry o s' :
    runnable (th_status (ferry s)) = true ->
    ferry_thread s = Some (o, s') -> step_case s (Ev TFerry o) s'
| sc_car i th env o s' :
    0 <= env -> cars s !! i = Some th -> runnable (th_status th) = true ->
    car_thread i th env s = Some (o, s') -> step_case s (Ev (TCar i) o) s'
| sc_kill_ferry :
    killable ferry_cancel_point (ferry s) = true ->
    step_case s (Killed TFerry)
      (set_ferry (mkThread Cancelled (th_pc (ferry s))) s)
| sc_kill_car i th :
    cars s !! i = Some th -> killable car_cancel_point th = true ->
    step_case s (Killed (TCar i))
      (set_cars (<[i := mkThread Cancelled (th_pc th)]> (cars s)) s).

(** Counting the events of a kind in a trace. *)
Fixpoint count_ev (p : Event -> bool) (tr : list Event) : nat :=
  match tr with
  | [] => 0
  | e :: rest => ((if p e then 1 else 0) + count_ev p rest)%nat
  end.

Definition same_sem (x y : sem_name) : bool :=
  match x, y with
  | SemBoard, SemBoard | SemFull, SemFull
  | SemUnboard, SemUnboard | SemEmpty, SemEmpty => true
  | _, _ => false
  end.

Definition is_post (x : sem_name) (e : Event) : bool :=
  match e with Ev _ (OSemPost y) => same_sem x y | _ => false end.

Definition is_wait (x : sem_name) (e : Event) : bool :=
  match e with Ev _ (OSemWait y) => same_sem x y | _ => false end.

Definition is_incr (e : Event) : bool :=
  match e with Ev _ (OIncr _) => true | _ => false end.

Definition is_decr (e : Event) : bool :=
  match e with Ev _ (ODecr _) => true | _ => false end.

(** A ferry cycle ends when the ferry's sem_wait(sem_empty) returns. *)
Definition cycle_end (e : Event) : bool := is_wait SemEmpty e.

(** The operations of one thread, oldest first. *)
Fixpoint proj (t : tid) (tr : list Event) : list op :=
  match tr with
  | [] => []
  | Ev u o :: rest => if decide (u = t) then o :: proj t rest else proj t rest
  | _ :: rest => proj t rest
  end.

(** An operation on [cars_on_board] or on [car_count_mutex]. *)
Definition touches (e : Event) : bool :=
  match e with
  | Ev _ (OIncr _) | Ev _ (ODecr _) | Ev _ OLock | Ev _ OUnlock => true
  | _ => false
  end.

(** The last such operation in a trace. *)
Fixpoint last_touch (acc : option Event) (tr : list Event) : option Event :=
  match tr with
  | [] => acc
  | e :: rest => last_touch (if touches e then Some e else acc) rest
  end.

(* ===================================================================== *)
(** ** Signals and counter updates per ferry cycle *)

(** With [k] the number of cycles ended so far: what has been posted and
    how often the counter was updated, by the ferry's phase. *)
Definition cycle_inv (tr : list Event) (s : State) : Prop :=
  let k := Z.of_nat (count_ev cycle_end tr) in
  let n := cars_on_board s in
  match phase_of (th_pc (ferry s)) with
  | Boarding _ =>
      Z.of_nat (count_ev (is_post SemFull) tr) = k + Z.of_nat (sem_full s)
      /\ Z.of_nat (count_ev (is_post SemEmpty) tr) = k
      /\ Z.of_nat (count_ev is_incr tr) = FERRY_CAPACITY * k + n
      /\ Z.of_nat (count_ev is_decr tr) = FERRY_CAPACITY * k
  | Unboarding _ =>
      Z.of_nat (count_ev (is_post SemFull) tr) = k + 1
      /\ Z.of_nat (count_ev (is_post SemEmpty) tr) = k + Z.of_nat (sem_empty s)
      /\ Z.of_nat (count_ev is_incr tr) = FERRY_CAPACITY * k + FERRY_CAPACITY
      /\ Z.of_nat (count_ev is_decr tr)
         = FERRY_CAPACITY * k + (FERRY_CAPACITY - n)
  end.

(** What [main] does: it touches thread statuses and its own position only. *)
Definition main_op (o : op) : bool :=
  match o with
  | OCreate _ _ | OSleep _ | OWake | OLoopExit | OCancel _ | OJoin _
  | OCleanup | OExit _ => true
  | _ => false
  end.

(* ===================================================================== *)
(** ** The test after an update sees the value that update wrote *)

(** A car between its update of [cars_on_board] and the test that follows:
    that update is the last operation on the counter or the mutex in the
    trace, and the counter still has the value it wrote. *)
Definition fresh_inv (tr : list Event) (s : State) : Prop :=
  forall i th, cars s !! i = Some th ->
    (just_in (th_pc th) = 1%nat ->
     last_touch None tr = Some (Ev (TCar i) (OIncr (cars_on_board s))))
    /\ (just_out (th_pc th) = 1%nat ->
        last_touch None tr = Some (Ev (TCar i) (ODecr (cars_on_board s)))).

(* ===================================================================== *)
(** ** Program order of a car's unboarding (lines 140-154) *)

(** The operations from the unboard permit to the test for an empty ferry. *)
Definition unboard_path (i : nat) (d : Z) (line : option log_line) (r v : Z) (o : op)
  : list op :=
  [OSemWait SemUnboard; OSleep d; OWake;
   OPrint "left the ferry" (car_id i) line; OLock; ORead r; ODecr v; o].

(** How many of them a car has executed when it stands at [pc]. *)
Definition unboard_done (pc : car_pc) : nat :=
  match pc with
  | C_usleep_unboard => 1
  | C_sleeping_unboard _ => 2
  | C_print_left => 3
  | C_lock_unboard => 4
  | C_decr => 5
  | C_decr_write _ => 6
  | C_check_empty => 7
  | C_unlock_unboard => 8
  | _ => 0
  end.

(** [h], the operations car [i] has executed, ends with the part of the
    path that leads to [pc]; the value read is the one the car keeps for
    its write, and the value written is one less; at the test, the counter
    [n] still holds the value the car's decrement wrote; after it, the post
    happened exactly when that value was 0. *)
Definition car_hist_ok (i : nat) (pc : car_pc) (n : Z) (h : list op) : Prop :=
  exists pre d line r v o,
    h = pre ++ take (unboard_done pc) (unboard_path i d line r v o)
    /\ 5000 <= d < 25000
    /\ (forall seen, pc = C_decr_write seen -> r = seen)
    /\ ((7 <= unboard_done pc)%nat -> v = wrap_int (r - 1))
    /\ (pc = C_check_empty -> v = n)
    /\ (pc = C_unlock_unboard ->
        (o = OSemPost SemEmpty /\ v = 0) \/ (o = ONoPost SemEmpty /\ v <> 0)).

Definition hist_inv (tr : list Event) (s : State) : Prop :=
  forall i th, cars s !! i = Some th ->
    car_hist_ok i (th_pc th) (cars_on_board s) (proj (TCar i) tr).

(* ===================================================================== *)
(** ** Program order of the ferry's departure (lines 74-94) *)





(* ===================================================================== *)
(** ** Semaphore accounting: every return of sem_wait consumed a post *)

Definition sem_inv (tr : list Event) (s : State) : Prop :=
  forall sx,
    (count_ev (is_wait sx) tr + sem_value sx s = count_ev (is_post sx) tr)%nat.

(** Who posts and who waits on each semaphore. *)
Definition roles_ok (e : Event) : Prop :=
  match e with
  | Ev t (OSemPost SemBoard) | Ev t (OSemPost SemUnboard)
  | Ev t (OSemWait SemFull) | Ev t (OSemWait SemEmpty) => t = TFerry
  | Ev t (OSemPost SemFull) | Ev t (OSemPost SemEmpty)
  | Ev t (OSemWait SemBoard) | Ev t (OSemWait SemUnboard) => exists i, t = TCar i
  | _ => True
  end.

(* ===================================================================== *)
(** ** What reaches stdout *)

(** Every printed line was produced by [print_status] for a caller other
    than the reserved -99. *)
Definition printed_ok (l : log_line) : Prop :=
  exists t message car_num,
    car_num <> -99 /\ print_status t message car_num = Some l.

(* ===================================================================== *)
(** ** [main]: thread creation, failure and exit *)








(* ===================================================================== *)
(** ** Schedules used as concrete runs *)

(** [main] creates one car: usleep(1000) with rand() = 0, a millisecond
    passes, usleep returns, pthread_create succeeds. *)
Definition spawn_car : list Act :=
  [Go TMain 0; Tick 1000; Go TMain 0; Go TMain 0].

(** [main] creates the ferry and the five cars, leaves the loop and calls
    sleep(PROGRAM_RUNTIME). *)
Definition spawn_all : list Act :=
  Go TMain 0 :: concat (replicate 5 spawn_car) ++ [Go TMain 0; Go TMain 0].

Definition steps (t : tid) (n : nat) : list Act := replicate n (Go t 0).

(** Car [i] passes the time check, takes a board permit, locks, pauses for
    10 ms, increments (a read and a write), prints, tests and unlocks. *)
Definition board (i : nat) : list Act :=
  steps (TCar i) 4 ++ [Tick 10000] ++ steps (TCar i) 6.

(** Car [i] takes an unboard permit, pauses for 5 ms, prints, locks,
    decrements (a read and a write), tests and unlocks. *)
Definition unboard (i : nat) : list Act :=
  steps (TCar i) 2 ++ [Tick 5000] ++ steps (TCar i) 7.

(** The ferry arrives, passes the check and posts five board permits; the
    five cars board one after the other. *)
Definition boarding_done : list Act :=
  spawn_all ++ steps TFerry 8
  ++ board 0 ++ board 1 ++ board 2 ++ board 3 ++ board 4.

(** Then the ferry returns from sem_wait(sem_full), passes the check, prints
    its departure and calls sleep(3). *)
Definition crossing_started : list Act := boarding_done ++ steps TFerry 4.

(** Then three seconds pass, the ferry arrives and posts five unboard permits. *)
Definition unboarding_open : list Act :=
  crossing_started ++ [Tick 3000000] ++ steps TFerry 8.

(** Then the five cars unboard and the ferry returns from sem_wait(sem_empty). *)
Definition full_cycle : list Act :=
  unboarding_open
  ++ unboard 0 ++ unboard 1 ++ unboard 2 ++ unboard 3 ++ unboard 4
  ++ steps TFerry 1.

(** Car [i] is cancelled inside its usleep and joined. *)
Definition reap_car (i : nat) : list Act :=
  [Go TMain 0; Kill (TCar i); Go TMain 0].

(** A whole run: one cycle, the run time passes, every car calls its last
    usleep, the ferry sees the time is up and returns, [main] wakes, cancels
    and joins everything, cleans up and returns. *)
Definition whole_run : list Act :=
  full_cycle
  ++ steps (TCar 0) 1 ++ steps (TCar 1) 1 ++ steps (TCar 2) 1
  ++ steps (TCar 3) 1 ++ steps (TCar 4) 1
  ++ [Tick 60000000] ++ steps TFerry 2 ++ steps TMain 3
  ++ reap_car 0 ++ reap_car 1 ++ reap_car 2 ++ reap_car 3 ++ reap_car 4
  ++ steps TMain 3.

(** The trace and the final state of a schedule run from [boot]. *)
Definition trace_of (sched : list Act) : list Event :=
  match run sched boot with Some (tr, _) => tr | None => [] end.

Definition final (sched : list Act) : State :=
  match run sched boot with Some (_, s) => s | None => boot end.

(* ===================================================================== *)
(** ** C3: no premature departure *)

(** From the return of sem_wait(sem_full) until the arrival is announced:
    the second time check, the departure event, the transit pause. *)
Definition full_to_arrival (pc : ferry_pc) : bool :=
  match pc with
  | F_check_depart | F_print_leaves | F_sleep | F_sleeping _
  | F_print_arrives_dock => true
  | _ => false
  end.

(* ===================================================================== *)
(** ** C4: what the mutex covers *)

(** Blocked in, or about to call, sem_wait. *)
Definition sem_waiting (pc : car_pc) : bool :=
  match pc with C_wait_board | C_wait_unboard => true | _ => false end.

(** About to call usleep, or inside it. *)
Definition timed_pause (pc : car_pc) : bool :=
  match pc with
  | C_usleep_board | C_sleeping_board _ | C_usleep_unboard
  | C_sleeping_unboard _ | C_usleep_return | C_sleeping_return _ => true
  | _ => false
  end.

(** Car 1 has locked the mutex and called usleep (line 127). *)
Definition board_pause : list Act :=
  spawn_all ++ steps TFerry 8 ++ steps (TCar 0) 4.

(* ===================================================================== *)
(** ** Counting within one ferry cycle *)

(** A point between two cycles: the start of the run, or right after the
    ferry's sem_wait(sem_empty) has returned. *)
Definition cycle_boundary (tr0 : list Event) : Prop :=
  tr0 = [] \/ exists pre, tr0 = pre ++ [Ev TFerry (OSemWait SemEmpty)].

(* ===================================================================== *)
(** ** C7: order of a car's unboarding *)

(** Car 1 unboards first in [full_cycle]: up to its test for an empty ferry. *)
Definition first_unboard : list Act :=
  unboarding_open ++ steps (TCar 0) 2 ++ [Tick 5000] ++ steps (TCar 0) 6.

(* ===================================================================== *)
(** ** C8: the ferry's time checks *)

(** Every car executes [n] statements, car 1 first. *)
Definition each_car (n : nat) : list Act :=
  steps (TCar 0) n ++ steps (TCar 1) n ++ steps (TCar 2) n
  ++ steps (TCar 3) n ++ steps (TCar 4) n.

(** The cars drive around: each calls the usleep of line 159 (500 ms with
    rand() = 0), [gap] microseconds pass, each returns from it. *)
Definition away (gap : Z) : list Act := each_car 1 ++ [Tick gap] ++ each_car 1.

(** The ferry passes the check at the top of its loop and posts five board
    permits; the five cars board one after the other. *)
Definition boarding_again : list Act :=
  steps TFerry 7 ++ board 0 ++ board 1 ++ board 2 ++ board 3 ++ board 4.

(** One more cycle after [full_cycle]: with [gap] = 925000 it takes exactly
    four seconds. *)
Definition later_cycle (gap : Z) : list Act :=
  away gap ++ boarding_again
  ++ steps TFerry 4 ++ [Tick 3000000] ++ steps TFerry 8
  ++ unboard 0 ++ unboard 1 ++ unboard 2 ++ unboard 3 ++ unboard 4
  ++ steps TFerry 1.

(** Fifteen cycles, the last ending at 59.08 s.  In the sixteenth the last
    car has boarded at 59.999999 s; the ferry returns from
    sem_wait(sem_full) and makes the check of line 86 at once; two
    microseconds later it calls print_status and sleep(3). *)
Definition late_departure : list Act :=
  full_cycle ++ concat (replicate 14 (later_cycle 925000))
  ++ away 869999 ++ boarding_again
  ++ steps TFerry 2 ++ [Tick 2] ++ steps TFerry 2.

(* ===================================================================== *)
(** ** C9: the semaphores start at 0 *)

(** The ferry's first return from sem_wait(sem_full) in [crossing_started]. *)
Definition full_received : list Act := boarding_done ++ steps TFerry 1.

(* ===================================================================== *)
(** ** C6: exit codes *)



(* ===================================================================== *)
(** ** Elapsed time (lines 34-41) *)

(** [tv_usec] is within a second. *)
Definition normalized (tv : timeval) : Prop := 0 <= tv_usec tv < 1000000.

(** The instant [a] is before the instant [b]. *)
Definition timeval_lt (a b : timeval) : Prop :=
  tv_sec a < tv_sec b \/ (tv_sec a = tv_sec b /\ tv_usec a < tv_usec b).

(** How far from [start_time] the [double] of lines 38-39 still tells two
    instants one microsecond apart from each other: 2^31 seconds. *)
Definition MAX_ELAPSED : Z := 2 ^ 31.

Definition in_range (start tv : timeval) : Prop :=
  Z.abs (tv_sec tv - tv_sec start) < MAX_ELAPSED.

(* ===================================================================== *)
(** ** Rounds of one car *)

(** An increment, a decrement of [cars_on_board] by car [i]. *)
Definition is_incr_by (i : nat) (e : Event) : bool :=
  match e with Ev (TCar j) (OIncr _) => Nat.eqb i j | _ => false end.

Definition is_decr_by (i : nat) (e : Event) : bool :=
  match e with Ev (TCar j) (ODecr _) => Nat.eqb i j | _ => false end.

(** Of a car standing at [pc], in the ferry's phase [ph]: how often it has
    boarded, and how often it has left, since the last cycle ended. *)
Definition boarded_now (ph : phase) (pc : car_pc) : nat :=
  match ph with Boarding _ => aboard pc | Unboarding _ => 1 end.

Definition left_now (ph : phase) (pc : car_pc) : nat :=
  match ph with Boarding _ => 0 | Unboarding _ => 1 - aboard pc end.

(** Every car has boarded and left once per ended cycle, plus what it did
    in the cycle under way. *)
Definition rounds_inv (tr : list Event) (s : State) : Prop :=
  forall i th, cars s !! i = Some th ->
    count_ev (is_incr_by i) tr
    = (count_ev cycle_end tr + boarded_now (phase_of (th_pc (ferry s))) (th_pc th))%nat
    /\ count_ev (is_decr_by i) tr
       = (count_ev cycle_end tr + left_now (phase_of (th_pc (ferry s))) (th_pc th))%nat.

(* ===================================================================== *)
(** ** Thread creation and joining *)

(** Exactly the first [k] slots of [car_threads] hold a created thread. *)
Definition cars_created (k : nat) (l : list (thread car_pc)) : Prop :=
  forall j th, l !! j = Some th ->
    (th_status th = NotCreated <-> (k <= j)%nat).

(** Some first slots hold created threads, and only if the ferry thread
    exists; while [main] is in its creation loop, exactly those below its
    loop counter. *)
Definition create_inv (s : State) : Prop :=
  (exists k, cars_created k (cars s)
             /\ (th_status (ferry s) = NotCreated -> k = 0%nat))
  /\ match main_at s with
     | M_create_ferry =>
         th_status (ferry s) = NotCreated /\ cars_created 0 (cars s)
     | M_car_usleep i =>
         0 <= i <= FERRY_CAPACITY /\ th_status (ferry s) <> NotCreated
         /\ cars_created (Z.to_nat i) (cars s)
     | M_car_sleeping i _ | M_car_create i =>
         0 <= i < FERRY_CAPACITY /\ th_status (ferry s) <> NotCreated
         /\ cars_created (Z.to_nat i) (cars s)
     | _ => True
     end.

(** The ferry and the cars in slots below [i] have terminated. *)
Definition joined_upto (i : Z) (s : State) : Prop :=
  terminated (th_status (ferry s)) = true
  /\ forall j th, cars s !! j = Some th -> Z.of_nat j < i ->
       terminated (th_status th) = true.

(** What [main] has joined, by where it stands in lines 215-232. *)
Definition join_inv (s : State) : Prop :=
  match main_at s with
  | M_cancel_car i => 0 <= i <= FERRY_CAPACITY /\ joined_upto i s
  | M_join_car i => 0 <= i < FERRY_CAPACITY /\ joined_upto i s
  | M_cleanup | M_return => joined_upto FERRY_CAPACITY s
  | M_exited code => code = 0 -> joined_upto FERRY_CAPACITY s
  | _ => True
  end.

(* ===================================================================== *)
(** ** The clock in [main] and at the end of a thread *)

(** The shortest pause before a car is created: usleep(rand() % 999000 + 1000). *)
Definition MIN_SPAWN_PAUSE : Z := 1000.

(** The earliest time at which [main] can return from sleep(PROGRAM_RUNTIME). *)
Definition earliest_wake : Z :=
  FERRY_CAPACITY * MIN_SPAWN_PAUSE + usec PROGRAM_RUNTIME.

Definition ferry_at_return (pc : ferry_pc) : bool :=
  match pc with F_return _ => true | _ => false end.

Definition car_at_return (pc : car_pc) : bool :=
  match pc with C_return => true | _ => false end.

(** At time [t]: a thread with a cancellation request has it from after
    [main]'s sleep; a thread at its return statement has seen the run time
    elapse; a thread that returned stands at its return statement. *)
Definition thread_time_ok {PC} (at_return : PC -> bool) (t : Z) (th : thread PC)
  : Prop :=
  (th_status th = CancelPending \/ th_status th = Cancelled -> earliest_wake <= t)
  /\ (at_return (th_pc th) = true -> usec PROGRAM_RUNTIME <= t)
  /\ (th_status th = Returned -> at_return (th_pc th) = true).

(** The clock, by where [main] stands: each pause before a car lasts at
    least [MIN_SPAWN_PAUSE], and sleep(PROGRAM_RUNTIME) the run time. *)
Definition time_inv (s : State) : Prop :=
  0 <= now s
  /\ match main_at s with
     | M_car_usleep i => 0 <= i <= FERRY_CAPACITY /\ i * MIN_SPAWN_PAUSE <= now s
     | M_car_sleeping i wake =>
         0 <= i < FERRY_CAPACITY /\ (i + 1) * MIN_SPAWN_PAUSE <= wake
     | M_car_create i =>
         0 <= i < FERRY_CAPACITY /\ (i + 1) * MIN_SPAWN_PAUSE <= now s
     | M_sleep => FERRY_CAPACITY * MIN_SPAWN_PAUSE <= now s
     | M_sleeping wake => earliest_wake <= wake
     | M_cancel_ferry | M_join_ferry | M_cancel_car _ | M_join_car _
     | M_cleanup | M_return => earliest_wake <= now s
     | M_exited code => code = 0 -> earliest_wake <= now s
     | M_create_ferry | M_exit_failure => True
     end
  /\ thread_time_ok ferry_at_return (now s) (ferry s)
  /\ Forall (thread_time_ok car_at_return (now s)) (cars s).

(* ===================================================================== *)
(** ** Lines on stdout *)

(** The lines the simulation can print: the ferry's two messages, and the
    cars' two messages with an id from 1 to [FERRY_CAPACITY]. *)
Definition line_ok (l : log_line) : bool :=
  match l with
  | FerryLine _ m =>
      String.eqb m "arrives to new dock" || String.eqb m "leaves the dock"
  | CarLine _ n m =>
      (1 <=? n) && (n <=? FERRY_CAPACITY)
      && (String.eqb m "entered the ferry" || String.eqb m "left the ferry")
  end.

(** A car's line of line 144, the one call of print_status that runs
    beside the calls of other threads. *)
Definition is_left (l : log_line) : bool :=
  match l with
  | CarLine _ _ m => String.eqb m "left the ferry"
  | FerryLine _ _ => false
  end.

(** [a] carries a clock value no later than [b]'s, unless both are "left
    the ferry" lines. *)
Definition in_order (a b : log_line) : Prop :=
  (is_left a = true /\ is_left b = true) \/ line_clock a <= line_clock b.

(** Before anything is printed no board permit exists and no car has passed
    sem_wait(sem_board); the ferry is about to announce its arrival, or it
    was too late for that and the ferry is on its way out. *)
Definition first_inv (s : State) : Prop :=
  match stdout s with
  | [] =>
      sem_board s = 0%nat
      /\ (forall j th, cars s !! j = Some th ->
            th_pc th = C_check \/ th_pc th = C_wait_board \/ th_pc th = C_return)
      /\ (th_pc (ferry s) = F_print_arrives
          \/ (th_pc (ferry s) = F_check_top \/ th_pc (ferry s) = F_return false)
             /\ usec PROGRAM_RUNTIME < now s)
  | l :: _ => exists t, l = FerryLine t "arrives to new dock"
  end.






(** The ferry is between its departure line and its arrival line. *)
Definition in_transit (pc : ferry_pc) : bool :=
  match pc with
  | F_sleep | F_sleeping _ | F_print_arrives_dock => true
  | _ => false
  end.

(** While the last line on stdout is a departure, the ferry is in transit,
    or it is too late for any further line. *)
Definition quiet_inv (s : State) : Prop :=
  forall pre t,
    stdout s = pre ++ [FerryLine t "leaves the dock"] ->
    in_transit (th_pc (ferry s)) = true \/ usec PROGRAM_RUNTIME < now s.

(* ===================================================================== *)
(** ** The crossing, and the permits of a cycle *)

(** The last operations of the ferry, by where it stands around sleep(3);
    [tp] is the clock value its departure call of print_status read. *)
Definition cross_path (tp : Z) : list op :=
  [OPrint "leaves the dock" (-1) (print_status tp "leaves the dock" (-1));
   OSleep (usec 3); OWake].

(** Before its first statement the ferry has executed nothing; around
    sleep(3) its last operations are those of [cross_path], and the pause
    ends no earlier than three seconds after the departure call. *)
Definition cross_inv (tr : list Event) (s : State) : Prop :=
  match th_pc (ferry s) with
  | F_print_arrives => proj TFerry tr = []
  | F_sleep =>
      exists pre tp, proj TFerry tr = pre ++ take 1 (cross_path tp) /\ tp <= now s
  | F_sleeping wake =>
      exists pre tp,
        proj TFerry tr = pre ++ take 2 (cross_path tp) /\ tp + usec 3 <= wake
  | F_print_arrives_dock =>
      exists pre tp,
        proj TFerry tr = pre ++ cross_path tp /\ tp + usec 3 <= now s
  | _ => True
  end.

(** Permits posted so far: [FERRY_CAPACITY] of each kind per ended cycle,
    plus those of the cycle under way. *)
Definition board_posted (pc : ferry_pc) : Z :=
  match phase_of pc with Boarding i => i | Unboarding _ => FERRY_CAPACITY end.

Definition unboard_posted (pc : ferry_pc) : Z :=
  match phase_of pc with Boarding _ => 0 | Unboarding j => j end.

(** The ferry calls sleep(3): a crossing starts. *)
Definition is_crossing (e : Event) : bool :=
  match e with Ev TFerry (OSleep _) => true | _ => false end.

(** When the crossings started so far are over, or were over. *)
Definition crossings_end (s : State) : Z :=
  match th_pc (ferry s) with F_sleeping wake => wake | _ => now s end.

(** The crossings take three seconds each, one after the other; the ferry
    past the check of line 86 has started fewer than fit into the run time. *)
Definition crossings_inv (tr : list Event) (s : State) : Prop :=
  let n := Z.of_nat (count_ev is_crossing tr) in
  usec 3 * n <= crossings_end s
  /\ usec 3 * n <= usec PROGRAM_RUNTIME
  /\ match th_pc (ferry s) with
     | F_print_leaves | F_sleep => usec 3 * n < usec PROGRAM_RUNTIME
     | _ => True
     end.

(* ===================================================================== *)
(** ** Blocked threads *)

(** Blocked in, or about to call, pthread_mutex_lock. *)
Definition at_lock (pc : car_pc) : bool :=
  match pc with C_lock_board | C_lock_unboard => true | _ => false end.

(** Car [i] has terminated while it owned the mutex, and car [j] stands at
    [pc], a call of pthread_mutex_lock. *)
Definition stuck (i j : nat) (pc : car_pc) (s : State) : Prop :=
  car_count_mutex s = Some (TCar i)
  /\ (exists th, cars s !! i = Some th /\ terminated (th_status th) = true)
  /\ (exists th, cars s !! j = Some th /\ th_pc th = pc
                 /\ terminated (th_status th) = false)
  /\ at_lock pc = true.

(** The ferry cannot return from the call it stands at. *)
Definition ferry_blocked (s : State) : bool :=
  match th_pc (ferry s) with
  | F_wait_full => Nat.eqb (sem_full s) 0
  | F_wait_empty => Nat.eqb (sem_empty s) 0
  | _ => false
  end.

(** A car at [pc] cannot return from the call it stands at. *)
Definition car_blocked (s : State) (pc : car_pc) : bool :=
  match pc with
  | C_wait_board => Nat.eqb (sem_board s) 0
  | C_wait_unboard => Nat.eqb (sem_unboard s) 0
  | C_lock_board | C_lock_unboard =>
      match car_count_mutex s with Some _ => true | None => false end
  | _ => false
  end.

(** How long a thread inside sleep or usleep still has to stay there. *)
Definition time_left (wake : Z) (s : State) : Z := Z.max 0 (wake - now s).

Definition ferry_nap (s : State) : Z :=
  match th_pc (ferry s) with F_sleeping wake => time_left wake s | _ => 0 end.

Definition car_nap (s : State) (pc : car_pc) : Z :=
  match pc with
  | C_sleeping_board wake | C_sleeping_unboard wake | C_sleeping_return wake =>
      time_left wake s
  | _ => 0
  end.

(** After [d] more microseconds, agent [t] can execute its next statement. *)
Definition can_move (t : tid) (d : Z) (s : State) : Prop :=
  0 <= d /\ exists e s', do_step (Go t 0) (set_now (now s + d) s) = Some (e, s').

(* ===================================================================== *)
(** ** The program order of [main] *)

(** What [main] does for car [i]: pause for [d], then create its thread. *)
Definition spawn_ops (i : nat) (d : Z) : list op :=
  [OSleep d; OWake; OCreate (TCar i) 0].

Definition reap_ops (i : nat) : list op := [OCancel (TCar i); OJoin (TCar i)].

(** The operations of [main] in a run in which every pthread_create
    succeeds (lines 188-232), with the pauses [ds] before the cars. *)
Definition main_path (ds : list Z) : list op :=
  OCreate TFerry 0 :: concat (imap spawn_ops ds)
  ++ [OLoopExit; OSleep (usec PROGRAM_RUNTIME); OWake;
      OCancel TFerry; OJoin TFerry]
  ++ concat (map reap_ops (seq 0 (Z.to_nat FERRY_CAPACITY)))
  ++ [OLoopExit; OCleanup; OExit 0].

(** How many of them [main] has executed when it stands at [pc] (one for
    the ferry, three per car, five around the sleep, two per car, three at
    the end). *)
Definition main_done (pc : main_pc) : nat :=
  match pc with
  | M_create_ferry => 0
  | M_car_usleep i => 1 + 3 * Z.to_nat i
  | M_car_sleeping i _ => 2 + 3 * Z.to_nat i
  | M_car_create i => 3 + 3 * Z.to_nat i
  | M_sleep => 17
  | M_sleeping _ => 18
  | M_cancel_ferry => 19
  | M_join_ferry => 20
  | M_cancel_car i => 21 + 2 * Z.to_nat i
  | M_join_car i => 22 + 2 * Z.to_nat i
  | M_cleanup => 32
  | M_return => 33
  | M_exited _ => 34
  | M_exit_failure => 0
  end.

(** The range of usleep(rand() % 999000 + 1000) (line 194). *)
Definition spawn_pause_ok (d : Z) : Prop := MIN_SPAWN_PAUSE <= d < 1000000.

(** The operations of [main] so far are the part of [main_path] that leads
    to where it stands. *)
Definition main_hist_inv (tr : list Event) (s : State) : Prop :=
  match main_at s with
  | M_exit_failure => True
  | M_exited code => code = 0 ->
      exists ds, length ds = Z.to_nat FERRY_CAPACITY /\ Forall spawn_pause_ok ds
                 /\ proj TMain tr = main_path ds
  | pc =>
      (match pc with
       | M_car_usleep i | M_cancel_car i => 0 <= i <= FERRY_CAPACITY
       | M_car_sleeping i _ | M_car_create i | M_join_car i =>
           0 <= i < FERRY_CAPACITY
       | _ => True
       end)
      /\ exists ds, length ds = Z.to_nat FERRY_CAPACITY /\ Forall spawn_pause_ok ds
                    /\ proj TMain tr = take (main_done pc) (main_path ds)
  end.

(* ===================================================================== *)
(** ** More concrete runs *)

(** The ferry has announced its arrival and posted its five board permits. *)
Definition permits_open : list Act := spawn_all ++ steps TFerry 8.

(** The first crossing is over: the ferry has announced its arrival at the
    other dock. *)
Definition arrived : list Act :=
  crossing_started ++ [Tick 3000000] ++ steps TFerry 2.

(** Fifteen cycles, the last ending at 59.08 s.  At 59.96 s the ferry posts
    its permits; car 1 takes one, locks the mutex and calls usleep for
    49.999 ms; car 2 takes one and calls pthread_mutex_lock.  At 60.005 s
    [main] returns from sleep, cancels and joins the ferry, and cancels
    car 1, which acts on the request inside usleep. *)
Definition cancelled_in_boarding : list Act :=
  full_cycle ++ concat (replicate 14 (later_cycle 925000))
  ++ away 880000 ++ steps TFerry 7
  ++ steps (TCar 0) 3 ++ [Go (TCar 0) 39999] ++ steps (TCar 1) 2
  ++ [Tick 45000] ++ steps TMain 2 ++ [Kill TFerry] ++ steps TMain 2
  ++ [Kill (TCar 0)].

(* ##################################################################### *)
(** * Proofs *)

(* ===================================================================== *)
(** ** Basic facts *)

Lemma wrap_int_small z : - 2 ^ 31 <= z < 2 ^ 31 -> wrap_int z = z.
Proof.
  intros H. unfold wrap_int.
  rewrite Z.mod_small by lia. lia.
Qed.

Lemma cnt_insert f (l : list (thread car_pc)) i th th' :
  l !! i = Some th ->
  (cnt f (<[i := th']> l) + f (th_pc th) = cnt f l + f (th_pc th'))%nat.
Proof.
  revert i. induction l as [|x l IH]; intros [|i] H; simpl in *; try discriminate.
  - injection H as ->. lia.
  - specialize (IH i H). lia.
Qed.

Lemma cnt_alter f g (l : list (thread car_pc)) i :
  (forall th, th_pc (g th) = th_pc th) -> cnt f (alter g i l) = cnt f l.
Proof.
  intros Hg. revert i.
  induction l as [|x l IH]; intros [|i]; simpl; rewrite ?Hg; try reflexivity.
  f_equal. apply IH.
Qed.

Lemma cnt_mono f g (l : list (thread car_pc)) :
  (forall pc, (f pc <= g pc)%nat) -> (cnt f l <= cnt g l)%nat.
Proof.
  intros Hfg. induction l as [|y l IH]; simpl; [lia|].
  specialize (Hfg (th_pc y)). lia.
Qed.

Lemma cnt_le_others f g (l : list (thread car_pc)) i th :
  (forall pc, (f pc <= g pc)%nat) -> l !! i = Some th ->
  (cnt f l + g (th_pc th) <= cnt g l + f (th_pc th))%nat.
Proof.
  intros Hfg. revert i. induction l as [|x l IH]; intros [|i] H; simpl in *;
    try discriminate.
  - injection H as ->. pose proof (cnt_mono f g l Hfg). lia.
  - specialize (IH i H). specialize (Hfg (th_pc x)). lia.
Qed.

Lemma cnt_bound f (l : list (thread car_pc)) :
  (forall pc, (f pc <= 1)%nat) -> (cnt f l <= length l)%nat.
Proof.
  intros Hf. induction l as [|x l IH]; simpl; [lia|].
  specialize (Hf (th_pc x)). lia.
Qed.

(** All slots, or no slot, at the program counters selected by [f]. *)
Lemma cnt_all f (l : list (thread car_pc)) i th :
  (forall pc, (f pc <= 1)%nat) -> cnt f l = length l -> l !! i = Some th ->
  f (th_pc th) = 1%nat.
Proof.
  intros Hf. revert i. induction l as [|x l IH]; intros [|i] Hc Hl; simpl in *;
    try discriminate.
  - injection Hl as ->. pose proof (cnt_bound f l Hf). specialize (Hf (th_pc th)). lia.
  - apply (IH i); [|exact Hl].
    pose proof (cnt_bound f l Hf). specialize (Hf (th_pc x)). lia.
Qed.

Lemma cnt_none f (l : list (thread car_pc)) i th :
  cnt f l = 0%nat -> l !! i = Some th -> f (th_pc th) = 0%nat.
Proof.
  revert i. induction l as [|x l IH]; intros [|i] Hc Hl; simpl in *;
    try discriminate.
  - injection Hl as ->. lia.
  - apply (IH i); [lia | exact Hl].
Qed.

Lemma just_in_holding pc : (just_in pc <= holding pc)%nat.
Proof. destruct pc; simpl; lia. Qed.

Lemma just_out_holding pc : (just_out pc <= holding pc)%nat.
Proof. destruct pc; simpl; lia. Qed.

Lemma aboard_le_1 pc : (aboard pc <= 1)%nat.
Proof. destruct pc; simpl; lia. Qed.

Lemma locked_bound m : 0 <= locked m <= 1.
Proof. destruct m; simpl; lia. Qed.

(** Two slots inside a critical section count twice. *)
Lemma holding_two (l : list (thread car_pc)) i j a b :
  i <> j -> l !! i = Some a -> l !! j = Some b ->
  (holding (th_pc a) + holding (th_pc b) <= cnt holding l)%nat.
Proof.
  intros Hne Hi Hj.
  pose proof (cnt_insert holding l i a (mkThread Running C_check) Hi) as H1.
  assert (Hj' : <[i := mkThread Running C_check]> l !! j = Some b)
    by (rewrite list_lookup_insert_ne; auto).
  pose proof (cnt_insert holding _ j b (mkThread Running C_check) Hj') as H2.
  simpl in *. lia.
Qed.

Lemma cnt_replicate f n th : cnt f (replicate n th) = (n * f (th_pc th))%nat.
Proof. induction n as [|n IH]; simpl; [reflexivity | rewrite IH; lia]. Qed.

Lemma owner_ok_insert m (l : list (thread car_pc)) i th th' :
  l !! i = Some th ->
  (holding (th_pc th) = 1%nat -> holding (th_pc th') = 1%nat) ->
  owner_ok m l -> owner_ok m (<[i := th']> l).
Proof.
  intros Hl Hh. destruct m as [[| |j]|]; simpl; auto.
  destruct (decide (i = j)) as [->|Hne].
  - rewrite list_lookup_insert_eq by (eapply lookup_lt_Some; eauto).
    rewrite Hl. exact Hh.
  - rewrite list_lookup_insert_ne by exact Hne. auto.
Qed.

Lemma owner_ok_alter m g (l : list (thread car_pc)) i :
  (forall th, th_pc (g th) = th_pc th) ->
  owner_ok m l -> owner_ok m (alter g i l).
Proof.
  intros Hg. destruct m as [[| |j]|]; simpl; auto.
  rewrite list_lookup_alter. destruct (decide (i = j)) as [->|Hne]; auto.
  destruct (l !! j) as [th|]; simpl; auto. now rewrite Hg.
Qed.

Lemma owner_ok_self (l : list (thread car_pc)) i th th' :
  l !! i = Some th -> holding (th_pc th') = 1%nat ->
  owner_ok (Some (TCar i)) (<[i := th']> l).
Proof.
  intros Hl Hh. simpl.
  rewrite list_lookup_insert_eq by (eapply lookup_lt_Some; eauto). exact Hh.
Qed.

Lemma lookup_alter_pc g (l : list (thread car_pc)) i j th' :
  (forall th, th_pc (g th) = th_pc th) -> alter g i l !! j = Some th' ->
  exists th, l !! j = Some th /\ th_pc th = th_pc th'.
Proof.
  intros Hg. rewrite list_lookup_alter. case_decide; subst; eauto.
  destruct (l !! j) as [th|]; simpl; [|discriminate].
  intros [= <-]. eauto.
Qed.

Lemma started_pc {PC} (th : thread PC) : th_pc (started th) = th_pc th.
Proof. reflexivity. Qed.

Lemma cancel_requested_pc {PC} (th : thread PC) :
  th_pc (cancel_requested th) = th_pc th.
Proof. unfold cancel_requested. destruct (th_status th); reflexivity. Qed.

(* ===================================================================== *)
(** ** The boarding-gate invariant is preserved by every step *)

Lemma sem_wait_Some x s s1 :
  sem_wait x s = Some s1 ->
  exists v, sem_value x s = S v /\ s1 = set_sem x v s.
Proof.
  unfold sem_wait. destruct (sem_value x s) as [|v]; [discriminate|].
  intros [= <-]. eauto.
Qed.

Lemma mutex_lock_Some t s s1 :
  mutex_lock t s = Some s1 ->
  car_count_mutex s = None /\ s1 = set_mutex (Some t) s.
Proof.
  unfold mutex_lock. destruct (car_count_mutex s); [discriminate|].
  intros [= <-]. auto.
Qed.

(** Case analysis on the outcome of one statement. *)
Ltac split_step H :=
  repeat match type of H with
  | context [mbind _ (sem_wait ?x ?s)] =>
      let Hw := fresh "Hw" in
      destruct (sem_wait x s) as [?|] eqn:Hw;
      [apply sem_wait_Some in Hw as (? & Hw & ->); simpl in Hw; subst|];
      simpl in H
  | context [mbind _ (mutex_lock ?t ?s)] =>
      let Hw := fresh "Hw" in
      destruct (mutex_lock t s) as [?|] eqn:Hw;
      [apply mutex_lock_Some in Hw as (Hw & ->); simpl in Hw; subst|];
      simpl in H
  | context [mbind _ ?m] => destruct m eqn:?; simpl in H
  | context [print_status ?t ?msg ?c] => destruct (print_status t msg c) eqn:?
  | context [if ?b then _ else _] => destruct b eqn:?
  end; simpl in H; try discriminate H.

(** How the counts change when slot [i] moves to a new program counter. *)
Ltac count_moves Hl :=
  match goal with
  | |- context [<[?i := ?th']> ?cs] =>
      pose proof (cnt_insert permit_taken cs i _ th' Hl);
      pose proof (cnt_insert aboard cs i _ th' Hl);
      pose proof (cnt_insert leaving cs i _ th' Hl);
      pose proof (cnt_insert just_in cs i _ th' Hl);
      pose proof (cnt_insert just_out cs i _ th' Hl);
      pose proof (cnt_insert holding cs i _ th' Hl);
      pose proof (cnt_le_others just_in holding cs i _ just_in_holding Hl);
      pose proof (cnt_le_others just_out holding cs i _ just_out_holding Hl);
      pose proof (cnt_bound aboard cs aboard_le_1)
  end.

Lemma gate_inv_boot : gate_inv boot.
Proof.
  unfold gate_inv, boot, FERRY_CAPACITY. simpl.
  repeat match goal with |- _ /\ _ => split end; auto; try lia.
  intros j th Hj.
  apply (lookup_replicate_1 5 empty_slot th j) in Hj as [-> _]. exact I.
Qed.

Lemma gate_inv_ferry s o s' :
  gate_inv s -> ferry_thread s = Some (o, s') -> gate_inv s'.
Proof.
  intros Hinv Hstep.
  destruct s as [t B F U E m n mpc [fst fpc] cs out].
  unfold gate_inv in Hinv; simpl in Hinv.
  unfold ferry_thread, emit in Hstep; simpl in Hstep.
  destruct fpc; simpl in Hstep; split_step Hstep;
    injection Hstep as <- <-; unfold gate_inv; simpl; simpl in Hinv.
  all: try (rewrite wrap_int_small by (unfold FERRY_CAPACITY in *; lia)).
  all: unfold FERRY_CAPACITY in *.
  all: intuition lia.
Qed.

Lemma gate_inv_car s i th env o s' :
  gate_inv s -> cars s !! i = Some th ->
  car_thread i th env s = Some (o, s') -> gate_inv s'.
Proof.
  intros Hinv Hl Hstep.
  assert (Hother : forall j b, i <> j -> cars s !! j = Some b ->
            holding (th_pc th) = 1%nat -> holding (th_pc b) = 0%nat).
  { intros j b Hne Hb Hhold. pose proof (holding_two _ i j th b Hne Hl Hb).
    destruct Hinv as (_ & _ & Hc & _). pose proof (locked_bound (car_count_mutex s)).
    lia. }
  destruct s as [t B F U E m n mpc [fst fpc] cs out].
  destruct th as [st pc].
  unfold gate_inv in Hinv; simpl in Hinv, Hl, Hother.
  destruct Hinv as (Hlen & Ha & Hh & Ho & Hp & Hseen).
  pose proof (Hseen i _ Hl) as Hmine.
  pose proof (locked_bound m) as Hlk.
  unfold car_thread, emit in Hstep; simpl in Hstep.
  destruct pc; simpl in Hstep, Hmine; split_step Hstep;
    injection Hstep as <- <-; unfold gate_inv; simpl.
  all: try (rewrite Hmine in *; clear Hmine).
  all: count_moves Hl; simpl in *.
  all: rewrite ?length_insert.
  all: repeat match goal with |- _ /\ _ => split end.
  all: try (eapply owner_ok_insert;
            [exact Hl | simpl; try lia; try reflexivity | exact Ho]).
  all: try (eapply owner_ok_self; [exact Hl | reflexivity]).
  all: try exact I.
  all: try (intros j th' Hj; destruct (decide (i = j)) as [<-|Hne];
            [ rewrite list_lookup_insert_eq in Hj by (eapply lookup_lt_Some; eauto);
              injection Hj as <-; simpl; auto; fail
            | rewrite list_lookup_insert_ne in Hj by exact Hne;
              first [ exact (Hseen j th' Hj)
                    | specialize (Hother j th' Hne Hj eq_refl);
                      destruct (th_pc th'); simpl in *; try exact I;
                      discriminate Hother ] ]).
  all: rewrite ?Z.eqb_eq, ?Z.eqb_neq in *.
  all: try (rewrite wrap_int_small
              by (unfold FERRY_CAPACITY in *; destruct (phase_of fpc); lia)).
  all: unfold FERRY_CAPACITY in *.
  all: destruct (phase_of fpc); simpl in *; intuition lia.
Qed.

Lemma gate_inv_main s env o s' :
  gate_inv s -> main_thread env s = Some (o, s') -> gate_inv s'.
Proof.
  intros Hinv Hstep.
  destruct s as [t B F U E m n mpc [fst fpc] cs out].
  unfold gate_inv in Hinv; simpl in Hinv.
  destruct Hinv as (Hlen & Ha & Hh & Ho & Hp & Hseen).
  unfold main_thread in Hstep; simpl in Hstep.
  destruct mpc; simpl in Hstep; split_step Hstep;
    injection Hstep as <- <-; unfold gate_inv; simpl.
  all: rewrite ?length_alter, ?(cnt_alter _ _ _ _ started_pc),
         ?(cnt_alter _ _ _ _ cancel_requested_pc), ?cancel_requested_pc.
  all: repeat match goal with |- _ /\ _ => split end; auto.
  all: try (apply owner_ok_alter; [apply started_pc || apply cancel_requested_pc | exact Ho]).
  all: intros j th' Hj;
    apply lookup_alter_pc in Hj as (th0 & Hj0 & <-);
    [ exact (Hseen j th0 Hj0) | first [apply started_pc | apply cancel_requested_pc] ].
Qed.

Lemma gate_inv_step a s e s' :
  gate_inv s -> do_step a s = Some (e, s') -> gate_inv s'.
Proof.
  intros Hinv Hstep. unfold do_step in Hstep.
  destruct (exited s); [discriminate|].
  destruct a as [d | t env | t].
  - destruct (0 <=? d); [|discriminate]. injection Hstep as <- <-. exact Hinv.
  - destruct (env <? 0); [discriminate|]. destruct t as [| |i].
    + unfold by_thread in Hstep.
      destruct (main_thread env s) as [[o s1]|] eqn:Hm; [|discriminate].
      injection Hstep as <- <-. eauto using gate_inv_main.
    + destruct (runnable _); [|discriminate]. unfold by_thread in Hstep.
      destruct (ferry_thread s) as [[o s1]|] eqn:Hm; [|discriminate].
      injection Hstep as <- <-. eauto using gate_inv_ferry.
    + destruct (cars s !! i) as [th|] eqn:Hl; [|discriminate]. simpl in Hstep.
      destruct (runnable _); [|discriminate]. unfold by_thread in Hstep.
      destruct (car_thread i th env s) as [[o s1]|] eqn:Hm; [|discriminate].
      injection Hstep as <- <-. eauto using gate_inv_car.
  - destruct t as [| |i]; [discriminate| |].
    + destruct (killable _ _); [|discriminate]. injection Hstep as <- <-.
      exact Hinv.
    + destruct (cars s !! i) as [th|] eqn:Hl; [|discriminate]. simpl in Hstep.
      destruct (killable _ _); [|discriminate]. injection Hstep as <- <-.
      destruct Hinv as (Hlen & Ha & Hh & Ho & Hp & Hseen).
      destruct th as [st pc]. unfold gate_inv. simpl.
      count_moves Hl. simpl in *. rewrite length_insert.
      repeat match goal with |- _ /\ _ => split end; try lia.
      * eapply owner_ok_insert; [exact Hl | auto | exact Ho].
      * destruct (phase_of _); simpl in *; intuition lia.
      * intros j th' Hj. destruct (decide (i = j)) as [<-|Hne].
        -- rewrite list_lookup_insert_eq in Hj by (eapply lookup_lt_Some; eauto).
           injection Hj as <-. exact (Hseen i _ Hl).
        -- rewrite list_lookup_insert_ne in Hj by exact Hne. exact (Hseen j th' Hj).
Qed.

(** The boarding-gate invariant holds in every state an execution reaches. *)
Lemma gate_inv_reachable tr s : exec boot tr s -> gate_inv s.
Proof.
  induction 1 as [|tr s a e s' _ IH Hstep];
    eauto using gate_inv_boot, gate_inv_step.
Qed.

(* ===================================================================== *)
(** ** Reading executions *)

Lemma exec_snoc_inv s0 tr e s' :
  exec s0 (tr ++ [e]) s' ->
  exists s a, exec s0 tr s /\ do_step a s = Some (e, s').
Proof.
  intros H. inversion H as [Hnil | tr1 s a e1 s1 Hex Hstep Heq].
  - destruct tr; discriminate.
  - apply app_inj_tail in Heq as [-> ->]. eauto.
Qed.

Lemma exec_app s0 tr0 s1 tr1 s2 :
  exec s0 tr0 s1 -> exec s1 tr1 s2 -> exec s0 (tr0 ++ tr1) s2.
Proof.
  intros H0 H1. induction H1 as [|tr s a e s' _ IH Hstep].
  - now rewrite app_nil_r.
  - rewrite app_assoc. eapply exec_step; eauto.
Qed.

Lemma exec_app_inv s0 tr0 tr1 s2 :
  exec s0 (tr0 ++ tr1) s2 -> exists s1, exec s0 tr0 s1 /\ exec s1 tr1 s2.
Proof.
  revert s2. induction tr1 as [|e tr1 IH] using rev_ind; intros s2 H.
  - rewrite app_nil_r in H. exists s2. split; [exact H | constructor].
  - rewrite app_assoc in H. apply exec_snoc_inv in H as (s & a & Hex & Hstep).
    destruct (IH _ Hex) as (s1 & H0 & H1).
    exists s1. split; [exact H0 | eapply exec_step; eauto].
Qed.

Lemma exec_one s a e s' : do_step a s = Some (e, s') -> exec s [e] s'.
Proof. intros H. apply (exec_step s [] s a e s'); [constructor | exact H]. Qed.

(** A schedule that runs gives an execution. *)
Lemma run_exec sched s tr s' : run sched s = Some (tr, s') -> exec s tr s'.
Proof.
  revert s tr s'. induction sched as [|a rest IH]; intros s tr s' H; simpl in H.
  - injection H as <- <-. constructor.
  - destruct (do_step a s) as [[e s1]|] eqn:Hstep; [|discriminate]. simpl in H.
    destruct (run rest s1) as [[tr1 s2]|] eqn:Hrun; [|discriminate]. simpl in H.
    injection H as <- <-.
    change (e :: tr1) with ([e] ++ tr1).
    eapply exec_app; [eapply exec_one; eauto | eauto].
Qed.

Lemma do_step_cases a s e s' :
  do_step a s = Some (e, s') -> exited s = false /\ step_case s e s'.
Proof.
  unfold do_step. destruct (exited s); [discriminate|]. intros Hstep.
  split; [reflexivity|].
  destruct a as [d | t env | t].
  - destruct (0 <=? d) eqn:Hd; [|discriminate]. injection Hstep as <- <-.
    apply sc_tick. lia.
  - destruct (env <? 0) eqn:Henv; [discriminate|].
    assert (0 <= env) by lia. destruct t as [| |i]; unfold by_thread in Hstep.
    + destruct (main_thread env s) as [[o s1]|] eqn:Hm; [|discriminate].
      injection Hstep as <- <-. eapply sc_main; eauto.
    + destruct (runnable _) eqn:Hr; [|discriminate].
      destruct (ferry_thread s) as [[o s1]|] eqn:Hm; [|discriminate].
      injection Hstep as <- <-. eapply sc_ferry; eauto.
    + destruct (cars s !! i) as [th|] eqn:Hl; [|discriminate]. simpl in Hstep.
      destruct (runnable _) eqn:Hr; [|discriminate].
      destruct (car_thread i th env s) as [[o s1]|] eqn:Hm; [|discriminate].
      injection Hstep as <- <-. eapply sc_car; eauto.
  - destruct t as [| |i]; [discriminate| |].
    + destruct (killable _ _) eqn:Hk; [|discriminate]. injection Hstep as <- <-.
      apply sc_kill_ferry. exact Hk.
    + destruct (cars s !! i) as [th|] eqn:Hl; [|discriminate]. simpl in Hstep.
      destruct (killable _ _) eqn:Hk; [|discriminate]. injection Hstep as <- <-.
      eapply sc_kill_car; eauto.
Qed.

Lemma count_ev_app p tr1 tr2 :
  count_ev p (tr1 ++ tr2) = (count_ev p tr1 + count_ev p tr2)%nat.
Proof. induction tr1 as [|e tr1 IH]; simpl; [reflexivity | rewrite IH; lia]. Qed.

Lemma count_ev_snoc p tr e :
  count_ev p (tr ++ [e]) = (count_ev p tr + if p e then 1 else 0)%nat.
Proof. rewrite count_ev_app. simpl. lia. Qed.

Lemma proj_app t tr1 tr2 : proj t (tr1 ++ tr2) = proj t tr1 ++ proj t tr2.
Proof.
  induction tr1 as [|[u o|d|u] tr1 IH]; simpl; auto.
  destruct (decide (u = t)); simpl; congruence.
Qed.

Lemma last_touch_snoc acc tr e :
  last_touch acc (tr ++ [e]) = if touches e then Some e else last_touch acc tr.
Proof.
  revert acc. induction tr as [|x tr IH]; intros acc; simpl; [reflexivity|].
  apply IH.
Qed.

(* ===================================================================== *)
(** ** Signals and counter updates per ferry cycle *)

Lemma cycle_inv_ferry tr s o s' :
  gate_inv s -> cycle_inv tr s -> ferry_thread s = Some (o, s') ->
  cycle_inv (tr ++ [Ev TFerry o]) s'.
Proof.
  intros Hinv Hcyc Hstep.
  destruct s as [t B F U E m n mpc [fst fpc] cs out].
  unfold gate_inv in Hinv; simpl in Hinv.
  unfold cycle_inv in Hcyc; simpl in Hcyc.
  unfold ferry_thread, emit in Hstep; simpl in Hstep.
  destruct fpc as [| | | | | | | | | | |[|]]; simpl in Hstep; split_step Hstep;
    injection Hstep as <- <-; unfold cycle_inv; rewrite !count_ev_snoc;
    simpl; simpl in Hinv, Hcyc.
  all: unfold FERRY_CAPACITY in *.
  all: intuition lia.
Qed.

Lemma cycle_inv_car tr s i th env o s' :
  gate_inv s -> cycle_inv tr s -> cars s !! i = Some th ->
  car_thread i th env s = Some (o, s') ->
  cycle_inv (tr ++ [Ev (TCar i) o]) s'.
Proof.
  intros Hinv Hcyc Hl Hstep.
  destruct s as [t B F U E m n mpc [fst fpc] cs out].
  destruct th as [st pc].
  unfold gate_inv in Hinv; simpl in Hinv, Hl.
  destruct Hinv as (Hlen & Ha & Hh & Ho & Hp & Hseen).
  pose proof (Hseen i _ Hl) as Hmine. clear Hseen.
  unfold cycle_inv in Hcyc; simpl in Hcyc.
  pose proof (locked_bound m) as Hlk.
  unfold car_thread, emit in Hstep; simpl in Hstep.
  destruct pc; simpl in Hstep, Hmine; try (rewrite Hmine in *; clear Hmine);
    split_step Hstep;
    injection Hstep as <- <-; unfold cycle_inv; rewrite !count_ev_snoc; simpl.
  all: pose proof (cnt_insert permit_taken cs i _ (mkThread st C_check) Hl);
       pose proof (cnt_insert aboard cs i _ (mkThread st C_check) Hl);
       pose proof (cnt_insert leaving cs i _ (mkThread st C_check) Hl);
       pose proof (cnt_insert just_in cs i _ (mkThread st C_check) Hl);
       pose proof (cnt_insert just_out cs i _ (mkThread st C_check) Hl);
       pose proof (cnt_bound aboard cs aboard_le_1); simpl in *.
  all: rewrite ?Z.eqb_eq, ?Z.eqb_neq in *.
  all: try (rewrite wrap_int_small
              by (unfold FERRY_CAPACITY in *; destruct (phase_of fpc); lia)).
  all: unfold FERRY_CAPACITY in *.
  all: destruct (phase_of fpc); simpl in *; intuition lia.
Qed.

Lemma main_thread_frame env s o s' :
  main_thread env s = Some (o, s') ->
  main_op o = true
  /\ now s' = now s
  /\ sem_board s' = sem_board s /\ sem_full s' = sem_full s
  /\ sem_unboard s' = sem_unboard s /\ sem_empty s' = sem_empty s
  /\ car_count_mutex s' = car_count_mutex s
  /\ cars_on_board s' = cars_on_board s
  /\ th_pc (ferry s') = th_pc (ferry s)
  /\ stdout s' = stdout s.
Proof.
  intros Hstep. destruct s as [t B F U E m n mpc [fst fpc] cs out].
  unfold main_thread in Hstep; simpl in Hstep.
  destruct mpc; simpl in Hstep; split_step Hstep;
    injection Hstep as <- <-; simpl; rewrite ?cancel_requested_pc;
    repeat split; reflexivity.
Qed.

Lemma cycle_inv_main tr s env o s' :
  cycle_inv tr s -> main_thread env s = Some (o, s') ->
  cycle_inv (tr ++ [Ev TMain o]) s'.
Proof.
  intros Hcyc Hstep.
  destruct (main_thread_frame _ _ _ _ Hstep)
    as (Hop & _ & _ & HF & _ & HE & _ & Hn & Hpc & _).
  unfold cycle_inv in *. rewrite !count_ev_snoc, Hpc, HF, HE, Hn.
  destruct o; try discriminate Hop; simpl; rewrite !Nat.add_0_r; exact Hcyc.
Qed.

Lemma cycle_inv_step tr s e s' :
  gate_inv s -> cycle_inv tr s -> step_case s e s' -> cycle_inv (tr ++ [e]) s'.
Proof.
  intros Hinv Hcyc Hc.
  destruct Hc as [d Hd | env o s' Henv Hm | o s' Hr Hf | i th env o s' Henv Hl Hr Hcar
                 | Hk | i th Hl Hk].
  - unfold cycle_inv in *. rewrite !count_ev_snoc. simpl.
    rewrite !Nat.add_0_r. exact Hcyc.
  - eauto using cycle_inv_main.
  - eauto using cycle_inv_ferry.
  - eauto using cycle_inv_car.
  - unfold cycle_inv in *. rewrite !count_ev_snoc. simpl.
    rewrite !Nat.add_0_r. exact Hcyc.
  - unfold cycle_inv in *. rewrite !count_ev_snoc. simpl.
    rewrite !Nat.add_0_r. exact Hcyc.
Qed.

Lemma cycle_inv_reachable tr s : exec boot tr s -> cycle_inv tr s.
Proof.
  induction 1 as [|tr s a e s' Hex IH Hstep].
  - unfold cycle_inv, boot, FERRY_CAPACITY. simpl. lia.
  - apply do_step_cases in Hstep as [_ Hc].
    eauto using cycle_inv_step, gate_inv_reachable.
Qed.

(* ===================================================================== *)
(** ** The test after an update sees the value that update wrote *)

(** A car inside a critical section owns the mutex. *)
Lemma holder_owns s i th :
  gate_inv s -> cars s !! i = Some th -> holding (th_pc th) = 1%nat ->
  car_count_mutex s = Some (TCar i).
Proof.
  intros (_ & _ & Hh & Ho & _) Hl Hhold.
  pose proof (cnt_insert holding _ i th (mkThread Running C_check) Hl) as H1.
  simpl in H1.
  destruct (car_count_mutex s) as [[| |j]|]; simpl in *; try tauto; try lia.
  destruct (decide (i = j)) as [->|Hne]; [reflexivity|].
  destruct (cars s !! j) as [b|] eqn:Hj; [|tauto].
  pose proof (holding_two _ i j th b Hne Hl Hj). lia.
Qed.

Lemma ferry_thread_frame s o s' :
  ferry_thread s = Some (o, s') ->
  cars s' = cars s /\ cars_on_board s' = cars_on_board s
  /\ car_count_mutex s' = car_count_mutex s /\ now s' = now s
  /\ main_at s' = main_at s
  /\ touches (Ev TFerry o) = false.
Proof.
  intros Hstep. destruct s as [t B F U E m n mpc [fst fpc] cs out].
  unfold ferry_thread, emit in Hstep; simpl in Hstep.
  destruct fpc; simpl in Hstep; split_step Hstep;
    injection Hstep as <- <-; simpl; repeat split; reflexivity.
Qed.

Lemma main_thread_cars env s o s' j th' :
  main_thread env s = Some (o, s') -> cars s' !! j = Some th' ->
  exists th, cars s !! j = Some th /\ th_pc th = th_pc th'.
Proof.
  intros Hstep. destruct s as [t B F U E m n mpc [fst fpc] cs out].
  unfold main_thread in Hstep; simpl in Hstep.
  destruct mpc; simpl in Hstep; split_step Hstep;
    injection Hstep as <- <-; simpl; eauto.
  all: rewrite list_lookup_alter; case_decide; subst; eauto.
  all: destruct (cs !! _) as [th|]; simpl; [|discriminate].
  all: intros [= <-]; eexists; split; eauto using cancel_requested_pc.
Qed.

Lemma fresh_inv_car tr s i th env o s' :
  gate_inv s -> fresh_inv tr s -> cars s !! i = Some th ->
  car_thread i th env s = Some (o, s') ->
  fresh_inv (tr ++ [Ev (TCar i) o]) s'.
Proof.
  intros Hinv Hfr Hl Hstep j th' Hj. rewrite last_touch_snoc.
  pose proof (Hfr i th Hl) as Hself.
  assert (Hother : i <> j -> forall b, cars s !! j = Some b ->
            holding (th_pc th) = 1%nat -> holding (th_pc b) = 0%nat).
  { intros Hne b Hb Hh. pose proof (holding_two _ i j th b Hne Hl Hb).
    destruct Hinv as (_ & _ & Hc & _). pose proof (locked_bound (car_count_mutex s)).
    lia. }
  assert (Hfree : car_count_mutex s = None -> forall b, cars s !! j = Some b ->
            holding (th_pc b) = 0%nat).
  { intros Hm b Hb. destruct Hinv as (_ & _ & Hc & _). rewrite Hm in Hc.
    pose proof (cnt_insert holding _ j b (mkThread Running C_check) Hb).
    simpl in *. lia. }
  pose proof (fun b Hb => Hfr j b Hb) as Hprev.
  destruct s as [t B F U E m n mpc [fst fpc] cs out].
  destruct th as [st pc]. simpl in *.
  unfold car_thread, emit in Hstep; simpl in Hstep.
  destruct pc; simpl in Hstep; split_step Hstep;
    injection Hstep as <- <-; simpl in *.
  all: destruct (decide (i = j)) as [<-|Hne];
    [ rewrite list_lookup_insert_eq in Hj by (eapply lookup_lt_Some; eauto);
      injection Hj as <-; simpl; split; intros; try discriminate;
      try reflexivity; try tauto
    | rewrite list_lookup_insert_ne in Hj by exact Hne;
      try exact (Hprev _ Hj) ].
  all: first [ specialize (Hother Hne _ Hj eq_refl)
             | specialize (Hfree eq_refl _ Hj) ];
    pose proof (just_in_holding (th_pc th'));
    pose proof (just_out_holding (th_pc th'));
    split; intros; lia.
Qed.

Lemma fresh_inv_step tr s e s' :
  gate_inv s -> fresh_inv tr s -> step_case s e s' -> fresh_inv (tr ++ [e]) s'.
Proof.
  intros Hinv Hfr Hc.
  destruct Hc as [d Hd | env o s' Henv Hm | o s' Hr Hf | i th env o s' Henv Hl Hr Hcar
                 | Hk | i th Hl Hk]; try (eapply fresh_inv_car; eassumption).
  - intros j th' Hj. rewrite last_touch_snoc. simpl. exact (Hfr j th' Hj).
  - intros j th' Hj. rewrite last_touch_snoc.
    destruct (main_thread_cars _ _ _ _ _ _ Hm Hj) as (th & Hth & Hpc).
    destruct (main_thread_frame _ _ _ _ Hm) as (Hop & _ & _ & _ & _ & _ & _ & Hn & _).
    rewrite Hn, <- Hpc.
    destruct o; try discriminate Hop; simpl; exact (Hfr j th Hth).
  - intros j th' Hj. rewrite last_touch_snoc.
    destruct (ferry_thread_frame _ _ _ Hf) as (Hcs & Hn & _ & _ & _ & Hi).
    rewrite Hi, Hn. rewrite Hcs in Hj. exact (Hfr j th' Hj).
  - intros j th' Hj. rewrite last_touch_snoc. simpl. exact (Hfr j th' Hj).
  - intros j th' Hj. rewrite last_touch_snoc. simpl in *.
    destruct (decide (i = j)) as [<-|Hne].
    + rewrite list_lookup_insert_eq in Hj by (eapply lookup_lt_Some; eauto).
      injection Hj as <-. exact (Hfr i th Hl).
    + rewrite list_lookup_insert_ne in Hj by exact Hne. exact (Hfr j th' Hj).
Qed.

Lemma fresh_inv_reachable tr s : exec boot tr s -> fresh_inv tr s.
Proof.
  induction 1 as [|tr s a e s' Hex IH Hstep].
  - intros j th Hj. apply lookup_replicate_1 in Hj as [-> _]. simpl.
    split; discriminate.
  - apply do_step_cases in Hstep as [_ Hc].
    eauto using fresh_inv_step, gate_inv_reachable.
Qed.

(* ===================================================================== *)
(** ** Program order of a car's unboarding (lines 140-154) *)

Lemma proj_snoc_self t tr o : proj t (tr ++ [Ev t o]) = proj t tr ++ [o].
Proof. rewrite proj_app. simpl. destruct (decide (t = t)); [reflexivity | congruence]. Qed.

Lemma proj_snoc_other t u tr o : u <> t -> proj t (tr ++ [Ev u o]) = proj t tr.
Proof.
  intros Hne. rewrite proj_app. simpl.
  destruct (decide (u = t)); [congruence | apply app_nil_r].
Qed.

Lemma proj_snoc_elapse t tr d : proj t (tr ++ [Elapse d]) = proj t tr.
Proof. rewrite proj_app. simpl. apply app_nil_r. Qed.

Lemma proj_snoc_killed t tr u : proj t (tr ++ [Killed u]) = proj t tr.
Proof. rewrite proj_app. simpl. apply app_nil_r. Qed.

Lemma rem_range env m : 0 <= env -> 0 < m -> 0 <= Z.rem env m < m.
Proof. intros. apply Z.rem_bound_pos; lia. Qed.

Lemma car_hist_outside i pc n h :
  unboard_done pc = 0%nat -> car_hist_ok i pc n h.
Proof.
  intros H0. exists h, 5000, None, 0, 1, (ONoPost SemEmpty). rewrite H0. simpl.
  rewrite app_nil_r. repeat split; try lia.
  - intros seen ->. discriminate.
  - intros ->. discriminate.
  - intros ->. discriminate.
Qed.

Lemma hist_inv_car tr s i th env o s' :
  0 <= env -> gate_inv s -> hist_inv tr s -> cars s !! i = Some th ->
  car_thread i th env s = Some (o, s') ->
  hist_inv (tr ++ [Ev (TCar i) o]) s'.
Proof.
  intros Henv Hinv Hh Hl Hstep j th' Hj.
  assert (Hother : i <> j -> forall b, cars s !! j = Some b ->
            holding (th_pc th) = 1%nat -> holding (th_pc b) = 0%nat).
  { intros Hne b Hb Hhold. pose proof (holding_two _ i j th b Hne Hl Hb).
    destruct Hinv as (_ & _ & Hc & _). pose proof (locked_bound (car_count_mutex s)).
    lia. }
  pose proof (Hh i th Hl)
    as (pre & d & line & r & v & o0 & Heq & Hd & Hr & Hw & Hv & Ho).
  pose proof (fun b Hb => Hh j b Hb) as Hprev.
  pose proof (rem_range env 20000 Henv eq_refl) as Hrem.
  destruct s as [t B F U E m n mpc [fst fpc] cs out].
  destruct th as [st pc]. simpl in *.
  unfold car_thread, emit in Hstep; simpl in Hstep.
  destruct pc; simpl in Hstep; split_step Hstep;
    injection Hstep as <- <-; simpl in *.
  all: destruct (decide (i = j)) as [<-|Hne];
    [ rewrite list_lookup_insert_eq in Hj by (eapply lookup_lt_Some; eauto);
      injection Hj as <-; rewrite proj_snoc_self; simpl;
      try (apply car_hist_outside; reflexivity)
    | rewrite list_lookup_insert_ne in Hj by exact Hne;
      rewrite proj_snoc_other by congruence;
      try exact (Hprev _ Hj) ].
  all: try (specialize (Hother Hne _ Hj eq_refl);
            destruct (Hprev _ Hj)
              as (pre' & d' & line' & r' & v' & o' & ? & ? & ? & ? & ? & ?);
            exists pre', d', line', r', v', o';
            repeat split; auto; try lia;
            intros Hpc; rewrite Hpc in Hother; discriminate Hother).
  all: rewrite Heq; simpl.
  - exists (pre ++ take (unboard_done C_wait_unboard) (unboard_path i d line r v o0)),
      5000, None, 0, 1, (ONoPost SemEmpty).
    repeat split; try lia; try discriminate; try (simpl; intros; lia).
  - exists pre, (Z.rem env 20000 + 5000), line, r, v, o0.
    rewrite <- app_assoc.
    repeat split; try lia; try discriminate; try (simpl; intros; lia).
  - exists pre, d, line, r, v, o0.
    rewrite <- app_assoc.
    repeat split; try lia; try discriminate; try (simpl; intros; lia).
  - exists pre, d, (Some l), r, v, o0.
    rewrite <- app_assoc.
    repeat split; try lia; try discriminate; try (simpl; intros; lia).
  - exists pre, d, None, r, v, o0.
    rewrite <- app_assoc.
    repeat split; try lia; try discriminate; try (simpl; intros; lia).
  - exists pre, d, line, r, v, o0.
    rewrite <- app_assoc.
    repeat split; try lia; try discriminate; try (simpl; intros; lia).
  - exists pre, d, line, n, v, o0.
    rewrite <- app_assoc.
    repeat split; try lia; try discriminate; try (simpl; intros; lia).
    intros seen' [= <-]. reflexivity.
  - exists pre, d, line, r, (wrap_int (seen - 1)), o0.
    rewrite (Hr seen eq_refl).
    rewrite <- app_assoc.
    repeat split; try lia; try discriminate; try (simpl; intros; lia).
  - exists pre, d, line, r, v, (OSemPost SemEmpty).
    rewrite <- app_assoc.
    repeat split; try lia; try discriminate; try (simpl; intros; lia).
    intros _. left. split; [reflexivity|]. specialize (Hv eq_refl). lia.
  - exists pre, d, line, r, v, (ONoPost SemEmpty).
    rewrite <- app_assoc.
    repeat split; try lia; try discriminate; try (simpl; intros; lia).
    intros _. right. split; [reflexivity|]. specialize (Hv eq_refl). lia.
Qed.

Lemma hist_inv_step tr s e s' :
  gate_inv s -> hist_inv tr s -> step_case s e s' -> hist_inv (tr ++ [e]) s'.
Proof.
  intros Hinv Hh Hc.
  destruct Hc as [d Hd | env o s' Henv Hm | o s' Hr Hf | i th env o s' Henv Hl Hr Hcar
                 | Hk | i th Hl Hk]; try (eapply hist_inv_car; eassumption).
  - intros j th' Hj. rewrite proj_snoc_elapse. exact (Hh j th' Hj).
  - intros j th' Hj. rewrite proj_snoc_other by discriminate.
    destruct (main_thread_cars _ _ _ _ _ _ Hm Hj) as (th & Hth & Hpc).
    destruct (main_thread_frame _ _ _ _ Hm) as (_ & _ & _ & _ & _ & _ & _ & Hn & _).
    rewrite Hn, <- Hpc. exact (Hh j th Hth).
  - intros j th' Hj. rewrite proj_snoc_other by discriminate.
    destruct (ferry_thread_frame _ _ _ Hf) as (Hcs & Hn & _).
    rewrite Hn. rewrite Hcs in Hj. exact (Hh j th' Hj).
  - intros j th' Hj. rewrite proj_snoc_killed. exact (Hh j th' Hj).
  - intros j th' Hj. rewrite proj_snoc_killed. simpl in *.
    destruct (decide (i = j)) as [<-|Hne].
    + rewrite list_lookup_insert_eq in Hj by (eapply lookup_lt_Some; eauto).
      injection Hj as <-. exact (Hh i th Hl).
    + rewrite list_lookup_insert_ne in Hj by exact Hne. exact (Hh j th' Hj).
Qed.

Lemma hist_inv_reachable tr s : exec boot tr s -> hist_inv tr s.
Proof.
  induction 1 as [|tr s a e s' Hex IH Hstep].
  - intros j th Hj. apply lookup_replicate_1 in Hj as [-> _].
    apply car_hist_outside. reflexivity.
  - apply do_step_cases in Hstep as [_ Hc].
    eauto using hist_inv_step, gate_inv_reachable.
Qed.

(* ===================================================================== *)
(** ** Program order of the ferry's departure (lines 74-94) *)





(* ===================================================================== *)
(** ** Semaphore accounting: every return of sem_wait consumed a post *)

Lemma sem_inv_step tr s e s' :
  sem_inv tr s -> step_case s e s' -> sem_inv (tr ++ [e]) s' /\ roles_ok e.
Proof.
  intros Hs Hc.
  destruct Hc as [d Hd | env o s' Henv Hm | o s' Hr Hf | i th env o s' Henv Hl Hr Hcar
                 | Hk | i th Hl Hk].
  - split; [|exact I]. intros sx. rewrite !count_ev_snoc. specialize (Hs sx).
    destruct sx; simpl in *; lia.
  - destruct (main_thread_frame _ _ _ _ Hm) as (Hop & _ & HB & HF & HU & HE & _).
    split; [|destruct o; try discriminate Hop; exact I].
    intros sx. rewrite !count_ev_snoc. specialize (Hs sx).
    destruct o; try discriminate Hop; destruct sx; simpl in *; lia.
  - destruct s as [t B F U E m n mpc [fst fpc] cs out].
    unfold ferry_thread, emit in Hf; simpl in Hf.
    destruct fpc; simpl in Hf; split_step Hf; injection Hf as <- <-;
      (split; [|simpl; auto]); intros sx; rewrite !count_ev_snoc;
      specialize (Hs sx); destruct sx; simpl in *; lia.
  - destruct s as [t B F U E m n mpc fth cs out], th as [st pc].
    unfold car_thread, emit in Hcar; simpl in Hcar.
    destruct pc; simpl in Hcar; split_step Hcar; injection Hcar as <- <-;
      (split; [|simpl; eauto]); intros sx; rewrite !count_ev_snoc;
      specialize (Hs sx); destruct sx; simpl in *; lia.
  - split; [|exact I]. intros sx. rewrite !count_ev_snoc. specialize (Hs sx).
    destruct sx; simpl in *; lia.
  - split; [|exact I]. intros sx. rewrite !count_ev_snoc. specialize (Hs sx).
    destruct sx; simpl in *; lia.
Qed.

Lemma sem_inv_reachable tr s :
  exec boot tr s -> sem_inv tr s /\ Forall roles_ok tr.
Proof.
  induction 1 as [|tr s a e s' Hex [IH1 IH2] Hstep].
  - split; [|constructor]. intros sx. destruct sx; reflexivity.
  - apply do_step_cases in Hstep as [_ Hc].
    destruct (sem_inv_step _ _ _ _ IH1 Hc) as [H1 H2].
    split; [exact H1|]. apply Forall_app. split; [exact IH2|].
    constructor; [exact H2 | constructor].
Qed.

Lemma count_ev_pos p tr :
  (0 < count_ev p tr)%nat -> exists e, In e tr /\ p e = true.
Proof.
  induction tr as [|e tr IH]; simpl; [lia|].
  destruct (p e) eqn:Hp.
  - intros _. exists e. auto.
  - intros H. destruct IH as (e' & Hin & He'); [lia|]. exists e'. auto.
Qed.

(* ===================================================================== *)
(** ** What reaches stdout *)

Lemma car_id_pos i : 1 <= car_id i.
Proof. unfold car_id. lia. Qed.

Lemma stdout_step s e s' :
  Forall printed_ok (stdout s) -> step_case s e s' ->
  Forall printed_ok (stdout s').
Proof.
  intros Hs Hc.
  destruct Hc as [d Hd | env o s' Henv Hm | o s' Hr Hf | i th env o s' Henv Hl Hr Hcar
                 | Hk | i th Hl Hk]; try exact Hs.
  - destruct (main_thread_frame _ _ _ _ Hm) as (_ & _ & _ & _ & _ & _ & _ & _ & _ & Ho).
    rewrite Ho. exact Hs.
  - destruct s as [t B F U E m n mpc [fst fpc] cs out].
    unfold ferry_thread, emit in Hf; simpl in Hf.
    destruct fpc; simpl in Hf; split_step Hf; injection Hf as <- <-;
      simpl in *; try exact Hs.
    all: apply Forall_app; split; [exact Hs|]; constructor; [|constructor].
    all: eexists _, _, (-1); split; [|eassumption]; discriminate.
  - destruct s as [t B F U E m n mpc fth cs out], th as [st pc].
    unfold car_thread, emit in Hcar; simpl in Hcar.
    destruct pc; simpl in Hcar; split_step Hcar; injection Hcar as <- <-;
      simpl in *; try exact Hs.
    all: apply Forall_app; split; [exact Hs|]; constructor; [|constructor].
    all: eexists _, _, (car_id i); split; [|eassumption].
    all: pose proof (car_id_pos i); lia.
Qed.

Lemma stdout_reachable tr s : exec boot tr s -> Forall printed_ok (stdout s).
Proof.
  induction 1 as [|tr s a e s' Hex IH Hstep].
  - constructor.
  - apply do_step_cases in Hstep as [_ Hc]. eauto using stdout_step.
Qed.

(* ===================================================================== *)
(** ** [main]: thread creation, failure and exit *)

Lemma car_thread_frame i th env s o s' :
  car_thread i th env s = Some (o, s') ->
  main_at s' = main_at s /\ ferry s' = ferry s.
Proof.
  intros Hstep. destruct s as [t B F U E m n mpc fth cs out], th as [st pc].
  unfold car_thread, emit in Hstep; simpl in Hstep.
  destruct pc; simpl in Hstep; split_step Hstep; injection Hstep as <- <-;
    split; reflexivity.
Qed.





(* ===================================================================== *)
(** ** Reading single events back *)

Lemma exec_nil_inv s0 s : exec s0 [] s -> s = s0.
Proof.
  intros H. inversion H as [|tr s1 a e s2 _ _ Heq]; [reflexivity|].
  destruct tr; discriminate.
Qed.

(** The last step of an execution, by its shape. *)
Lemma exec_last s0 tr e s' :
  exec s0 (tr ++ [e]) s' -> exists s, exec s0 tr s /\ step_case s e s'.
Proof.
  intros H. apply exec_snoc_inv in H as (s & a & Hex & Hstep).
  apply do_step_cases in Hstep as [_ Hc]. eauto.
Qed.

Lemma ferry_event_inv s o s' :
  ferry_thread s = Some (o, s') ->
  match o with
  | OSemWait SemEmpty =>
      (th_pc (ferry s) = F_wait_empty /\ sem_empty s = S (sem_empty s'))
      /\ th_pc (ferry s') = F_check_top
  | OSemWait SemFull =>
      (th_pc (ferry s) = F_wait_full /\ sem_full s = S (sem_full s'))
      /\ th_pc (ferry s') = F_check_depart
  | OSleep d => th_pc (ferry s) = F_sleep /\ d = usec 3
  | OPrint message car_num line =>
      car_num = -1 /\ line = print_status (now s) message (-1)
      /\ (message = "leaves the dock"%string -> th_pc (ferry s) = F_print_leaves)
  | OSemPost x =>
      exists i, i < FERRY_CAPACITY
        /\ (x = SemBoard /\ th_pc (ferry s) = F_post_board i
            \/ x = SemUnboard /\ th_pc (ferry s) = F_post_unboard i)
  | OTimeCheck t stop =>
      t = now s /\ stop = time_is_up t
      /\ (stop = true -> exists b, th_pc (ferry s') = F_return b)
      /\ (th_pc (ferry s) = F_check_top \/ th_pc (ferry s) = F_check_depart)
  | _ => True
  end.
Proof.
  intros Hstep. destruct s as [t B F U E m n mpc [fst fpc] cs out].
  unfold ferry_thread, emit in Hstep; simpl in Hstep.
  destruct fpc; simpl in Hstep; split_step Hstep; injection Hstep as <- <-;
    simpl; unfold time_is_up in *; rewrite ?Heqo;
    repeat split; eauto; try discriminate; try lia;
    try (exists i; split; [lia | auto]).
Qed.

(** What a car's step says about where the car stood and what it saw. *)
Lemma car_step_inv i th env s o s' :
  car_thread i th env s = Some (o, s') ->
  match o with
  | OSemPost x =>
      car_count_mutex s' = car_count_mutex s
      /\ ((x = SemFull /\ th_pc th = C_check_full
           /\ cars_on_board s = FERRY_CAPACITY)
          \/ (x = SemEmpty /\ th_pc th = C_check_empty /\ cars_on_board s = 0))
  | ONoPost x =>
      car_count_mutex s' = car_count_mutex s
      /\ ((x = SemFull /\ th_pc th = C_check_full
           /\ cars_on_board s <> FERRY_CAPACITY)
          \/ (x = SemEmpty /\ th_pc th = C_check_empty /\ cars_on_board s <> 0))
  | OSemWait x =>
      (x = SemBoard /\ th_pc th = C_wait_board)
      \/ (x = SemUnboard /\ th_pc th = C_wait_unboard)
  | OIncr v => exists seen, th_pc th = C_incr_write seen /\ v = wrap_int (seen + 1)
  | ODecr v => exists seen, th_pc th = C_decr_write seen /\ v = wrap_int (seen - 1)
  | OPrint message car_num line =>
      car_num = car_id i /\ line = print_status (now s) message (car_id i)
  | OSleep d =>
      car_count_mutex s' = car_count_mutex s
      /\ ((th_pc th = C_usleep_board /\ d = Z.rem env 40000 + 10000)
          \/ (th_pc th = C_usleep_unboard /\ d = Z.rem env 20000 + 5000)
          \/ (th_pc th = C_usleep_return /\ d = Z.rem env 1000000 + 500000))
  | _ => True
  end.
Proof.
  intros Hstep. destruct s as [t B F U E m n mpc fth cs out], th as [st pc].
  unfold car_thread, emit in Hstep; simpl in Hstep.
  destruct pc; simpl in Hstep; split_step Hstep; injection Hstep as <- <-;
    simpl; rewrite ?Z.eqb_eq, ?Z.eqb_neq in *; rewrite ?Heqo; eauto 6.
Qed.

(* ===================================================================== *)
(** ** Schedules used as concrete runs *)

Lemma run_reaches sched : exec boot (trace_of sched) (final sched).
Proof.
  unfold trace_of, final.
  destruct (run sched boot) as [[tr s]|] eqn:Hrun.
  - eapply run_exec; eauto.
  - constructor.
Qed.

(* ===================================================================== *)
(** ** C1: the capacity invariant *)

(** C1.  In every state an execution of the simulation reaches, the shared
    counter satisfies 0 <= cars_on_board <= FERRY_CAPACITY: no interleaving
    of the cars' increments and decrements drives it out of this range. *)
Theorem capacity_invariant tr s :
  exec boot tr s -> 0 <= cars_on_board s <= FERRY_CAPACITY.
Proof.
  intros H. destruct (gate_inv_reachable _ _ H) as (Hlen & Ha & _).
  pose proof (cnt_bound aboard (cars s) aboard_le_1).
  unfold FERRY_CAPACITY in *. lia.
Qed.

(** The state after five cars have boarded: the counter is at its bound. *)
Lemma capacity_invariant_witness :
  exec boot (trace_of boarding_done) (final boarding_done)
  /\ cars_on_board (final boarding_done) = 5
  /\ 0 <= cars_on_board (final boarding_done) <= FERRY_CAPACITY.
Proof.
  split; [apply run_reaches|]. split; [vm_compute; reflexivity|].
  apply (capacity_invariant (trace_of boarding_done) (final boarding_done)).
  apply run_reaches.
Defined.

(* ===================================================================== *)
(** ** C3: no premature departure *)

(** C3.  Whenever the ferry stands between the return of sem_wait(sem_full)
    and its arrival at the other dock (in particular when it emits the
    departure event and during the transit pause), exactly FERRY_CAPACITY
    cars are aboard: it never crosses with cars_on_board < N. *)
Theorem no_premature_departure tr s :
  exec boot tr s -> full_to_arrival (th_pc (ferry s)) = true ->
  cars_on_board s = FERRY_CAPACITY.
Proof.
  intros H Hpc. destruct (gate_inv_reachable _ _ H) as (Hlen & Ha & _ & _ & Hp & _).
  pose proof (cnt_bound aboard (cars s) aboard_le_1).
  destruct (th_pc (ferry s)); try discriminate Hpc; simpl in Hp;
    unfold FERRY_CAPACITY in *; lia.
Qed.

(** The ferry inside sleep(3) of the first cycle. *)
Lemma no_premature_departure_witness :
  exec boot (trace_of crossing_started) (final crossing_started)
  /\ th_pc (ferry (final crossing_started)) = F_sleeping 3055000
  /\ cars_on_board (final crossing_started) = FERRY_CAPACITY.
Proof.
  split; [apply run_reaches|]. split; [vm_compute; reflexivity|].
  apply (no_premature_departure (trace_of crossing_started)).
  - apply run_reaches.
  - vm_compute. reflexivity.
Defined.

(* ===================================================================== *)
(** ** C4: what the mutex covers *)

(** C4, as stated, fails: car 1 owns the mutex while it is inside the
    usleep of line 127, a timed pause of 10 ms here. *)
Lemma pause_inside_mutex :
  exec boot (trace_of board_pause) (final board_pause)
  /\ car_count_mutex (final board_pause) = Some (TCar 0)
  /\ cars (final board_pause) !! 0%nat
     = Some (mkThread Running (C_sleeping_board 15000))
  /\ timed_pause (C_sleeping_board 15000) = true
  /\ last (trace_of board_pause) = Some (Ev (TCar 0) (OSleep 10000)).
Proof.
  split; [apply run_reaches|]. vm_compute. repeat split; reflexivity.
Qed.

(** C4, amended.  The owner of the mutex is always a car inside one of the
    two critical sections (lines 123-136: pause, increment, "entered"
    event, test against N and post; lines 147-154: decrement, test against
    0 and post); it never waits on a semaphore there, and the only timed
    pause under the mutex is the usleep of line 127, of 10 to 50 ms. *)
Theorem mutex_region :
  (forall tr s t,
      exec boot tr s -> car_count_mutex s = Some t ->
      exists i th,
        t = TCar i /\ cars s !! i = Some th
        /\ holding (th_pc th) = 1%nat
        /\ sem_waiting (th_pc th) = false
        /\ (timed_pause (th_pc th) = true ->
            th_pc th = C_usleep_board \/ exists w, th_pc th = C_sleeping_board w))
  /\ (forall tr s i d,
         exec boot (tr ++ [Ev (TCar i) (OSleep d)]) s ->
         car_count_mutex s = Some (TCar i) -> 10000 <= d < 50000).
Proof.
  assert (Hown : forall tr s t, exec boot tr s -> car_count_mutex s = Some t ->
            exists i th, t = TCar i /\ cars s !! i = Some th
                         /\ holding (th_pc th) = 1%nat).
  { intros tr s t H Hm.
    destruct (gate_inv_reachable _ _ H) as (_ & _ & _ & Ho & _).
    rewrite Hm in Ho. destruct t as [| |i]; simpl in Ho; try tauto.
    destruct (cars s !! i) as [th|] eqn:Hl; [|tauto]. eauto. }
  split.
  - intros tr s t H Hm. destruct (Hown _ _ _ H Hm) as (i & th & -> & Hl & Hh).
    exists i, th. repeat split; auto.
    + destruct (th_pc th); simpl in *; congruence.
    + destruct (th_pc th); simpl in *; try discriminate; eauto.
  - intros tr s i d H Hm. apply exec_last in H as (s0 & Hex & Hc).
    inversion Hc as [| | |i0 th env o s1 Henv Hl Hr Hcar| |]; subst.
    apply car_step_inv in Hcar as (Hmx & Hpc).
    rewrite Hmx in Hm.
    destruct (Hown _ _ _ Hex Hm) as (j & th' & Heq & Hl' & Hh).
    injection Heq as <-. rewrite Hl in Hl'. injection Hl' as <-.
    pose proof (rem_range env 40000 Henv eq_refl).
    destruct Hpc as [[Hpc ->]|[[Hpc ->]|[Hpc ->]]]; rewrite Hpc in Hh;
      simpl in Hh; try discriminate. lia.
Qed.

(** Car 1 inside the usleep of line 127, read through the amended claim. *)
Lemma mutex_region_witness :
  exists i th,
    TCar 0 = TCar i /\ cars (final board_pause) !! i = Some th
    /\ holding (th_pc th) = 1%nat
    /\ sem_waiting (th_pc th) = false
    /\ (timed_pause (th_pc th) = true ->
        th_pc th = C_usleep_board \/ exists w, th_pc th = C_sleeping_board w).
Proof.
  apply (proj1 mutex_region (trace_of board_pause) (final board_pause) (TCar 0)).
  - apply run_reaches.
  - vm_compute. reflexivity.
Defined.

(* ===================================================================== *)
(** ** Counting within one ferry cycle *)

Lemma boundary_state tr0 s0 :
  exec boot tr0 s0 -> cycle_boundary tr0 ->
  phase_of (th_pc (ferry s0)) = Boarding 0.
Proof.
  intros H [->|[pre ->]].
  - apply exec_nil_inv in H as ->. reflexivity.
  - apply exec_last in H as (s & _ & Hc).
    inversion Hc as [| |o s1 Hr Hf| | |]; subst.
    apply ferry_event_inv in Hf as [_ ->]. reflexivity.
Qed.

(** What has happened since the last cycle boundary, by the ferry's phase. *)
Lemma cycle_counts tr0 mid s :
  exec boot (tr0 ++ mid) s -> cycle_boundary tr0 ->
  count_ev cycle_end mid = 0%nat ->
  0 <= cars_on_board s <= FERRY_CAPACITY
  /\ match phase_of (th_pc (ferry s)) with
     | Boarding _ =>
         count_ev (is_post SemFull) mid = sem_full s
         /\ (sem_full s <= 1)%nat
         /\ count_ev (is_post SemEmpty) mid = 0%nat
         /\ Z.of_nat (count_ev is_incr mid) = cars_on_board s
         /\ count_ev is_decr mid = 0%nat
     | Unboarding _ =>
         count_ev (is_post SemFull) mid = 1%nat
         /\ count_ev (is_post SemEmpty) mid = sem_empty s
         /\ (sem_empty s <= 1)%nat
         /\ Z.of_nat (count_ev is_incr mid) = FERRY_CAPACITY
         /\ Z.of_nat (count_ev is_decr mid) = FERRY_CAPACITY - cars_on_board s
     end.
Proof.
  intros H Hb Hk.
  destruct (exec_app_inv _ _ _ _ H) as (s0 & H0 & _).
  pose proof (boundary_state _ _ H0 Hb) as Hph0.
  pose proof (gate_inv_reachable _ _ H0) as (_ & Ha0 & _ & _ & Hp0).
  pose proof (cycle_inv_reachable _ _ H0) as Hc0.
  pose proof (gate_inv_reachable _ _ H) as (Hlen & Ha & _ & _ & Hp & _).
  pose proof (cycle_inv_reachable _ _ H) as Hc.
  pose proof (cnt_bound aboard (cars s) aboard_le_1).
  unfold cycle_inv in Hc0, Hc. rewrite Hph0 in Hc0, Hp0.
  rewrite !count_ev_app, Hk in Hc.
  unfold FERRY_CAPACITY in *.
  split; [lia|].
  destruct (phase_of (th_pc (ferry s))); lia.
Qed.


(** The last step of an execution, when a car made it. *)
Lemma car_last_step tr i o s :
  exec boot (tr ++ [Ev (TCar i) o]) s ->
  exists s0 th env,
    exec boot tr s0 /\ cars s0 !! i = Some th /\ 0 <= env
    /\ car_thread i th env s0 = Some (o, s).
Proof.
  intros H. apply exec_last in H as (s0 & Hex & Hc).
  inversion Hc as [| | |i0 th env o0 s1 Henv Hl Hr Hcar| |]; subst.
  exists s0, th, env. auto.
Qed.

(* ===================================================================== *)
(** ** C2: one post of each signal per cycle *)



(* ===================================================================== *)
(** ** C5: round-trip conservation *)

(** C5.  Over one full ferry cycle (from a cycle boundary to the next
    return of the ferry's sem_wait(sem_empty)) the cars complete exactly
    FERRY_CAPACITY increments and exactly FERRY_CAPACITY decrements of
    cars_on_board; over a cycle cut short, at most FERRY_CAPACITY
    increments and no more decrements than increments. *)
Theorem round_trip_conservation :
  (forall tr0 mid s,
      exec boot (tr0 ++ mid ++ [Ev TFerry (OSemWait SemEmpty)]) s ->
      cycle_boundary tr0 -> count_ev cycle_end mid = 0%nat ->
      Z.of_nat (count_ev is_incr mid) = FERRY_CAPACITY
      /\ Z.of_nat (count_ev is_decr mid) = FERRY_CAPACITY)
  /\ (forall tr0 mid s,
         exec boot (tr0 ++ mid) s ->
         cycle_boundary tr0 -> count_ev cycle_end mid = 0%nat ->
         Z.of_nat (count_ev is_decr mid) <= Z.of_nat (count_ev is_incr mid)
         /\ Z.of_nat (count_ev is_incr mid) <= FERRY_CAPACITY).
Proof.
  split.
  - intros tr0 mid s H Hb Hk.
    rewrite app_assoc in H. apply exec_last in H as (s1 & Hex & Hc).
    pose proof (cycle_counts _ _ _ Hex Hb Hk) as (_ & Hcnt).
    pose proof (gate_inv_reachable _ _ Hex) as (_ & Ha & _ & _ & Hp & _).
    inversion Hc as [| |o s2 Hr Hf| | |]; subst.
    apply ferry_event_inv in Hf as ((Hpc & Hsem) & _).
    rewrite Hpc in Hcnt, Hp. simpl in Hcnt, Hp.
    unfold FERRY_CAPACITY in *. lia.
  - intros tr0 mid s H Hb Hk.
    pose proof (cycle_counts _ _ _ H Hb Hk) as (Hn & Hcnt).
    unfold FERRY_CAPACITY in *. destruct (phase_of _); lia.
Qed.

(** The first cycle of [full_cycle]: five increments, five decrements. *)
Lemma round_trip_conservation_witness :
  Z.of_nat (count_ev is_incr (removelast (trace_of full_cycle))) = FERRY_CAPACITY
  /\ Z.of_nat (count_ev is_decr (removelast (trace_of full_cycle)))
     = FERRY_CAPACITY.
Proof.
  apply (proj1 round_trip_conservation [] (removelast (trace_of full_cycle))
           (final full_cycle)).
  - assert (Heq : [] ++ removelast (trace_of full_cycle)
                     ++ [Ev TFerry (OSemWait SemEmpty)] = trace_of full_cycle)
      by (vm_compute; reflexivity).
    rewrite Heq. apply run_reaches.
  - left. reflexivity.
  - vm_compute. reflexivity.
Defined.

(* ===================================================================== *)
(** ** C7: order of a car's unboarding *)

(** C7.  Whenever a car decrements cars_on_board, its own preceding
    operations are, in this order: the return of sem_wait(sem_unboard), the
    5-25 ms pause, the "left the ferry" event, and only then the lock and,
    under it, the read of the counter; the value written is one less than
    the value read.  Whenever a car makes the test for an empty ferry, its
    preceding operation is that decrement, under the same lock; no write of
    any thread to the counter or the mutex lies in between, the car still
    owns the mutex, and it posts sem_empty exactly when the value its
    decrement wrote is 0. *)
Theorem unboard_order :
  (forall tr s i v,
      exec boot (tr ++ [Ev (TCar i) (ODecr v)]) s ->
      exists pre d line r,
        proj (TCar i) tr
        = pre ++ [OSemWait SemUnboard; OSleep d; OWake;
                  OPrint "left the ferry" (car_id i) line; OLock; ORead r]
        /\ 5000 <= d < 25000
        /\ v = wrap_int (r - 1))
  /\ (forall tr s i o,
         exec boot (tr ++ [Ev (TCar i) o]) s ->
         o = OSemPost SemEmpty \/ o = ONoPost SemEmpty ->
         exists pre d line r v,
           proj (TCar i) tr
           = pre ++ [OSemWait SemUnboard; OSleep d; OWake;
                     OPrint "left the ferry" (car_id i) line; OLock;
                     ORead r; ODecr v]
           /\ 5000 <= d < 25000
           /\ v = wrap_int (r - 1)
           /\ last_touch None tr = Some (Ev (TCar i) (ODecr v))
           /\ (o = OSemPost SemEmpty <-> v = 0)
           /\ car_count_mutex s = Some (TCar i)).
Proof.
  split.
  - intros tr s i v H.
    apply car_last_step in H as (s0 & th & env & Hex & Hl & _ & Hcar).
    apply car_step_inv in Hcar as (seen & Hpc & ->).
    destruct (hist_inv_reachable _ _ Hex i th Hl)
      as (pre & d & line & r & v0 & o0 & Heq & Hd & Hr & _).
    rewrite Hpc in Heq. rewrite (Hr seen Hpc) in Heq.
    exists pre, d, line, seen. auto.
  - intros tr s i o H Ho.
    apply car_last_step in H as (s0 & th & env & Hex & Hl & _ & Hcar).
    apply car_step_inv in Hcar.
    assert (Hcase : car_count_mutex s = car_count_mutex s0
                    /\ th_pc th = C_check_empty
                    /\ (o = OSemPost SemEmpty <-> cars_on_board s0 = 0)).
    { destruct Ho as [-> | ->]; destruct Hcar as (Hmx & [(Hx & _)|(_ & Hpc & Hn)]);
        try discriminate Hx; repeat split; auto; try discriminate; tauto. }
    destruct Hcase as (Hmx & Hpc & Hiff).
    destruct (hist_inv_reachable _ _ Hex i th Hl)
      as (pre & d & line & r & v & o0 & Heq & Hd & _ & Hw & Hv & _).
    rewrite Hpc in Heq, Hw. specialize (Hv Hpc). subst v.
    destruct (fresh_inv_reachable _ _ Hex i th Hl) as [_ Hout].
    exists pre, d, line, r, (cars_on_board s0).
    split; [exact Heq|]. split; [exact Hd|].
    split; [apply Hw; simpl; lia|].
    split; [apply Hout; rewrite Hpc; reflexivity|].
    split; [exact Hiff|].
    rewrite Hmx. eapply holder_owns; eauto using gate_inv_reachable.
    rewrite Hpc. reflexivity.
Qed.

Lemma unboard_order_witness :
  exists pre d line r v,
    proj (TCar 0) (removelast (trace_of first_unboard))
    = pre ++ [OSemWait SemUnboard; OSleep d; OWake;
              OPrint "left the ferry" (car_id 0) line; OLock; ORead r; ODecr v]
    /\ 5000 <= d < 25000
    /\ v = wrap_int (r - 1)
    /\ last_touch None (removelast (trace_of first_unboard))
       = Some (Ev (TCar 0) (ODecr v))
    /\ (ONoPost SemEmpty = OSemPost SemEmpty <-> v = 0)
    /\ car_count_mutex (final first_unboard) = Some (TCar 0).
Proof.
  apply (proj2 unboard_order (removelast (trace_of first_unboard))
           (final first_unboard) 0%nat (ONoPost SemEmpty)).
  - assert (Heq : removelast (trace_of first_unboard)
                     ++ [Ev (TCar 0) (ONoPost SemEmpty)] = trace_of first_unboard)
      by (vm_compute; reflexivity).
    rewrite Heq. apply run_reaches.
  - right. reflexivity.
Defined.

(* ===================================================================== *)
(** ** C8: the ferry's time checks *)

(** The last step of an execution, when the ferry made it. *)
Lemma ferry_last_step tr o s :
  exec boot (tr ++ [Ev TFerry o]) s ->
  exists s0, exec boot tr s0 /\ ferry_thread s0 = Some (o, s).
Proof.
  intros H. apply exec_last in H as (s0 & Hex & Hc).
  inversion Hc as [| |o0 s1 Hr Hf| | |]; subst. eauto.
Qed.




(* ===================================================================== *)
(** ** C9: the semaphores start at 0 *)

(** C9.  All four semaphores are opened with value 0, and the simulation
    starts with all four at 0; hence whenever a car's
    sem_wait(sem_board) returns, the ferry has posted sem_board before, and
    whenever the ferry's sem_wait(sem_full) returns, some car has posted
    sem_full before. *)
Theorem semaphores_start_at_zero :
  (forall env h v,
      main_setup env = SetupDone h ->
      h_board h = Some v \/ h_full h = Some v
      \/ h_unboard h = Some v \/ h_empty h = Some v ->
      v = 0%nat)
  /\ (exists h, main_setup all_open = SetupDone h /\ boot_state h = Some boot)
  /\ (forall x, sem_value x boot = 0%nat)
  /\ (forall tr s i,
         exec boot (tr ++ [Ev (TCar i) (OSemWait SemBoard)]) s ->
         In (Ev TFerry (OSemPost SemBoard)) tr)
  /\ (forall tr s,
         exec boot (tr ++ [Ev TFerry (OSemWait SemFull)]) s ->
         exists i, In (Ev (TCar i) (OSemPost SemFull)) tr).
Proof.
  split; [|split; [|split; [|split]]].
  - intros [[] [] [] []] h v Hs Hv; simpl in Hs; try discriminate Hs;
      injection Hs as <-; simpl in Hv;
      repeat (destruct Hv as [Hv|Hv]); congruence.
  - eexists. split; reflexivity.
  - intros []; reflexivity.
  - intros tr s i H.
    destruct (sem_inv_reachable _ _ H) as [Hs Hr].
    specialize (Hs SemBoard). rewrite !count_ev_snoc in Hs. simpl in Hs.
    destruct (count_ev_pos (is_post SemBoard) tr) as (e & Hin & He); [lia|].
    apply Forall_app in Hr as [Hr _]. rewrite Forall_forall in Hr.
    specialize (Hr e). rewrite list_elem_of_In in Hr. specialize (Hr Hin).
    destruct e as [t [] | |]; try discriminate He.
    destruct x; try discriminate He. simpl in Hr. subst t. exact Hin.
  - intros tr s H.
    destruct (sem_inv_reachable _ _ H) as [Hs Hr].
    specialize (Hs SemFull). rewrite !count_ev_snoc in Hs. simpl in Hs.
    destruct (count_ev_pos (is_post SemFull) tr) as (e & Hin & He); [lia|].
    apply Forall_app in Hr as [Hr _]. rewrite Forall_forall in Hr.
    specialize (Hr e). rewrite list_elem_of_In in Hr. specialize (Hr Hin).
    destruct e as [t [] | |]; try discriminate He.
    destruct x; try discriminate He. simpl in Hr. destruct Hr as [i ->].
    exists i. exact Hin.
Qed.

Lemma semaphores_start_at_zero_witness :
  exists i, In (Ev (TCar i) (OSemPost SemFull))
              (removelast (trace_of full_received)).
Proof.
  apply (proj2 (proj2 (proj2 (proj2 semaphores_start_at_zero)))
           (removelast (trace_of full_received)) (final full_received)).
  assert (Heq : removelast (trace_of full_received)
                   ++ [Ev TFerry (OSemWait SemFull)] = trace_of full_received)
    by (vm_compute; reflexivity).
  rewrite Heq. apply run_reaches.
Defined.

(* ===================================================================== *)
(** ** C10: the logger's filter *)

Lemma print_status_Some t message car_num l :
  print_status t message car_num = Some l ->
  (car_num = -1 \/ car_num = -99 -> l = FerryLine t message)
  /\ (car_num <> -1 -> car_num <> -99 -> l = CarLine t car_num message)
  /\ (car_num <> -99 -> t <= usec PROGRAM_RUNTIME).
Proof.
  unfold print_status.
  destruct (usec PROGRAM_RUNTIME <? t) eqn:Ht;
    destruct (car_num =? -99) eqn:H99; destruct (car_num =? -1) eqn:H1;
    simpl; intros Heq; try discriminate Heq; injection Heq as <-;
    repeat split; intros; try reflexivity; lia.
Qed.

(** C10.  A call of print_status after the run time with an id other than
    -99 prints nothing; a call with id -99 always prints; whatever is
    printed is in the Ferry format for ids -1 and -99 and in the Car format,
    with the id, for every other id, and carries the clock value of the
    call; and no line the simulation prints carries a clock value past
    the run time. *)
Theorem print_status_filter :
  (forall t message car_num,
      usec PROGRAM_RUNTIME < t -> car_num <> -99 ->
      print_status t message car_num = None)
  /\ (forall t message, print_status t message (-99) = Some (FerryLine t message))
  /\ (forall t message car_num,
         t <= usec PROGRAM_RUNTIME -> print_status t message car_num <> None)
  /\ (forall t message car_num l,
         print_status t message car_num = Some l ->
         (car_num = -1 \/ car_num = -99 -> l = FerryLine t message)
         /\ (car_num <> -1 -> car_num <> -99 -> l = CarLine t car_num message))
  /\ (forall tr s l,
         exec boot tr s -> In l (stdout s) ->
         line_clock l <= usec PROGRAM_RUNTIME).
Proof.
  split; [|split; [|split; [|split]]].
  - intros t message car_num Ht Hn. unfold print_status.
    destruct (usec PROGRAM_RUNTIME <? t) eqn:Hlt; [|lia].
    destruct (car_num =? -99) eqn:H99; [lia | reflexivity].
  - intros t message. unfold print_status.
    destruct (usec PROGRAM_RUNTIME <? t); reflexivity.
  - intros t message car_num Ht. unfold print_status.
    destruct (usec PROGRAM_RUNTIME <? t) eqn:Hlt; [lia|]. simpl.
    destruct (_ || _); discriminate.
  - intros t message car_num l H.
    destruct (print_status_Some _ _ _ _ H) as (H1 & H2 & _). auto.
  - intros tr s l H Hin.
    pose proof (stdout_reachable _ _ H) as Hall. rewrite Forall_forall in Hall.
    destruct (Hall l) as (t & message & car_num & Hn & Hp).
    { apply list_elem_of_In. exact Hin. }
    destruct (print_status_Some _ _ _ _ Hp) as (_ & H2 & H3).
    specialize (H3 Hn).
    destruct (Z.eq_dec car_num (-1)) as [->|Hne].
    + destruct (print_status_Some _ _ _ _ Hp) as (H1 & _).
      rewrite H1 by auto. exact H3.
    + rewrite H2 by auto. exact H3.
Qed.

(** The departure call of [late_departure], at 60.000001 s, prints
    nothing; the departure line of [crossing_started] is within the run
    time. *)
Lemma print_status_filter_witness :
  print_status 60000001 "leaves the dock" (-1) = None
  /\ line_clock (FerryLine 55000 "leaves the dock") <= usec PROGRAM_RUNTIME.
Proof.
  split.
  - apply (proj1 print_status_filter); [vm_compute; reflexivity | discriminate].
  - assert (Hin : In (FerryLine 55000 "leaves the dock")
                    (stdout (final crossing_started)))
      by (vm_compute; tauto).
    exact (proj2 (proj2 (proj2 (proj2 print_status_filter)))
             (trace_of crossing_started) (final crossing_started)
             (FerryLine 55000 "leaves the dock")
             (run_reaches crossing_started) Hin).
Defined.

(* ===================================================================== *)
(** ** C6: exit codes *)




(* ##################################################################### *)
(** * Further properties of the code *)

(* ===================================================================== *)
(** ** Mutual exclusion, semaphore bounds and the two phases *)

(** X1.  Mutual exclusion: in every reachable state at most one car stands
    between a pthread_mutex_lock and its pthread_mutex_unlock (lines
    123-136 and 147-154), and that car is the owner of the mutex. *)
Theorem mutual_exclusion tr s i j a b :
  exec boot tr s -> cars s !! i = Some a -> cars s !! j = Some b ->
  holding (th_pc a) = 1%nat -> holding (th_pc b) = 1%nat ->
  i = j /\ car_count_mutex s = Some (TCar i).
Proof.
  intros H Hi Hj Ha Hb. pose proof (gate_inv_reachable _ _ H) as Hinv.
  pose proof (holder_owns _ _ _ Hinv Hi Ha) as Hoi.
  pose proof (holder_owns _ _ _ Hinv Hj Hb) as Hoj.
  split; [congruence | exact Hoi].
Qed.

Lemma mutual_exclusion_witness :
  0%nat = 0%nat /\ car_count_mutex (final board_pause) = Some (TCar 0).
Proof.
  apply (mutual_exclusion (trace_of board_pause) (final board_pause) 0 0
           (mkThread Running (C_sleeping_board 15000))
           (mkThread Running (C_sleeping_board 15000))).
  - apply run_reaches.
  - vm_compute. reflexivity.
  - vm_compute. reflexivity.
  - reflexivity.
  - reflexivity.
Defined.

(** X2.  The semaphores stay small: sem_board and sem_unboard never hold
    more than FERRY_CAPACITY permits, sem_full and sem_empty never more
    than one signal. *)
Theorem semaphore_bounds tr s :
  exec boot tr s ->
  Z.of_nat (sem_board s) <= FERRY_CAPACITY
  /\ Z.of_nat (sem_unboard s) <= FERRY_CAPACITY
  /\ (sem_full s <= 1)%nat /\ (sem_empty s <= 1)%nat.
Proof.
  intros H. destruct (gate_inv_reachable _ _ H) as (Hlen & Ha & _ & _ & Hp & _).
  pose proof (cnt_bound aboard (cars s) aboard_le_1).
  unfold FERRY_CAPACITY in *.
  destruct (phase_of _); lia.
Qed.

Lemma semaphore_bounds_witness :
  sem_board (final permits_open) = 5%nat
  /\ (Z.of_nat (sem_board (final permits_open)) <= FERRY_CAPACITY
      /\ Z.of_nat (sem_unboard (final permits_open)) <= FERRY_CAPACITY
      /\ (sem_full (final permits_open) <= 1)%nat
      /\ (sem_empty (final permits_open) <= 1)%nat).
Proof.
  split; [vm_compute; reflexivity|].
  apply (semaphore_bounds (trace_of permits_open)). apply run_reaches.
Defined.

(** X3.  Boarding and unboarding never overlap.  In every reachable state
    either no unboard permit exists (sem_unboard and sem_empty are 0, no car
    is between sem_wait(sem_unboard) and its test for an empty ferry), or no
    board permit exists (sem_board and sem_full are 0, no car is between
    sem_wait(sem_board) and its test for a full ferry). *)
Theorem phases_exclusive tr s :
  exec boot tr s ->
  (sem_unboard s = 0%nat /\ sem_empty s = 0%nat
   /\ forall i th, cars s !! i = Some th ->
        leaving (th_pc th) = 0%nat /\ just_out (th_pc th) = 0%nat)
  \/ (sem_board s = 0%nat /\ sem_full s = 0%nat
      /\ forall i th, cars s !! i = Some th ->
           permit_taken (th_pc th) = 0%nat /\ just_in (th_pc th) = 0%nat).
Proof.
  intros H. destruct (gate_inv_reachable _ _ H) as (_ & _ & _ & _ & Hp & _).
  destruct (phase_of _); [left|right]; repeat split; try tauto.
  all: eapply cnt_none; [|eassumption]; tauto.
Qed.

Lemma phases_exclusive_witness :
  cars (final board_pause) !! 0%nat = Some (mkThread Running (C_sleeping_board 15000))
  /\ ((sem_unboard (final board_pause) = 0%nat
       /\ sem_empty (final board_pause) = 0%nat
       /\ forall i th, cars (final board_pause) !! i = Some th ->
            leaving (th_pc th) = 0%nat /\ just_out (th_pc th) = 0%nat)
      \/ (sem_board (final board_pause) = 0%nat
          /\ sem_full (final board_pause) = 0%nat
          /\ forall i th, cars (final board_pause) !! i = Some th ->
               permit_taken (th_pc th) = 0%nat /\ just_in (th_pc th) = 0%nat)).
Proof.
  split; [vm_compute; reflexivity|].
  apply (phases_exclusive (trace_of board_pause)). apply run_reaches.
Defined.

(** X4.  While the ferry stands between the return of sem_wait(sem_full) and
    the announcement of its arrival, every car thread is aboard and idle: it
    is about to unlock after boarding (line 136) or waits in
    sem_wait(sem_unboard) (line 140). *)
Theorem all_aboard_during_crossing tr s i th :
  exec boot tr s -> full_to_arrival (th_pc (ferry s)) = true ->
  cars s !! i = Some th ->
  th_pc th = C_unlock_board \/ th_pc th = C_wait_unboard.
Proof.
  intros H Hpc Hl.
  destruct (gate_inv_reachable _ _ H) as (Hlen & Ha & _ & _ & Hp & _).
  pose proof (cnt_bound aboard (cars s) aboard_le_1) as Hb.
  assert (Hph : phase_of (th_pc (ferry s)) = Unboarding 0)
    by (destruct (th_pc (ferry s)); try discriminate Hpc; reflexivity).
  rewrite Hph in Hp. unfold FERRY_CAPACITY in *.
  assert (Hall : cnt aboard (cars s) = length (cars s)) by lia.
  pose proof (cnt_all aboard _ _ _ aboard_le_1 Hall Hl) as H1.
  assert (H2 : leaving (th_pc th) = 0%nat) by (eapply cnt_none; [|eassumption]; lia).
  assert (H3 : just_in (th_pc th) = 0%nat) by (eapply cnt_none; [|eassumption]; lia).
  destruct (th_pc th); simpl in *; try discriminate; auto.
Qed.

Lemma all_aboard_during_crossing_witness :
  th_pc (ferry (final crossing_started)) = F_sleeping 3055000
  /\ (th_pc (mkThread Running C_wait_unboard) = C_unlock_board
      \/ th_pc (mkThread Running C_wait_unboard) = C_wait_unboard).
Proof.
  split; [vm_compute; reflexivity|].
  apply (all_aboard_during_crossing (trace_of crossing_started)
           (final crossing_started) 0).
  - apply run_reaches.
  - vm_compute. reflexivity.
  - vm_compute. reflexivity.
Defined.

(* ===================================================================== *)
(** ** Threads are created in order *)

Lemma car_thread_slot i th env s o s' :
  car_thread i th env s = Some (o, s') ->
  exists th',
    cars s' = <[i := th']> (cars s)
    /\ (th_status th' = th_status th
        \/ th_status th' = Returned /\ th_pc th = C_return /\ th_pc th' = C_return)
    /\ now s' = now s
    /\ (th_pc th' = C_return ->
        th_pc th = C_return \/ usec PROGRAM_RUNTIME <= now s).
Proof.
  intros Hstep. destruct s as [t B F U E m n mpc fth cs out], th as [st pc].
  unfold car_thread, emit in Hstep; simpl in Hstep.
  destruct pc; simpl in Hstep; split_step Hstep; injection Hstep as <- <-;
    simpl; eexists; (split; [reflexivity|]); simpl;
    repeat split; auto; try discriminate.
  unfold time_is_up in *. intros _. right. lia.
Qed.

Lemma ferry_thread_slot s o s' :
  ferry_thread s = Some (o, s') ->
  (th_status (ferry s') = th_status (ferry s)
   \/ th_status (ferry s') = Returned
      /\ (exists b, th_pc (ferry s) = F_return b) /\ th_pc (ferry s') = th_pc (ferry s))
  /\ ((exists b, th_pc (ferry s') = F_return b) ->
      (exists b, th_pc (ferry s) = F_return b) \/ usec PROGRAM_RUNTIME <= now s).
Proof.
  intros Hstep. destruct s as [t B F U E m n mpc [fst fpc] cs out].
  unfold ferry_thread, emit in Hstep; simpl in Hstep.
  destruct fpc; simpl in Hstep; split_step Hstep; injection Hstep as <- <-;
    simpl; split; eauto; try (intros [b Hb]; discriminate Hb).
  all: unfold time_is_up in *; intros _; try (right; lia).
Qed.

Lemma runnable_created st : runnable st = true -> st <> NotCreated.
Proof. destruct st; simpl; congruence. Qed.

Lemma killable_pending {PC} (point : PC -> bool) th :
  killable point th = true -> th_status th = CancelPending.
Proof. unfold killable. destruct (th_status th); try discriminate. reflexivity. Qed.

(** Replacing a created thread's slot by a created thread. *)
Lemma cars_created_insert k (l : list (thread car_pc)) i th th' :
  l !! i = Some th ->
  th_status th <> NotCreated -> th_status th' <> NotCreated ->
  cars_created k l -> cars_created k (<[i := th']> l).
Proof.
  intros Hl Hth Hth' Hc j b Hj.
  destruct (decide (i = j)) as [<-|Hne].
  - rewrite list_lookup_insert_eq in Hj by (eapply lookup_lt_Some; eauto).
    injection Hj as <-. pose proof (Hc i th Hl). tauto.
  - rewrite list_lookup_insert_ne in Hj by exact Hne. auto.
Qed.

Lemma cars_created_alter k g i (l : list (thread car_pc)) :
  (forall th, th_status (g th) = NotCreated <-> th_status th = NotCreated) ->
  cars_created k l -> cars_created k (alter g i l).
Proof.
  intros Hg Hc j b Hj. rewrite list_lookup_alter in Hj.
  case_decide; [subst|auto].
  destruct (l !! j) as [th|] eqn:Hl; simpl in Hj; [|discriminate].
  injection Hj as <-. rewrite Hg. auto.
Qed.

Lemma cancel_requested_created {PC} (th : thread PC) :
  th_status (cancel_requested th) = NotCreated <-> th_status th = NotCreated.
Proof.
  unfold cancel_requested.
  destruct (th_status th) eqn:H; simpl; rewrite ?H; split; congruence.
Qed.

Lemma cars_created_start k (l : list (thread car_pc)) :
  cars_created k l -> cars_created (S k) (alter started k l).
Proof.
  intros Hc j b Hj. rewrite list_lookup_alter in Hj.
  case_decide.
  - subst. destruct (l !! j) as [th|] eqn:Hl; simpl in Hj; [|discriminate].
    injection Hj as <-. simpl. split; [discriminate | lia].
  - specialize (Hc j b Hj). split; intros.
    + assert (k <= j)%nat by tauto. lia.
    + apply Hc. lia.
Qed.

Lemma create_inv_main s env o s' :
  create_inv s -> main_thread env s = Some (o, s') -> create_inv s'.
Proof.
  intros [(k & Hk & Hf) Hpc] Hstep.
  destruct s as [t B F U E m n mpc [fst fpc] cs out].
  unfold main_thread in Hstep; simpl in *.
  destruct mpc; simpl in Hstep; split_step Hstep; injection Hstep as <- <-;
    unfold create_inv; simpl.
  all: try (split; [exists k; split; [exact Hk | exact Hf] | try exact I]).
  all: rewrite ?Z.ltb_lt, ?Z.ltb_ge in *.
  all: unfold FERRY_CAPACITY in *.
  - (* the ferry is created *)
    destruct Hpc as [Hfn Hc0].
    split; [exists 0%nat; split; [exact Hc0 | reflexivity]|].
    repeat split; try lia; try discriminate; apply Hc0; auto.
  - (* usleep before a car *)
    repeat split; try lia; try tauto; apply Hpc; auto.
  - exact Hpc.
  - (* a car is created *)
    destruct Hpc as (Hi & Hfc & Hc).
    assert (Hw : wrap_int (i + 1) = i + 1) by (apply wrap_int_small; lia).
    rewrite Hw. replace (Z.to_nat (i + 1)) with (S (Z.to_nat i)) by lia.
    pose proof (cars_created_start _ _ Hc) as Hnew.
    split; [eexists; split; [exact Hnew | intros; contradiction]|].
    repeat split; try lia; auto; apply Hnew; auto.
  - (* the ferry is cancelled *)
    split; [|exact I]. exists k. split; [exact Hk|].
    intros H. apply Hf. exact (proj1 (cancel_requested_created _) H).
  - (* a car is cancelled *)
    split; [|exact I]. exists k. split; [|exact Hf].
    apply cars_created_alter; [|exact Hk].
    intros th. apply cancel_requested_created.
Qed.

Lemma create_inv_step s e s' :
  create_inv s -> step_case s e s' -> create_inv s'.
Proof.
  intros Hinv Hc.
  destruct Hc as [d Hd | env o s' Henv Hm | o s' Hr Hf | i th env o s' Henv Hl Hr Hcar
                 | Hk | i th Hl Hk].
  - exact Hinv.
  - eauto using create_inv_main.
  - destruct (ferry_thread_frame _ _ _ Hf) as (Hcs & _ & _ & _ & Hmain & _).
    destruct (ferry_thread_slot _ _ _ Hf) as [Hst _].
    apply runnable_created in Hr.
    assert (Hnc : th_status (ferry s') <> NotCreated)
      by (destruct Hst as [-> | [-> _]]; [exact Hr | discriminate]).
    destruct Hinv as [(k & Hk & Hf0) Hpc]. unfold create_inv.
    rewrite Hmain, Hcs. split; [exists k; split; [exact Hk | tauto]|].
    destruct (main_at s); try exact I; tauto.
  - destruct (car_thread_frame _ _ _ _ _ _ Hcar) as (Hmain & Hfe).
    destruct (car_thread_slot _ _ _ _ _ _ Hcar) as (th' & Hcs & Hst & _).
    apply runnable_created in Hr.
    assert (Hnc : th_status th' <> NotCreated)
      by (destruct Hst as [-> | [-> _]]; [exact Hr | discriminate]).
    pose proof (fun k => cars_created_insert k _ _ _ th' Hl Hr Hnc) as Hins.
    destruct Hinv as [(k & Hk & Hf0) Hpc]. unfold create_inv.
    rewrite Hmain, Hfe, Hcs. split; [exists k; split; [auto | exact Hf0]|].
    destruct (main_at s); try exact I; intuition auto.
  - destruct Hinv as [(k & Hk0 & Hf0) Hpc]. unfold create_inv. simpl.
    apply killable_pending in Hk.
    split; [exists k; split; [exact Hk0 | discriminate]|].
    destruct (main_at s); try exact I; try (rewrite Hk in Hpc; intuition discriminate).
    all: intuition discriminate.
  - destruct Hinv as [(k & Hk0 & Hf0) Hpc]. unfold create_inv. simpl.
    apply killable_pending in Hk.
    assert (Hr : th_status th <> NotCreated) by (rewrite Hk; discriminate).
    assert (Hnc : th_status (mkThread Cancelled (th_pc th)) <> NotCreated) by discriminate.
    pose proof (fun k => cars_created_insert k _ _ _ _ Hl Hr Hnc) as Hins.
    split; [exists k; split; [auto | exact Hf0]|].
    destruct (main_at s); try exact I; intuition auto.
Qed.

Lemma create_inv_reachable tr s : exec boot tr s -> create_inv s.
Proof.
  induction 1 as [|tr s a e s' Hex IH Hstep].
  - assert (H0 : cars_created 0 (cars boot)).
    { intros j th Hj. apply lookup_replicate_1 in Hj as [-> _]. simpl.
      split; [lia | reflexivity]. }
    split; [exists 0%nat; split; [exact H0 | reflexivity]|].
    simpl. split; [reflexivity | exact H0].
  - apply do_step_cases in Hstep as [_ Hc]. eauto using create_inv_step.
Qed.

(** X5.  Threads are created in order: whenever the thread in slot j of
    car_threads exists, the ferry thread and the threads in all slots below
    j exist too (lines 188-201). *)
Theorem creation_order tr s j th :
  exec boot tr s -> cars s !! j = Some th -> th_status th <> NotCreated ->
  th_status (ferry s) <> NotCreated
  /\ forall i th', (i < j)%nat -> cars s !! i = Some th' ->
       th_status th' <> NotCreated.
Proof.
  intros H Hj Hth.
  destruct (create_inv_reachable _ _ H) as [(k & Hk & Hf) _].
  assert (Hlt : (j < k)%nat).
  { destruct (Nat.lt_ge_cases j k) as [|Hge]; [assumption|].
    apply (Hk j th Hj) in Hge. contradiction. }
  split.
  - intros Hn. apply Hf in Hn. lia.
  - intros i th' Hi Hl Hn. apply (Hk i th' Hl) in Hn. lia.
Qed.

Lemma creation_order_witness :
  th_status (ferry (final board_pause)) <> NotCreated
  /\ forall i th', (i < 4)%nat -> cars (final board_pause) !! i = Some th' ->
       th_status th' <> NotCreated.
Proof.
  apply (creation_order (trace_of board_pause) (final board_pause) 4
           (mkThread Running C_check)).
  - apply run_reaches.
  - vm_compute. reflexivity.
  - discriminate.
Defined.

(* ===================================================================== *)
(** ** [main] cleans up after every thread has terminated *)

Lemma cancel_requested_terminated {PC} (th : thread PC) :
  terminated (th_status th) = true ->
  terminated (th_status (cancel_requested th)) = true.
Proof.
  unfold cancel_requested. destruct (th_status th) eqn:H; simpl; rewrite ?H; auto.
Qed.

Lemma runnable_not_terminated st : runnable st = true -> terminated st = false.
Proof. destruct st; simpl; congruence. Qed.

Lemma joined_upto_frame i s s' :
  (terminated (th_status (ferry s)) = true ->
   terminated (th_status (ferry s')) = true) ->
  (forall j th', cars s' !! j = Some th' ->
     exists th, cars s !! j = Some th
       /\ (terminated (th_status th) = true -> terminated (th_status th') = true)) ->
  joined_upto i s -> joined_upto i s'.
Proof.
  intros Hf Hc [H1 H2]. split; [auto|].
  intros j th' Hj Hlt. destruct (Hc j th' Hj) as (th & Hl & Himp). eauto.
Qed.

Lemma join_inv_frame s s' :
  main_at s' = main_at s ->
  (terminated (th_status (ferry s)) = true ->
   terminated (th_status (ferry s')) = true) ->
  (forall j th', cars s' !! j = Some th' ->
     exists th, cars s !! j = Some th
       /\ (terminated (th_status th) = true -> terminated (th_status th') = true)) ->
  join_inv s -> join_inv s'.
Proof.
  intros Hm Hf Hc. unfold join_inv. rewrite Hm.
  pose proof (fun i => joined_upto_frame i s s' Hf Hc).
  destruct (main_at s); intuition auto.
Qed.

Lemma insert_frame (l : list (thread car_pc)) i th th' (P : status -> status -> Prop) :
  l !! i = Some th -> P (th_status th) (th_status th') ->
  (forall st, P st st) ->
  forall j b', <[i := th']> l !! j = Some b' ->
    exists b, l !! j = Some b /\ P (th_status b) (th_status b').
Proof.
  intros Hl HP Hrefl j b' Hj. destruct (decide (i = j)) as [<-|Hne].
  - rewrite list_lookup_insert_eq in Hj by (eapply lookup_lt_Some; eauto).
    injection Hj as <-. eauto.
  - rewrite list_lookup_insert_ne in Hj by exact Hne. eauto.
Qed.

Lemma join_inv_main s env o s' :
  join_inv s -> main_thread env s = Some (o, s') -> join_inv s'.
Proof.
  intros Hinv Hstep.
  destruct s as [t B F U E m n mpc [fst fpc] cs out].
  unfold main_thread in Hstep; unfold join_inv, joined_upto in Hinv; simpl in *.
  destruct mpc; simpl in Hstep; split_step Hstep; injection Hstep as <- <-;
    unfold join_inv, joined_upto; simpl; try exact I; try exact Hinv.
  all: rewrite ?Z.ltb_lt, ?Z.ltb_ge in *; unfold FERRY_CAPACITY, EXIT_FAILURE in *.
  - (* the ferry is joined *)
    repeat split; try lia; auto.
  - (* a car is cancelled *)
    destruct Hinv as (Hi & Hf & Hc). repeat split; try lia; auto.
    intros j th' Hj Hlt. rewrite list_lookup_alter in Hj. case_decide; [subst|eauto].
    destruct (cs !! _) as [th|] eqn:Hl; simpl in Hj; [|discriminate].
    injection Hj as <-. apply cancel_requested_terminated. eauto.
  - (* the loop over the cars is left *)
    destruct Hinv as (Hi & Hf & Hc). split; [exact Hf|].
    intros j th Hj Hlt. apply (Hc j th Hj). lia.
  - (* a car is joined *)
    destruct Hinv as (Hi & Hf & Hc).
    rewrite wrap_int_small by lia. repeat split; try lia; auto.
    intros j th Hj Hlt. destruct (decide (Z.of_nat j = i)) as [Heq|Hne].
    + assert (Hji : Z.to_nat i = j) by lia. rewrite Hji in *. congruence.
    + apply (Hc j th Hj). lia.
  - intros _. exact Hinv.
  - intros; discriminate.
Qed.

Lemma join_inv_step s e s' :
  join_inv s -> step_case s e s' -> join_inv s'.
Proof.
  intros Hinv Hc.
  destruct Hc as [d Hd | env o s' Henv Hm | o s' Hr Hf | i th env o s' Henv Hl Hr Hcar
                 | Hk | i th Hl Hk].
  - exact Hinv.
  - eauto using join_inv_main.
  - destruct (ferry_thread_frame _ _ _ Hf) as (Hcs & _ & _ & _ & Hmain & _).
    apply runnable_not_terminated in Hr.
    apply (join_inv_frame s); auto; [congruence|].
    intros j th' Hj. rewrite Hcs in Hj. eauto.
  - destruct (car_thread_frame _ _ _ _ _ _ Hcar) as (Hmain & Hfe).
    destruct (car_thread_slot _ _ _ _ _ _ Hcar) as (th' & Hcs & _).
    apply runnable_not_terminated in Hr.
    apply (join_inv_frame s); auto; [congruence|]. rewrite Hcs.
    apply (insert_frame _ _ th th'
             (fun a b => terminated a = true -> terminated b = true)); auto.
    congruence.
  - apply (join_inv_frame s); auto. simpl. eauto.
  - apply (join_inv_frame s); auto. simpl.
    apply (insert_frame _ _ th _
             (fun a b => terminated a = true -> terminated b = true)); auto.
Qed.

Lemma join_inv_reachable tr s : exec boot tr s -> join_inv s.
Proof.
  induction 1 as [|tr s a e s' Hex IH Hstep].
  - exact I.
  - apply do_step_cases in Hstep as [_ Hc]. eauto using join_inv_step.
Qed.

(** X6.  When [main] runs its cleanup (lines 226-230), and when the
    process has returned 0, the ferry thread and all five car threads have
    terminated: nothing uses the mutex or the semaphores any more. *)
Theorem cleanup_after_join :
  (forall tr s,
      exec boot (tr ++ [Ev TMain OCleanup]) s ->
      terminated (th_status (ferry s)) = true
      /\ Forall (fun th => terminated (th_status th) = true) (cars s))
  /\ (forall tr s,
         exec boot tr s -> main_at s = M_exited 0 ->
         terminated (th_status (ferry s)) = true
         /\ Forall (fun th => terminated (th_status th) = true) (cars s)).
Proof.
  assert (Hall : forall tr s, exec boot tr s -> joined_upto FERRY_CAPACITY s ->
            terminated (th_status (ferry s)) = true
            /\ Forall (fun th => terminated (th_status th) = true) (cars s)).
  { intros tr s H [Hf Hc]. split; [exact Hf|].
    destruct (gate_inv_reachable _ _ H) as (Hlen & _).
    apply Forall_lookup. intros j th Hj. apply (Hc j th Hj).
    apply lookup_lt_Some in Hj. unfold FERRY_CAPACITY in *. lia. }
  split.
  - intros tr s H. apply (Hall _ _ H).
    pose proof (join_inv_reachable _ _ H) as Hinv.
    apply exec_last in H as (s0 & Hex & Hc).
    inversion Hc as [|env o s1 Henv Hm| | | |]; subst.
    assert (Hat : main_at s = M_return).
    { destruct s0 as [t0 B F U E m n mpc fth cs out].
      unfold main_thread in Hm; simpl in Hm.
      destruct mpc; simpl in Hm; split_step Hm; try discriminate Hm.
      injection Hm as <-. reflexivity. }
    unfold join_inv in Hinv. rewrite Hat in Hinv. exact Hinv.
  - intros tr s H Hat. apply (Hall _ _ H).
    pose proof (join_inv_reachable _ _ H) as Hinv.
    unfold join_inv in Hinv. rewrite Hat in Hinv. auto.
Qed.

Lemma cleanup_after_join_witness :
  terminated (th_status (ferry (final whole_run))) = true
  /\ Forall (fun th => terminated (th_status th) = true) (cars (final whole_run)).
Proof.
  apply (proj2 cleanup_after_join (trace_of whole_run)).
  - apply run_reaches.
  - vm_compute. reflexivity.
Defined.

(* ===================================================================== *)
(** ** The run lasts the run time *)

Lemma thread_time_ok_later {PC} (f : PC -> bool) t t' th :
  t <= t' -> thread_time_ok f t th -> thread_time_ok f t' th.
Proof. intros Hle (H1 & H2 & H3). repeat split; intros; auto; [specialize (H1 ltac:(auto))|specialize (H2 ltac:(auto))]; lia. Qed.

Lemma thread_time_ok_started {PC} (f : PC -> bool) t th :
  thread_time_ok f t th -> thread_time_ok f t (started th).
Proof.
  intros (H1 & H2 & H3). repeat split; simpl; auto; try discriminate.
  intros [|]; discriminate.
Qed.

Lemma thread_time_ok_cancel {PC} (f : PC -> bool) t th :
  earliest_wake <= t -> thread_time_ok f t th ->
  thread_time_ok f t (cancel_requested th).
Proof.
  intros Hle (H1 & H2 & H3). unfold cancel_requested.
  destruct (th_status th) eqn:Hst; repeat split; simpl; rewrite ?Hst; auto;
    discriminate.
Qed.

Lemma thread_time_ok_killed {PC} (f : PC -> bool) t th :
  th_status th = CancelPending -> thread_time_ok f t th ->
  thread_time_ok f t (mkThread Cancelled (th_pc th)).
Proof.
  intros Hst (H1 & H2 & H3). repeat split; simpl; auto; discriminate.
Qed.

Lemma Forall_alter_same {A} (P : A -> Prop) g i (l : list A) :
  (forall x, P x -> P (g x)) -> Forall P l -> Forall P (alter g i l).
Proof.
  intros Hg Hl. apply Forall_lookup. intros j y Hj.
  rewrite list_lookup_alter in Hj. rewrite Forall_lookup in Hl.
  case_decide; [subst|eauto].
  destruct (l !! j) as [x|] eqn:Hx; simpl in Hj; [|discriminate].
  injection Hj as <-. eauto.
Qed.

Lemma time_inv_main s env o s' :
  0 <= env -> time_inv s -> main_thread env s = Some (o, s') -> time_inv s'.
Proof.
  intros Henv (H0 & Hpc & Hf & Hc) Hstep.
  pose proof (rem_range env 999000 Henv eq_refl) as Hrem.
  destruct s as [t B F U E m n mpc [fst fpc] cs out].
  unfold main_thread in Hstep; simpl in *.
  destruct mpc; simpl in Hstep; split_step Hstep; injection Hstep as <- <-;
    unfold time_inv; simpl.
  all: rewrite ?Z.ltb_lt, ?Z.ltb_ge, ?Z.leb_le in *.
  all: unfold woken in *; simpl in *; rewrite ?Z.leb_le in *.
  all: unfold earliest_wake, FERRY_CAPACITY, MIN_SPAWN_PAUSE, usec,
         PROGRAM_RUNTIME, EXIT_FAILURE in *.
  all: try rewrite wrap_int_small by lia.
  all: repeat match goal with |- _ /\ _ => split end; auto; try lia; try exact I.
  - apply thread_time_ok_started. exact Hf.
  - apply Forall_alter_same; [|exact Hc]. apply thread_time_ok_started.
  - apply thread_time_ok_cancel; [|exact Hf].
    unfold earliest_wake, FERRY_CAPACITY, MIN_SPAWN_PAUSE, usec, PROGRAM_RUNTIME. lia.
  - apply Forall_alter_same; [|exact Hc]. intros th.
    apply thread_time_ok_cancel.
    unfold earliest_wake, FERRY_CAPACITY, MIN_SPAWN_PAUSE, usec, PROGRAM_RUNTIME. lia.
Qed.

Lemma time_inv_step s e s' :
  time_inv s -> step_case s e s' -> time_inv s'.
Proof.
  intros Hinv Hc.
  destruct Hc as [d Hd | env o s' Henv Hm | o s' Hr Hf | i th env o s' Henv Hl Hr Hcar
                 | Hk | i th Hl Hk].
  - destruct Hinv as (H0 & Hpc & Hf & Hc). unfold time_inv. simpl.
    assert (Hle : now s <= now s + d) by lia.
    split; [lia|]. split; [|split].
    + destruct (main_at s); intuition lia.
    + eapply thread_time_ok_later; eauto.
    + eapply Forall_impl; [exact Hc|]. intros th. apply thread_time_ok_later. exact Hle.
  - eauto using time_inv_main.
  - destruct (ferry_thread_frame _ _ _ Hf) as (Hcs & _ & _ & Hnow & Hmain & _).
    destruct (ferry_thread_slot _ _ _ Hf) as [Hst Hret].
    destruct Hinv as (H0 & Hpc & (F1 & F2 & F3) & Hc). unfold time_inv.
    rewrite Hmain, Hcs, Hnow. repeat split; auto.
    + intros Hs. apply F1. destruct Hst as [<- | [Hst _]]; [exact Hs|].
      rewrite Hst in Hs. destruct Hs; discriminate.
    + intros Hs.
      assert (Hb : exists b, th_pc (ferry s') = F_return b)
        by (destruct (th_pc (ferry s')); try discriminate Hs; eauto).
      destruct (Hret Hb) as [[b Hb0]|]; [|assumption].
      apply F2. rewrite Hb0. reflexivity.
    + intros Hs. destruct Hst as [Hst | (_ & [b Hb] & Hpc')].
      * rewrite Hst in Hs. specialize (F3 Hs).
        apply runnable_not_terminated in Hr. rewrite Hs in Hr. discriminate.
      * rewrite Hpc', Hb. reflexivity.
  - destruct (car_thread_frame _ _ _ _ _ _ Hcar) as (Hmain & Hfe).
    destruct (car_thread_slot _ _ _ _ _ _ Hcar) as (th' & Hcs & Hst & Hnow & Hret).
    destruct Hinv as (H0 & Hpc & Hf & Hc). unfold time_inv.
    rewrite Hmain, Hfe, Hcs, Hnow. repeat split; auto; try apply Hf.
    apply Forall_insert; [exact Hc|].
    rewrite Forall_lookup in Hc. destruct (Hc i th Hl) as (C1 & C2 & C3).
    repeat split.
    + intros Hs. apply C1. destruct Hst as [<- | [Hst _]]; [exact Hs|].
      rewrite Hst in Hs. destruct Hs; discriminate.
    + intros Hs.
      assert (Hb : th_pc th' = C_return)
        by (destruct (th_pc th'); try discriminate Hs; reflexivity).
      destruct (Hret Hb) as [Hb0|]; [|assumption].
      apply C2. rewrite Hb0. reflexivity.
    + intros Hs. destruct Hst as [Hst | (_ & _ & Hpc')].
      * rewrite Hst in Hs.
        apply runnable_not_terminated in Hr. rewrite Hs in Hr. discriminate.
      * rewrite Hpc'. reflexivity.
  - destruct Hinv as (H0 & Hpc & (F1 & F2 & F3) & Hc). unfold time_inv. simpl.
    split; [exact H0|]. split; [exact Hpc|]. split; [|exact Hc].
    split; [|split; [exact F2 | discriminate]].
    intros _. apply F1. left. eapply killable_pending; eauto.
  - destruct Hinv as (H0 & Hpc & Hf & Hc). unfold time_inv. simpl.
    repeat split; auto; try apply Hf.
    apply Forall_insert; [exact Hc|].
    rewrite Forall_lookup in Hc.
    apply thread_time_ok_killed; [eapply killable_pending; eauto | eauto].
Qed.

Lemma time_inv_reachable tr s : exec boot tr s -> time_inv s.
Proof.
  induction 1 as [|tr s a e s' Hex IH Hstep].
  - split; [simpl; lia|]. split; [exact I|]. split.
    + repeat split; simpl; try discriminate. intros [|]; discriminate.
    + apply Forall_lookup. intros j th Hj.
      apply lookup_replicate_1 in Hj as [-> _].
      repeat split; simpl; try discriminate. intros [|]; discriminate.
  - apply do_step_cases in Hstep as [_ Hc]. eauto using time_inv_step.
Qed.

(** X7.  [main] calls pthread_cancel only after its five pauses before the
    cars (at least 1 ms each) and sleep(PROGRAM_RUNTIME): no thread is
    cancelled, and the process does not return 0, before 60.005 s. *)
Theorem run_lasts_the_runtime :
  (forall tr s t,
      exec boot (tr ++ [Ev TMain (OCancel t)]) s -> earliest_wake <= now s)
  /\ (forall tr s,
         exec boot tr s -> main_at s = M_exited 0 -> earliest_wake <= now s).
Proof.
  split.
  - intros tr s t H.
    apply exec_last in H as (s0 & Hex & Hc).
    destruct (time_inv_reachable _ _ Hex) as (_ & Hpc & _).
    inversion Hc as [|env o s1 Henv Hm| | | |]; subst.
    destruct (main_thread_frame _ _ _ _ Hm) as (_ & Hnow & _). rewrite Hnow.
    destruct s0 as [t0 B F U E m n mpc fth cs out].
    unfold main_thread in Hm; simpl in *.
    destruct mpc; simpl in Hm; split_step Hm; try discriminate Hm; exact Hpc.
  - intros tr s H Hat.
    destruct (time_inv_reachable _ _ H) as (_ & Hpc & _).
    rewrite Hat in Hpc. auto.
Qed.

Lemma run_lasts_the_runtime_witness :
  now (final whole_run) = 63080000 /\ earliest_wake <= now (final whole_run).
Proof.
  split; [vm_compute; reflexivity|].
  apply (proj2 run_lasts_the_runtime (trace_of whole_run)).
  - apply run_reaches.
  - vm_compute. reflexivity.
Defined.

(** X8.  No thread ends before the run time has elapsed: a ferry or car
    thread that has returned or was cancelled did so at a time >=
    PROGRAM_RUNTIME. *)
Theorem no_thread_ends_early tr s :
  exec boot tr s ->
  (terminated (th_status (ferry s)) = true -> usec PROGRAM_RUNTIME <= now s)
  /\ (forall i th, cars s !! i = Some th ->
        terminated (th_status th) = true -> usec PROGRAM_RUNTIME <= now s).
Proof.
  intros H. destruct (time_inv_reachable _ _ H) as (_ & _ & Hf & Hc).
  assert (Hgen : forall PC (f : PC -> bool) (th : thread PC),
            thread_time_ok f (now s) th -> terminated (th_status th) = true ->
            usec PROGRAM_RUNTIME <= now s).
  { intros PC f th (H1 & H2 & H3) Ht.
    destruct (th_status th) eqn:Hst; try discriminate Ht.
    - specialize (H1 (or_intror eq_refl)).
      unfold earliest_wake, FERRY_CAPACITY, MIN_SPAWN_PAUSE in H1. lia.
    - auto. }
  split; [eauto|].
  intros i th Hl. rewrite Forall_lookup in Hc. eauto.
Qed.

Lemma no_thread_ends_early_witness :
  th_status (ferry (final whole_run)) = Returned
  /\ usec PROGRAM_RUNTIME <= now (final whole_run).
Proof.
  split; [vm_compute; reflexivity|].
  apply (proj1 (no_thread_ends_early (trace_of whole_run) (final whole_run)
                  (run_reaches whole_run))).
  vm_compute. reflexivity.
Defined.

(* ===================================================================== *)
(** ** What stdout looks like *)

Lemma now_step s e s' : step_case s e s' -> now s <= now s'.
Proof.
  intros Hc.
  destruct Hc as [d Hd | env o s' Henv Hm | o s' Hr Hf | i th env o s' Henv Hl Hr Hcar
                 | Hk | i th Hl Hk]; simpl; try lia.
  - destruct (main_thread_frame _ _ _ _ Hm) as (_ & -> & _). lia.
  - destruct (ferry_thread_frame _ _ _ Hf) as (_ & _ & _ & -> & _). lia.
  - destruct (car_thread_slot _ _ _ _ _ _ Hcar) as (th' & _ & _ & -> & _). lia.
Qed.

(** What a step adds to stdout. *)
Lemma print_step s e s' :
  step_case s e s' ->
  stdout s' = stdout s
  \/ (exists m, (m = "arrives to new dock" \/ m = "leaves the dock")%string
        /\ stdout s' = stdout s ++ [FerryLine (now s) m])
  \/ (exists i th m o, e = Ev (TCar i) o /\ cars s !! i = Some th
        /\ (m = "entered the ferry" \/ m = "left the ferry")%string
        /\ stdout s' = stdout s ++ [CarLine (now s) (car_id i) m]).
Proof.
  intros Hc.
  destruct Hc as [d Hd | env o s' Henv Hm | o s' Hr Hf | i th env o s' Henv Hl Hr Hcar
                 | Hk | i th Hl Hk]; auto.
  - destruct (main_thread_frame _ _ _ _ Hm) as (_ & _ & _ & _ & _ & _ & _ & _ & _ & Ho).
    auto.
  - destruct s as [t B F U E m n mpc [fst fpc] cs out].
    unfold ferry_thread, emit in Hf; simpl in Hf.
    destruct fpc; simpl in Hf; split_step Hf; injection Hf as <- <-;
      simpl; auto.
    all: match goal with H : print_status _ _ _ = Some _ |- _ =>
           apply print_status_Some in H as (H & _ & _);
           rewrite H by auto end.
    all: right; left; eexists; split; [|reflexivity]; auto.
  - destruct s as [t B F U E m n mpc fth cs out], th as [st pc].
    unfold car_thread, emit in Hcar; simpl in Hcar.
    destruct pc; simpl in Hcar; split_step Hcar; injection Hcar as <- <-;
      simpl in *; auto.
    all: match goal with H : print_status _ _ _ = Some _ |- _ =>
           apply print_status_Some in H as (_ & H & _);
           rewrite H by (pose proof (car_id_pos i); lia) end.
    all: right; right; eexists i, _, _, _; split; [reflexivity|].
    all: split; [exact Hl|]; split; [|reflexivity]; auto.
Qed.

Lemma StronglySorted_snoc {A} (R : A -> A -> Prop) (l : list A) y :
  StronglySorted R l -> Forall (fun x => R x y) l -> StronglySorted R (l ++ [y]).
Proof.
  induction 1 as [|x l Hs IH Hx]; intros Hall; simpl.
  - repeat constructor.
  - apply Forall_cons in Hall as [Hxy Hall]. constructor; [auto|].
    apply Forall_app. split; [exact Hx | repeat constructor; exact Hxy].
Qed.

Lemma chronological_step s e s' :
  StronglySorted in_order (stdout s)
  /\ Forall (fun l => line_clock l <= now s) (stdout s) ->
  step_case s e s' ->
  StronglySorted in_order (stdout s')
  /\ Forall (fun l => line_clock l <= now s') (stdout s').
Proof.
  intros [Hs Hb] Hc. pose proof (now_step _ _ _ Hc) as Hle.
  assert (Hb' : Forall (fun l => line_clock l <= now s') (stdout s))
    by (eapply Forall_impl; [exact Hb|]; simpl; intros; lia).
  assert (Hnew : forall l, line_clock l = now s ->
            Forall (fun x => in_order x l) (stdout s)).
  { intros l Hl. eapply Forall_impl; [exact Hb|]. simpl. intros x Hx.
    right. lia. }
  destruct (print_step _ _ _ Hc)
    as [-> | [(m & _ & ->) | (i & th & m & o' & _ & _ & _ & ->)]]; [auto| |].
  all: split; [apply StronglySorted_snoc; [exact Hs | apply Hnew; reflexivity]|].
  all: apply Forall_app; split; [exact Hb' | repeat constructor; exact Hle].
Qed.

(** X9.  The log is in chronological order, up to the order among the
    "left the ferry" lines (whose calls of print_status, line 144, run
    beside each other): when a line comes before another on stdout and
    they are not both "left the ferry" lines, its clock value is not the
    larger one; and no line is ahead of the clock. *)
Theorem stdout_chronological tr s :
  exec boot tr s ->
  StronglySorted in_order (stdout s)
  /\ Forall (fun l => line_clock l <= now s) (stdout s).
Proof.
  induction 1 as [|tr s a e s' Hex IH Hstep].
  - split; constructor.
  - apply do_step_cases in Hstep as [_ Hc]. eauto using chronological_step.
Qed.

Lemma stdout_chronological_witness :
  StronglySorted in_order (stdout (final full_cycle))
  /\ Forall (fun l => line_clock l <= now (final full_cycle))
       (stdout (final full_cycle)).
Proof.
  apply (stdout_chronological (trace_of full_cycle)). apply run_reaches.
Defined.

(** X10.  Every line on stdout is one of the four the code can print: a
    Ferry line saying "arrives to new dock" or "leaves the dock", or a Car
    line with an id from 1 to FERRY_CAPACITY saying "entered the ferry" or
    "left the ferry". *)
Theorem stdout_lines_ok tr s l :
  exec boot tr s -> In l (stdout s) -> line_ok l = true.
Proof.
  intros H. revert l. induction H as [|tr s a e s' Hex IH Hstep]; intros l Hin.
  - destruct Hin.
  - apply do_step_cases in Hstep as [_ Hc].
    destruct (gate_inv_reachable _ _ Hex) as (Hlen & _).
    destruct (print_step _ _ _ Hc)
      as [Heq | [(m & Hm & Heq) | (i & th & m & o' & _ & Hl & Hm & Heq)]];
      rewrite Heq in Hin; [auto| |].
    + apply in_app_or in Hin as [Hin | [<- | []]]; [auto|].
      destruct Hm as [-> | ->]; reflexivity.
    + apply in_app_or in Hin as [Hin | [<- | []]]; [auto|].
      apply lookup_lt_Some in Hl. simpl.
      assert (H1 : (1 <=? car_id i) = true) by (unfold car_id; lia).
      assert (H2 : (car_id i <=? FERRY_CAPACITY) = true)
        by (unfold car_id, FERRY_CAPACITY in *; lia).
      rewrite H1, H2. destruct Hm as [-> | ->]; reflexivity.
Qed.

Lemma stdout_lines_ok_witness :
  line_ok (CarLine 55000 5 "entered the ferry") = true.
Proof.
  assert (Hin : In (CarLine 55000 5 "entered the ferry")
                  (stdout (final crossing_started)))
    by (vm_compute; tauto).
  exact (stdout_lines_ok (trace_of crossing_started) (final crossing_started)
           (CarLine 55000 5 "entered the ferry")
           (run_reaches crossing_started) Hin).
Defined.

Lemma print_status_None_ferry t m :
  print_status t m (-1) = None -> usec PROGRAM_RUNTIME < t.
Proof.
  unfold print_status. destruct (usec PROGRAM_RUNTIME <? t) eqn:H; simpl.
  - intros _. lia.
  - discriminate.
Qed.

Lemma first_inv_step s e s' :
  first_inv s -> step_case s e s' -> first_inv s'.
Proof.
  intros Hinv Hc. unfold first_inv in *.
  destruct (stdout s) as [|l rest] eqn:Hout.
  - destruct Hinv as (HB & Hcars & Hf).
    destruct Hc as [d Hd | env o s' Henv Hm | o s' Hr Hfe | i th env o s' Henv Hl Hr Hcar
                   | Hk | i th Hl Hk].
    + simpl. rewrite Hout. repeat split; auto.
      destruct Hf as [|[? ?]]; [auto|right; split; [auto|lia]].
    + destruct (main_thread_frame _ _ _ _ Hm)
        as (_ & Hn & Hb & _ & _ & _ & _ & _ & Hpc & Ho).
      rewrite Ho, Hout, Hn, Hb, Hpc. repeat split; auto.
      intros j th' Hj. destruct (main_thread_cars _ _ _ _ _ _ Hm Hj) as (th & Hth & <-).
      eauto.
    + destruct s as [t B F U E m n mpc [fst fpc] cs out].
      unfold ferry_thread, emit in Hfe; simpl in *. subst out.
      destruct Hf as [-> | [[-> | ->] Hlate]]; simpl in Hfe; split_step Hfe;
        try injection Hfe as <- <-; simpl; eauto.
      * match goal with H : print_status _ _ _ = Some _ |- _ =>
          apply print_status_Some in H as (H & _ & _); rewrite H by auto end.
        eauto.
      * match goal with H : print_status _ _ _ = None |- _ =>
          apply print_status_None_ferry in H end.
        repeat split; auto.
      * repeat split; auto.
      * unfold time_is_up in *. lia.
      * repeat split; auto.
    + destruct s as [t B F U E m n mpc fth cs out], th as [st pc].
      simpl in *. subst out B.
      destruct (Hcars i _ Hl) as [Hpc | [Hpc | Hpc]]; simpl in Hpc; subst pc;
        unfold car_thread in Hcar; simpl in Hcar; split_step Hcar;
        try injection Hcar as <- <-; simpl; repeat split; auto.
      all: intros j th' Hj; destruct (decide (i = j)) as [<-|Hne];
        [ rewrite list_lookup_insert_eq in Hj by (eapply lookup_lt_Some; eauto);
          injection Hj as <-; simpl; auto
        | rewrite list_lookup_insert_ne in Hj by exact Hne; eauto ].
    + simpl. rewrite Hout. repeat split; auto.
    + simpl. rewrite Hout. repeat split; auto.
      intros j th' Hj; destruct (decide (i = j)) as [<-|Hne];
        [ rewrite list_lookup_insert_eq in Hj by (eapply lookup_lt_Some; eauto);
          injection Hj as <-; simpl; eauto
        | rewrite list_lookup_insert_ne in Hj by exact Hne; eauto ].
  - destruct (print_step _ _ _ Hc)
      as [-> | [(m & _ & ->) | (i & th & m & o' & _ & _ & _ & ->)]];
      rewrite Hout; simpl; exact Hinv.
Qed.

Lemma first_inv_reachable tr s : exec boot tr s -> first_inv s.
Proof.
  induction 1 as [|tr s a e s' Hex IH Hstep].
  - unfold first_inv. simpl. repeat split; auto.
    intros j th Hj.
    destruct j as [|[|[|[|[|j]]]]]; simpl in Hj; try discriminate;
      injection Hj as <-; auto.
  - apply do_step_cases in Hstep as [_ Hc]. eauto using first_inv_step.
Qed.

(** X11.  If anything is printed at all, the first line is the ferry's
    "arrives to new dock" of line 70: no car prints before the ferry has
    announced itself. *)
Theorem first_line_is_arrival tr s l rest :
  exec boot tr s -> stdout s = l :: rest ->
  exists t, l = FerryLine t "arrives to new dock".
Proof.
  intros H Hout. pose proof (first_inv_reachable _ _ H) as Hinv.
  unfold first_inv in Hinv. rewrite Hout in Hinv. exact Hinv.
Qed.

Lemma first_line_is_arrival_witness :
  exists t, FerryLine 5000 "arrives to new dock" = FerryLine t "arrives to new dock".
Proof.
  assert (Hout : stdout (final boarding_done)
                 = FerryLine 5000 "arrives to new dock"
                   :: [CarLine 15000 1 "entered the ferry";
                       CarLine 25000 2 "entered the ferry";
                       CarLine 35000 3 "entered the ferry";
                       CarLine 45000 4 "entered the ferry";
                       CarLine 55000 5 "entered the ferry"])
    by (vm_compute; reflexivity).
  exact (first_line_is_arrival (trace_of boarding_done) (final boarding_done)
           _ _ (run_reaches boarding_done) Hout).
Defined.

(* ===================================================================== *)
(** ** The crossing, and the permits of a cycle *)

Lemma cross_inv_ferry tr s o s' :
  cross_inv tr s -> ferry_thread s = Some (o, s') ->
  cross_inv (tr ++ [Ev TFerry o]) s'.
Proof.
  intros Hinv Hstep. unfold cross_inv in *. rewrite proj_snoc_self.
  destruct s as [t B F U E m n mpc [fst fpc] cs out].
  unfold ferry_thread, emit in Hstep; simpl in *.
  destruct fpc; simpl in Hstep; split_step Hstep; injection Hstep as <- <-;
    simpl; try exact I.
  all: try (eexists _, t; split; [reflexivity|]; simpl; lia).
  all: try (destruct Hinv as (pre & tp & -> & Hle); exists pre, tp;
            rewrite <- app_assoc; split; [reflexivity|];
            unfold woken, usec in *; simpl in *; lia).
  all: try (exists (proj TFerry tr), t; split; [simpl; congruence|]; simpl; lia).
Qed.

Lemma cross_inv_later tr s t' :
  now s <= t' -> cross_inv tr s -> cross_inv tr (set_now t' s).
Proof.
  intros Hle Hinv. unfold cross_inv in *. simpl.
  destruct (th_pc (ferry s)); auto;
    destruct Hinv as (pre & tp & Heq & Hb); exists pre, tp; split; auto; lia.
Qed.

Lemma cross_inv_step tr s e s' :
  cross_inv tr s -> step_case s e s' -> cross_inv (tr ++ [e]) s'.
Proof.
  intros Hinv Hc.
  destruct Hc as [d Hd | env o s' Henv Hm | o s' Hr Hf | i th env o s' Henv Hl Hr Hcar
                 | Hk | i th Hl Hk].
  - unfold cross_inv. rewrite proj_snoc_elapse.
    apply (cross_inv_later tr s (now s + d)); [lia | exact Hinv].
  - unfold cross_inv in *. rewrite proj_snoc_other by discriminate.
    destruct (main_thread_frame _ _ _ _ Hm) as (_ & Hn & _ & _ & _ & _ & _ & _ & Hpc & _).
    rewrite Hpc, Hn. exact Hinv.
  - eauto using cross_inv_ferry.
  - unfold cross_inv in *. rewrite proj_snoc_other by discriminate.
    destruct (car_thread_frame _ _ _ _ _ _ Hcar) as (_ & Hfe).
    destruct (car_thread_slot _ _ _ _ _ _ Hcar) as (th' & _ & _ & Hn & _).
    rewrite Hfe, Hn. exact Hinv.
  - unfold cross_inv in *. rewrite proj_snoc_killed. exact Hinv.
  - unfold cross_inv in *. rewrite proj_snoc_killed. exact Hinv.
Qed.

Lemma cross_inv_reachable tr s : exec boot tr s -> cross_inv tr s.
Proof.
  induction 1 as [|tr s a e s' Hex IH Hstep].
  - reflexivity.
  - apply do_step_cases in Hstep as [_ Hc]. eauto using cross_inv_step.
Qed.

(** X12.  Every arrival at the other dock comes at least three seconds
    after the departure: when the ferry calls print_status("arrives to new
    dock") after a crossing, its three preceding operations are the
    departure call of print_status, sleep(3) and its return, and the clock
    is at least 3 s past the clock value of the departure call. *)
Theorem crossing_takes_three_seconds tr s line :
  exec boot (tr ++ [Ev TFerry (OPrint "arrives to new dock" (-1) line)]) s ->
  proj TFerry tr <> [] ->
  exists pre tp,
    proj TFerry tr
    = pre ++ [OPrint "leaves the dock" (-1) (print_status tp "leaves the dock" (-1));
              OSleep (usec 3); OWake]
    /\ line = print_status (now s) "arrives to new dock" (-1)
    /\ tp + usec 3 <= now s.
Proof.
  intros H Hne.
  apply ferry_last_step in H as (s0 & Hex & Hf).
  pose proof (cross_inv_reachable _ _ Hex) as Hinv.
  destruct (ferry_thread_frame _ _ _ Hf) as (_ & _ & _ & Hn & _).
  rewrite Hn.
  destruct s0 as [t B F U E m n mpc [fst fpc] cs out].
  unfold cross_inv in Hinv.
  unfold ferry_thread, emit in Hf; simpl in *.
  destruct fpc; simpl in Hf; split_step Hf; try discriminate Hf;
    try contradiction.
  all: destruct Hinv as (pre & tp & Heq & Hle); exists pre, tp;
    injection Hf as <- _; auto.
Qed.

Lemma crossing_takes_three_seconds_witness :
  exists pre tp,
    proj TFerry (removelast (trace_of arrived))
    = pre ++ [OPrint "leaves the dock" (-1) (print_status tp "leaves the dock" (-1));
              OSleep (usec 3); OWake]
    /\ Some (FerryLine 3055000 "arrives to new dock")
       = print_status (now (final arrived)) "arrives to new dock" (-1)
    /\ tp + usec 3 <= now (final arrived).
Proof.
  apply (crossing_takes_three_seconds (removelast (trace_of arrived))
           (final arrived) (Some (FerryLine 3055000 "arrives to new dock"))).
  - assert (Heq : removelast (trace_of arrived)
                    ++ [Ev TFerry (OPrint "arrives to new dock" (-1)
                                     (Some (FerryLine 3055000 "arrives to new dock")))]
                  = trace_of arrived)
      by (vm_compute; reflexivity).
    rewrite Heq. apply run_reaches.
  - vm_compute. discriminate.
Defined.

Lemma permits_step tr s e s' :
  gate_inv s ->
  Z.of_nat (count_ev (is_post SemBoard) tr)
  = FERRY_CAPACITY * Z.of_nat (count_ev cycle_end tr)
    + board_posted (th_pc (ferry s))
  /\ Z.of_nat (count_ev (is_post SemUnboard) tr)
     = FERRY_CAPACITY * Z.of_nat (count_ev cycle_end tr)
       + unboard_posted (th_pc (ferry s)) ->
  step_case s e s' ->
  Z.of_nat (count_ev (is_post SemBoard) (tr ++ [e]))
  = FERRY_CAPACITY * Z.of_nat (count_ev cycle_end (tr ++ [e]))
    + board_posted (th_pc (ferry s'))
  /\ Z.of_nat (count_ev (is_post SemUnboard) (tr ++ [e]))
     = FERRY_CAPACITY * Z.of_nat (count_ev cycle_end (tr ++ [e]))
       + unboard_posted (th_pc (ferry s')).
Proof.
  intros Hg Hinv Hc. rewrite !count_ev_snoc.
  destruct Hc as [d Hd | env o s' Henv Hm | o s' Hr Hf | i th env o s' Henv Hl Hr Hcar
                 | Hk | i th Hl Hk].
  - simpl. rewrite !Nat.add_0_r. exact Hinv.
  - destruct (main_thread_frame _ _ _ _ Hm) as (Hop & _ & _ & _ & _ & _ & _ & _ & Hpc & _).
    rewrite Hpc. destruct o; try discriminate Hop; simpl; rewrite !Nat.add_0_r;
      exact Hinv.
  - destruct Hg as (_ & _ & _ & _ & Hp & _).
    destruct s as [t B F U E m n mpc [fst fpc] cs out].
    unfold ferry_thread, emit in Hf; simpl in *.
    unfold board_posted, unboard_posted in *.
    destruct fpc as [| | | | | | | | | | |[|]]; simpl in Hf; split_step Hf;
      injection Hf as <- <-; simpl in *; rewrite ?Z.ltb_lt, ?Z.ltb_ge in *;
      unfold FERRY_CAPACITY in *; try rewrite wrap_int_small by lia; lia.
  - destruct (car_thread_frame _ _ _ _ _ _ Hcar) as (_ & Hfe). rewrite Hfe.
    pose proof (car_step_inv _ _ _ _ _ _ Hcar) as Hop.
    destruct o; simpl; rewrite ?Nat.add_0_r; try exact Hinv.
    + destruct Hop as (_ & [(-> & _) | (-> & _)]); simpl; rewrite ?Nat.add_0_r;
        exact Hinv.
    + destruct Hop as [(-> & _) | (-> & _)]; simpl; rewrite ?Nat.add_0_r;
        exact Hinv.
  - simpl. rewrite !Nat.add_0_r. exact Hinv.
  - simpl. rewrite !Nat.add_0_r. exact Hinv.
Qed.

(** X13.  The ferry posts exactly FERRY_CAPACITY board permits and
    FERRY_CAPACITY unboard permits per cycle: after k ended cycles it has
    posted 5 k of each, plus those of the cycle under way. *)
Theorem permits_per_cycle tr s :
  exec boot tr s ->
  Z.of_nat (count_ev (is_post SemBoard) tr)
  = FERRY_CAPACITY * Z.of_nat (count_ev cycle_end tr)
    + board_posted (th_pc (ferry s))
  /\ Z.of_nat (count_ev (is_post SemUnboard) tr)
     = FERRY_CAPACITY * Z.of_nat (count_ev cycle_end tr)
       + unboard_posted (th_pc (ferry s)).
Proof.
  induction 1 as [|tr s a e s' Hex IH Hstep].
  - split; reflexivity.
  - apply do_step_cases in Hstep as [_ Hc].
    eauto using permits_step, gate_inv_reachable.
Qed.

Lemma permits_per_cycle_witness :
  count_ev cycle_end (trace_of full_cycle) = 1%nat
  /\ (Z.of_nat (count_ev (is_post SemBoard) (trace_of full_cycle))
      = FERRY_CAPACITY * Z.of_nat (count_ev cycle_end (trace_of full_cycle))
        + board_posted (th_pc (ferry (final full_cycle)))
      /\ Z.of_nat (count_ev (is_post SemUnboard) (trace_of full_cycle))
         = FERRY_CAPACITY * Z.of_nat (count_ev cycle_end (trace_of full_cycle))
           + unboard_posted (th_pc (ferry (final full_cycle)))).
Proof.
  split; [vm_compute; reflexivity|].
  apply (permits_per_cycle (trace_of full_cycle)). apply run_reaches.
Defined.

(* ===================================================================== *)
(** ** A car cancelled inside the mutex *)

Lemma main_thread_status env s o s' j th :
  create_inv s -> main_thread env s = Some (o, s') -> cars s !! j = Some th ->
  exists th', cars s' !! j = Some th' /\ th_pc th' = th_pc th
    /\ (th_status th' = th_status th
        \/ th_status th = Running /\ th_status th' = CancelPending
        \/ th_status th = NotCreated /\ th_status th' = Running).
Proof.
  intros [_ Hpc] Hstep Hl. destruct s as [t B F U E m n mpc [fst fpc] cs out].
  unfold main_thread in Hstep; simpl in *.
  destruct mpc; simpl in Hstep; split_step Hstep; injection Hstep as <- <-;
    simpl; eauto.
  - rewrite list_lookup_alter. case_decide; [subst|eauto]. rewrite Hl. simpl.
    eexists; repeat split. right. right. split; [|reflexivity].
    destruct Hpc as (_ & _ & Hc). apply (Hc _ _ Hl). lia.
  - rewrite list_lookup_alter. case_decide; [subst|eauto]. rewrite Hl. simpl.
    eexists; split; [reflexivity|]. split; [apply cancel_requested_pc|].
    unfold cancel_requested. destruct (th_status th) eqn:Hst; simpl; auto.
Qed.

Lemma car_thread_mutex i th env s o s' :
  car_thread i th env s = Some (o, s') ->
  car_count_mutex s' = car_count_mutex s
  \/ car_count_mutex s = None
  \/ holding (th_pc th) = 1%nat.
Proof.
  intros Hstep. destruct s as [t B F U E m n mpc fth cs out], th as [st pc].
  unfold car_thread, emit in Hstep; simpl in Hstep.
  destruct pc; simpl in Hstep; split_step Hstep; injection Hstep as <- <-;
    simpl; auto.
Qed.

Lemma at_lock_blocked i th env s :
  at_lock (th_pc th) = true -> car_count_mutex s <> None ->
  car_thread i th env s = None.
Proof.
  intros Hpc Hm. unfold car_thread, mutex_lock.
  destruct (th_pc th); try discriminate Hpc;
    destruct (car_count_mutex s); simpl; congruence.
Qed.

Lemma at_lock_no_cancel th :
  at_lock (th_pc th) = true -> killable car_cancel_point th = false.
Proof.
  intros Hpc. unfold killable.
  destruct (th_status th); auto; destruct (th_pc th); try discriminate Hpc; auto.
Qed.

Lemma stuck_step i j pc s e s' :
  gate_inv s -> create_inv s -> stuck i j pc s -> step_case s e s' ->
  stuck i j pc s'.
Proof.
  intros Hg Hcr (Hm & (thi & Hi & Hti) & (thj & Hj & Hpj & Htj) & Hat) Hc.
  destruct Hc as [d Hd | env o s' Henv Hmn | o s' Hr Hf | k th env o s' Henv Hl Hr Hcar
                 | Hk | k th Hl Hk].
  - repeat split; simpl; eauto.
  - destruct (main_thread_frame _ _ _ _ Hmn) as (_ & _ & _ & _ & _ & _ & Hmx & _).
    destruct (main_thread_status _ _ _ _ _ _ Hcr Hmn Hi) as (thi' & Hi' & _ & Hsi).
    destruct (main_thread_status _ _ _ _ _ _ Hcr Hmn Hj) as (thj' & Hj' & Hpj' & Hsj).
    split; [congruence|]. split; [|split; [|exact Hat]].
    + exists thi'. split; [exact Hi'|].
      destruct Hsi as [-> | [[Hs _] | [Hs _]]]; [exact Hti | |];
        rewrite Hs in Hti; discriminate.
    + exists thj'. split; [exact Hj'|]. split; [congruence|].
      destruct Hsj as [-> | [[_ ->] | [_ ->]]]; auto.
  - destruct (ferry_thread_frame _ _ _ Hf) as (Hcs & _ & Hmx & _).
    rewrite <- Hcs in Hi, Hj. repeat split; eauto; congruence.
  - assert (Hki : k <> i).
    { intros ->. rewrite Hi in Hl. injection Hl as <-.
      apply runnable_not_terminated in Hr. congruence. }
    assert (Hkj : k <> j).
    { intros ->. rewrite Hj in Hl. injection Hl as <-.
      rewrite at_lock_blocked in Hcar; [discriminate | congruence | congruence]. }
    destruct (car_thread_slot _ _ _ _ _ _ Hcar) as (th' & Hcs & _).
    split; [|split; [|split; [|exact Hat]]].
    + destruct (car_thread_mutex _ _ _ _ _ _ Hcar) as [-> | [Hn | Hh]];
        [exact Hm | congruence |].
      pose proof (holder_owns _ _ _ Hg Hl Hh). congruence.
    + exists thi. rewrite Hcs, list_lookup_insert_ne by exact Hki. auto.
    + exists thj. rewrite Hcs, list_lookup_insert_ne by exact Hkj. auto.
  - repeat split; simpl; eauto.
  - assert (Hki : k <> i).
    { intros ->. rewrite Hi in Hl. injection Hl as <-.
      apply killable_pending in Hk. rewrite Hk in Hti. discriminate. }
    assert (Hkj : k <> j).
    { intros ->. rewrite Hj in Hl. injection Hl as <-.
      rewrite at_lock_no_cancel in Hk; [discriminate | congruence]. }
    split; [exact Hm|]. split; [|split; [|exact Hat]]; simpl.
    + exists thi. rewrite list_lookup_insert_ne by exact Hki. auto.
    + exists thj. rewrite list_lookup_insert_ne by exact Hkj. auto.
Qed.

(** X14.  The code has no cancellation cleanup handler, usleep (line 127) is
    a cancellation point inside the mutex, and pthread_mutex_lock is none.
    So once a car has been cancelled while it owned car_count_mutex and
    another car stands at pthread_mutex_lock, the mutex stays locked, that
    other car never terminates, and [main] never gets past its pthread_join:
    it reaches neither the cleanup nor return 0. *)
Theorem cancelled_owner_blocks_exit tr s i j pc :
  exec boot tr s -> stuck i j pc s ->
  forall tr' s', exec s tr' s' ->
    stuck i j pc s'
    /\ main_at s' <> M_cleanup /\ main_at s' <> M_return
    /\ main_at s' <> M_exited 0.
Proof.
  intros H Hs tr' s' H'.
  assert (Hboth : exec boot (tr ++ tr') s' /\ stuck i j pc s').
  { induction H' as [|tr' s1 a e s2 Hex IH Hstep].
    - rewrite app_nil_r. auto.
    - destruct IH as [Hr Hst]. split.
      + rewrite app_assoc. econstructor; eauto.
      + apply do_step_cases in Hstep as [_ Hc].
        eauto using stuck_step, gate_inv_reachable, create_inv_reachable. }
  destruct Hboth as [Hr Hst]. split; [exact Hst|].
  destruct Hst as (_ & _ & (thj & Hj & _ & Htj) & _).
  pose proof (join_inv_reachable _ _ Hr) as Hjoin.
  destruct (gate_inv_reachable _ _ Hr) as (Hlen & _).
  assert (Hno : ~ joined_upto FERRY_CAPACITY s').
  { intros [_ Hc]. rewrite (Hc j thj Hj) in Htj; [discriminate|].
    apply lookup_lt_Some in Hj. unfold FERRY_CAPACITY in *. lia. }
  unfold join_inv in Hjoin.
  repeat split; intros Hat; rewrite Hat in Hjoin; auto.
Qed.

Lemma cancelled_owner_blocks_exit_witness :
  now (final cancelled_in_boarding) = 60005000
  /\ main_at (final cancelled_in_boarding) = M_join_car 0
  /\ (stuck 0 1 C_lock_board (final cancelled_in_boarding)
      /\ main_at (final cancelled_in_boarding) <> M_cleanup
      /\ main_at (final cancelled_in_boarding) <> M_return
      /\ main_at (final cancelled_in_boarding) <> M_exited 0).
Proof.
  split; [vm_compute; reflexivity|]. split; [vm_compute; reflexivity|].
  refine (cancelled_owner_blocks_exit (trace_of cancelled_in_boarding)
            (final cancelled_in_boarding) 0 1 C_lock_board
            (run_reaches cancelled_in_boarding) _
            [] (final cancelled_in_boarding) (exec_start _)).
  split; [vm_compute; reflexivity|]. split; [|split; [|reflexivity]].
  - exists (mkThread Cancelled (C_sleeping_board 60009999)).
    split; [vm_compute; reflexivity | reflexivity].
  - exists (mkThread Running C_lock_board).
    split; [vm_compute; reflexivity|]. split; reflexivity.
Defined.

(* ===================================================================== *)
(** ** The ferry and the cars never block each other *)

Lemma ferry_moves s :
  exited s = false -> runnable (th_status (ferry s)) = true ->
  ferry_blocked s = false -> can_move TFerry (ferry_nap s) s.
Proof.
  intros Hex Hr Hb. unfold can_move, ferry_nap, time_left.
  split; [destruct (th_pc (ferry s)); lia|].
  unfold do_step. destruct s as [t B F U E m n mpc [fst fpc] cs out].
  unfold exited in *. simpl in *. rewrite Hex, Hr.
  unfold ferry_blocked in Hb. simpl in Hb.
  unfold ferry_thread, emit, sem_wait, woken; simpl.
  destruct fpc; simpl in *;
    repeat match goal with
    | |- context [print_status ?a ?b ?c] => destruct (print_status a b c)
    | |- context [if ?b then _ else _] => destruct b eqn:?
    | |- context [match ?n with O => _ | S _ => _ end] => destruct n
    end; simpl; eauto; try discriminate; lia.
Qed.

Lemma car_moves s i th :
  exited s = false -> cars s !! i = Some th ->
  runnable (th_status th) = true -> car_blocked s (th_pc th) = false ->
  can_move (TCar i) (car_nap s (th_pc th)) s.
Proof.
  intros Hex Hl Hr Hb. unfold can_move, car_nap, time_left.
  split; [destruct (th_pc th); lia|].
  unfold do_step. destruct s as [t B F U E m n mpc fth cs out], th as [st pc].
  unfold exited in *. simpl in *. rewrite Hex, Hl. simpl. rewrite Hr.
  unfold car_thread, emit, sem_wait, mutex_lock, woken; simpl.
  destruct pc; simpl in *;
    repeat match goal with
    | |- context [print_status ?a ?b ?c] => destruct (print_status a b c)
    | |- context [if ?b then _ else _] => destruct b eqn:?
    | |- context [match ?n with O => _ | S _ => _ end] => destruct n
    | |- context [match ?n with Some _ => _ | None => _ end] => destruct n
    end; simpl; eauto; try discriminate; lia.
Qed.

Lemma cnt_const f c (l : list (thread car_pc)) :
  (forall j th, l !! j = Some th -> f (th_pc th) = c) ->
  cnt f l = (length l * c)%nat.
Proof.
  induction l as [|x l IH]; intros Hall; simpl; [reflexivity|].
  rewrite (Hall 0%nat x eq_refl), IH; [lia|].
  intros j th Hj. apply (Hall (S j) th Hj).
Qed.

Lemma forallb_false_lookup {A} (f : A -> bool) (l : list A) :
  forallb f l = false -> exists i x, l !! i = Some x /\ f x = false.
Proof.
  induction l as [|x l IH]; simpl; [discriminate|].
  destruct (f x) eqn:Hx; simpl.
  - intros H. destruct (IH H) as (i & y & Hi & Hy). exists (S i), y. auto.
  - intros _. exists 0%nat, x. auto.
Qed.

Lemma forallb_true_lookup {A} (f : A -> bool) (l : list A) i x :
  forallb f l = true -> l !! i = Some x -> f x = true.
Proof.
  intros H Hi. rewrite forallb_forall in H. apply H.
  apply list_elem_of_In. eapply list_elem_of_lookup_2; eauto.
Qed.

(** X15.  Without cancellation the ferry and the cars never block each
    other for good: in every reachable state in which the process runs and
    the ferry and all five cars are alive, the ferry or some car can execute
    its next statement, at once or when its sleep is over. *)
Theorem agents_never_deadlock tr s :
  exec boot tr s -> exited s = false ->
  runnable (th_status (ferry s)) = true ->
  (forall i th, cars s !! i = Some th -> runnable (th_status th) = true) ->
  exists t d, t <> TMain /\ can_move t d s.
Proof.
  intros H Hex Hrf Hrc.
  destruct (ferry_blocked s) eqn:Hfb.
  2: { exists TFerry, (ferry_nap s). split; [discriminate|].
       apply ferry_moves; auto. }
  assert (Hcar : exists i th, cars s !! i = Some th
                              /\ car_blocked s (th_pc th) = false).
  { destruct (gate_inv_reachable _ _ H) as (Hlen & Ha & Hh & Ho & Hp & _).
    destruct (car_count_mutex s) as [[| |k]|] eqn:Hm; simpl in Ho; try tauto.
    - destruct (cars s !! k) as [th|] eqn:Hk; [|tauto].
      exists k, th. split; [exact Hk|].
      unfold car_blocked. destruct (th_pc th); try discriminate Ho; reflexivity.
    - destruct (forallb (fun th => car_blocked s (th_pc th)) (cars s)) eqn:Hall.
      2: { apply forallb_false_lookup in Hall as (i & th & Hi & Hb). eauto. }
      exfalso.
      pose proof (fun i th (Hi : cars s !! i = Some th) =>
                    forallb_true_lookup _ _ i th Hall Hi) as Hb.
      unfold car_blocked in Hb. rewrite Hm in Hb.
      unfold ferry_blocked in Hfb.
      destruct (th_pc (ferry s)) eqn:Hpc; try discriminate Hfb;
        simpl in Hp; apply Nat.eqb_eq in Hfb.
      + (* the ferry waits for a full load *)
        destruct (sem_board s) as [|b] eqn:HB.
        * (* no permit is left: every car must be aboard *)
          assert (H0 : cnt permit_taken (cars s) = (length (cars s) * 0)%nat).
          { apply cnt_const. intros j th Hj. specialize (Hb j th Hj).
            destruct (th_pc th); try discriminate Hb; reflexivity. }
          assert (H1 : cnt just_in (cars s) = (length (cars s) * 0)%nat).
          { apply cnt_const. intros j th Hj. specialize (Hb j th Hj).
            destruct (th_pc th); try discriminate Hb; reflexivity. }
          unfold FERRY_CAPACITY in *. lia.
        * assert (H0 : cnt aboard (cars s) = (length (cars s) * 1)%nat).
          { apply cnt_const. intros j th Hj. specialize (Hb j th Hj).
            destruct (th_pc th); try discriminate Hb; reflexivity. }
          assert (H1 : cnt just_in (cars s) = (length (cars s) * 0)%nat).
          { apply cnt_const. intros j th Hj. specialize (Hb j th Hj).
            destruct (th_pc th); try discriminate Hb; reflexivity. }
          unfold FERRY_CAPACITY in *. lia.
      + (* the ferry waits for an empty deck *)
        destruct (sem_unboard s) as [|u] eqn:HU.
        * assert (H0 : cnt leaving (cars s) = (length (cars s) * 0)%nat).
          { apply cnt_const. intros j th Hj. specialize (Hb j th Hj).
            destruct (th_pc th); try discriminate Hb; reflexivity. }
          assert (H1 : cnt just_out (cars s) = (length (cars s) * 0)%nat).
          { apply cnt_const. intros j th Hj. specialize (Hb j th Hj).
            destruct (th_pc th); try discriminate Hb; reflexivity. }
          unfold FERRY_CAPACITY in *. lia.
        * assert (H0 : cnt aboard (cars s) = (length (cars s) * 0)%nat).
          { apply cnt_const. intros j th Hj. specialize (Hb j th Hj).
            destruct (th_pc th); try discriminate Hb; reflexivity. }
          assert (H1 : cnt just_out (cars s) = (length (cars s) * 0)%nat).
          { apply cnt_const. intros j th Hj. specialize (Hb j th Hj).
            destruct (th_pc th); try discriminate Hb; reflexivity. }
          unfold FERRY_CAPACITY in *. lia. }
  destruct Hcar as (i & th & Hi & Hb).
  exists (TCar i), (car_nap s (th_pc th)). split; [discriminate|].
  apply car_moves; auto. eauto.
Qed.

Lemma agents_never_deadlock_witness :
  exists t d, t <> TMain /\ can_move t d (final boarding_done).
Proof.
  apply (agents_never_deadlock (trace_of boarding_done)).
  - apply run_reaches.
  - vm_compute. reflexivity.
  - vm_compute. reflexivity.
  - intros i th Hl.
    assert (Hall : forallb (fun th => runnable (th_status th))
                     (cars (final boarding_done)) = true)
      by (vm_compute; reflexivity).
    exact (forallb_true_lookup _ _ i th Hall Hl).
Defined.

(* ===================================================================== *)
(** ** Boarding lines are at least 10 ms apart *)









(* ===================================================================== *)
(** ** The program order of [main], and elapsed time *)

Ltac pick_index i :=
  let H := fresh in
  assert (H : i = 0 \/ i = 1 \/ i = 2 \/ i = 3 \/ i = 4 \/ i = 5) by lia;
  destruct H as [->|[->|[->|[->|[->| ->]]]]]; try lia.

Ltac pauses_ok :=
  repeat (apply Forall_cons_2; [assumption|]); apply Forall_nil_2.

Lemma main_hist_main tr s env o s' :
  0 <= env -> main_hist_inv tr s -> main_thread env s = Some (o, s') ->
  main_hist_inv (tr ++ [Ev TMain o]) s'.
Proof.
  intros Henv Hinv Hstep. unfold main_hist_inv in *. rewrite proj_snoc_self.
  pose proof (rem_range env 999000 Henv eq_refl) as Hrem.
  destruct s as [t B F U E m n mpc [fst fpc] cs out].
  unfold main_thread in Hstep; simpl in *.
  destruct mpc; simpl in Hstep; split_step Hstep; injection Hstep as <- <-;
    simpl; try exact I; try (intros; discriminate).
  all: rewrite ?Z.ltb_lt, ?Z.ltb_ge, ?Z.eqb_eq in *; unfold FERRY_CAPACITY in *.
  all: try match goal with H : ?e = 0 |- context [OCreate _ ?e] => rewrite H end;
    try intros _.
  all: destruct Hinv as (Hi & ds & Hlen & Hds & ->).
  all: destruct ds as [|d0 [|d1 [|d2 [|d3 [|d4 [|]]]]]]; try discriminate Hlen.
  all: try rewrite wrap_int_small by lia.
  all: try match goal with
           | H : 0 <= ?i <= 5 |- _ => pick_index i
           | H : 0 <= ?i < 5 |- _ => pick_index i
           end.
  all: repeat match goal with
         | H : Forall _ (_ :: _) |- _ => apply Forall_cons_1 in H as [? H]
         end.
  all: try (split; [first [lia | exact I]|]).
  all: set (d := Z.rem env 999000 + 1000) in *.
  all: assert (Hd : spawn_pause_ok d) by (unfold spawn_pause_ok, MIN_SPAWN_PAUSE, d; lia).
  all: first
         [ exists [d0; d1; d2; d3; d4]; split; [reflexivity|];
           split; [pauses_ok | reflexivity]
         | exists [d; d1; d2; d3; d4]; split; [reflexivity|];
           split; [pauses_ok | reflexivity]
         | exists [d0; d; d2; d3; d4]; split; [reflexivity|];
           split; [pauses_ok | reflexivity]
         | exists [d0; d1; d; d3; d4]; split; [reflexivity|];
           split; [pauses_ok | reflexivity]
         | exists [d0; d1; d2; d; d4]; split; [reflexivity|];
           split; [pauses_ok | reflexivity]
         | exists [d0; d1; d2; d3; d]; split; [reflexivity|];
           split; [pauses_ok | reflexivity] ].
Qed.

Lemma main_hist_step tr s e s' :
  main_hist_inv tr s -> step_case s e s' -> main_hist_inv (tr ++ [e]) s'.
Proof.
  intros Hinv Hc.
  destruct Hc as [d Hd | env o s' Henv Hm | o s' Hr Hf | i th env o s' Henv Hl Hr Hcar
                 | Hk | i th Hl Hk].
  - unfold main_hist_inv in *. rewrite proj_snoc_elapse. exact Hinv.
  - eauto using main_hist_main.
  - unfold main_hist_inv in *. rewrite proj_snoc_other by discriminate.
    destruct (ferry_thread_frame _ _ _ Hf) as (_ & _ & _ & _ & -> & _). exact Hinv.
  - unfold main_hist_inv in *. rewrite proj_snoc_other by discriminate.
    destruct (car_thread_frame _ _ _ _ _ _ Hcar) as (-> & _). exact Hinv.
  - unfold main_hist_inv in *. rewrite proj_snoc_killed. exact Hinv.
  - unfold main_hist_inv in *. rewrite proj_snoc_killed. exact Hinv.
Qed.

Lemma main_hist_reachable tr s : exec boot tr s -> main_hist_inv tr s.
Proof.
  induction 1 as [|tr s a e s' Hex IH Hstep].
  - split; [exact I|]. exists (replicate 5 1000). split; [reflexivity|].
    split; [|reflexivity]. repeat (apply Forall_cons_2; [unfold spawn_pause_ok, MIN_SPAWN_PAUSE; lia|]).
    apply Forall_nil_2.
  - apply do_step_cases in Hstep as [_ Hc]. eauto using main_hist_step.
Qed.

(** X17.  In a run that returned 0, [main] executed exactly: create the
    ferry; for each car in turn a pause of 1 ms to 1 s and its creation;
    sleep(PROGRAM_RUNTIME); cancel and join the ferry; cancel and join each
    car in turn; the cleanup; return 0. *)
Theorem main_program_order tr s :
  exec boot tr s -> main_at s = M_exited 0 ->
  exists ds,
    length ds = Z.to_nat FERRY_CAPACITY /\ Forall spawn_pause_ok ds
    /\ proj TMain tr = main_path ds.
Proof.
  intros H Hat. pose proof (main_hist_reachable _ _ H) as Hinv.
  unfold main_hist_inv in Hinv. rewrite Hat in Hinv. auto.
Qed.

Lemma main_program_order_witness :
  exists ds,
    length ds = Z.to_nat FERRY_CAPACITY /\ Forall spawn_pause_ok ds
    /\ proj TMain (trace_of whole_run) = main_path ds.
Proof.
  apply (main_program_order (trace_of whole_run) (final whole_run)).
  - apply run_reaches.
  - vm_compute. reflexivity.
Defined.

(** X18.  get_relative_time_sec follows the wall clock across second
    boundaries: for timevals whose tv_usec is within a second and that are
    less than 2^31 s away from start_time, a later instant gives a larger
    elapsed time; and the stop test "elapsed >= PROGRAM_RUNTIME" holds
    exactly when the instant is not before start_time plus PROGRAM_RUNTIME
    seconds. *)
Theorem relative_time_increases start a b :
  normalized start -> normalized a -> normalized b ->
  in_range start a -> in_range start b ->
  (timeval_lt a b <-> get_relative_time start a < get_relative_time start b)
  /\ (time_is_up (get_relative_time start a) = true
      <-> ~ timeval_lt a (mkTimeval (tv_sec start + PROGRAM_RUNTIME) (tv_usec start))).
Proof.
  unfold normalized, timeval_lt, time_is_up, get_relative_time, usec,
    PROGRAM_RUNTIME.
  intros Hs Ha Hb _ _. rewrite Z.leb_le. simpl. lia.
Qed.

Lemma relative_time_increases_witness :
  (timeval_lt (mkTimeval 62 999999) (mkTimeval 63 0)
   <-> get_relative_time (mkTimeval 3 500000) (mkTimeval 62 999999)
       < get_relative_time (mkTimeval 3 500000) (mkTimeval 63 0))
  /\ (time_is_up (get_relative_time (mkTimeval 3 500000) (mkTimeval 62 999999))
      = true
      <-> ~ timeval_lt (mkTimeval 62 999999)
              (mkTimeval (tv_sec (mkTimeval 3 500000) + PROGRAM_RUNTIME)
                 (tv_usec (mkTimeval 3 500000)))).
Proof.
  apply (relative_time_increases (mkTimeval 3 500000) (mkTimeval 62 999999)
           (mkTimeval 63 0));
    unfold normalized, in_range, MAX_ELAPSED; simpl; lia.
Defined.

(* ===================================================================== *)
(** ** Every car makes one round per cycle *)

Lemma rounds_inv_car tr s i th env o s' :
  gate_inv s -> rounds_inv tr s -> cars s !! i = Some th ->
  car_thread i th env s = Some (o, s') ->
  rounds_inv (tr ++ [Ev (TCar i) o]) s'.
Proof.
  intros Hg Hinv Hl Hstep j th' Hj. rewrite !count_ev_snoc.
  pose proof (Hinv i th Hl) as Hself.
  pose proof (fun b Hb => Hinv j b Hb) as Hprev.
  destruct Hg as (_ & _ & _ & _ & Hp & _).
  pose proof (fun f H0 => cnt_none f (cars s) i th H0 Hl) as Hnone.
  destruct s as [t B F U E m n mpc fth cs out], th as [st pc]. simpl in *.
  unfold car_thread, emit in Hstep; simpl in Hstep.
  destruct pc; simpl in Hstep; split_step Hstep; injection Hstep as <- <-;
    simpl in *.
  all: destruct (decide (i = j)) as [<-|Hne];
    [ rewrite list_lookup_insert_eq in Hj by (eapply lookup_lt_Some; eauto);
      injection Hj as <-; simpl; rewrite ?Nat.eqb_refl; simpl
    | rewrite list_lookup_insert_ne in Hj by exact Hne;
      specialize (Hprev _ Hj);
      try (assert (Hji : Nat.eqb j i = false) by (apply Nat.eqb_neq; congruence);
           rewrite Hji);
      simpl; rewrite ?Nat.add_0_r; exact Hprev ].
  all: unfold boarded_now, left_now in *.
  all: destruct (phase_of (th_pc fth)); simpl in *; try lia.
  - (* no increment while the ferry unboards *)
    assert (H0 : permit_taken (C_incr_write seen) = 0%nat) by (apply Hnone; tauto).
    discriminate H0.
  - (* no decrement while the ferry boards *)
    assert (H0 : leaving (C_decr_write seen) = 0%nat) by (apply Hnone; tauto).
    discriminate H0.
Qed.

Lemma rounds_inv_ferry tr s o s' :
  gate_inv s -> rounds_inv tr s -> ferry_thread s = Some (o, s') ->
  rounds_inv (tr ++ [Ev TFerry o]) s'.
Proof.
  intros Hg Hinv Hstep j th Hj. rewrite !count_ev_snoc.
  destruct (ferry_thread_frame _ _ _ Hstep) as (Hcs & _).
  rewrite Hcs in Hj. specialize (Hinv j th Hj).
  destruct Hg as (Hlen & Ha & _ & _ & Hp & _).
  pose proof (cnt_bound aboard (cars s) aboard_le_1) as Hb.
  pose proof (fun H0 => cnt_all aboard (cars s) j th aboard_le_1 H0 Hj) as Hall.
  pose proof (fun H0 => cnt_none aboard (cars s) j th H0 Hj) as Hnone.
  destruct s as [t B F U E m n mpc [fst fpc] cs out].
  unfold ferry_thread, emit in Hstep; simpl in *.
  unfold boarded_now, left_now, FERRY_CAPACITY in *.
  (* when sem_wait(sem_full) returns every car is aboard, and when
     sem_wait(sem_empty) returns none is *)
  destruct fpc as [| | | | | | | | | | |[|]]; simpl in Hstep; split_step Hstep;
    injection Hstep as <- <-; simpl in *; destruct Hinv; split; lia.
Qed.

Lemma rounds_inv_step tr s e s' :
  gate_inv s -> rounds_inv tr s -> step_case s e s' -> rounds_inv (tr ++ [e]) s'.
Proof.
  intros Hg Hinv Hc.
  destruct Hc as [d Hd | env o s' Henv Hm | o s' Hr Hf | i th env o s' Henv Hl Hr Hcar
                 | Hk | i th Hl Hk].
  - intros j th' Hj. rewrite !count_ev_snoc. simpl. rewrite !Nat.add_0_r.
    exact (Hinv j th' Hj).
  - intros j th' Hj. rewrite !count_ev_snoc.
    destruct (main_thread_cars _ _ _ _ _ _ Hm Hj) as (th & Hth & <-).
    destruct (main_thread_frame _ _ _ _ Hm) as (Hop & _ & _ & _ & _ & _ & _ & _ & Hpc & _).
    rewrite Hpc.
    destruct o; try discriminate Hop; simpl; rewrite !Nat.add_0_r;
      exact (Hinv j th Hth).
  - eauto using rounds_inv_ferry.
  - eauto using rounds_inv_car.
  - intros j th' Hj. rewrite !count_ev_snoc. simpl. rewrite !Nat.add_0_r.
    exact (Hinv j th' Hj).
  - intros j th' Hj. rewrite !count_ev_snoc. simpl in *. rewrite !Nat.add_0_r.
    destruct (decide (i = j)) as [<-|Hne].
    + rewrite list_lookup_insert_eq in Hj by (eapply lookup_lt_Some; eauto).
      injection Hj as <-. exact (Hinv i th Hl).
    + rewrite list_lookup_insert_ne in Hj by exact Hne. exact (Hinv j th' Hj).
Qed.

(** X19.  Every car makes exactly one round per cycle: after k ended
    cycles each car has incremented cars_on_board k times and decremented
    it k times, plus at most one increment and one decrement in the cycle
    under way (once the ferry is loaded every car has boarded). *)
Theorem each_car_once_per_cycle tr s i th :
  exec boot tr s -> cars s !! i = Some th ->
  count_ev (is_incr_by i) tr
  = (count_ev cycle_end tr + boarded_now (phase_of (th_pc (ferry s))) (th_pc th))%nat
  /\ count_ev (is_decr_by i) tr
     = (count_ev cycle_end tr + left_now (phase_of (th_pc (ferry s))) (th_pc th))%nat.
Proof.
  intros H. revert i th. induction H as [|tr s a e s' Hex IH Hstep].
  - intros i th Hj. apply lookup_replicate_1 in Hj as [-> _]. split; reflexivity.
  - apply do_step_cases in Hstep as [_ Hc].
    exact (rounds_inv_step _ _ _ _ (gate_inv_reachable _ _ Hex) IH Hc).
Qed.

Lemma each_car_once_per_cycle_witness :
  count_ev cycle_end (trace_of full_cycle) = 1%nat
  /\ (count_ev (is_incr_by 2) (trace_of full_cycle)
      = (count_ev cycle_end (trace_of full_cycle)
         + boarded_now (phase_of (th_pc (ferry (final full_cycle))))
             (th_pc (mkThread Running C_usleep_return)))%nat
      /\ count_ev (is_decr_by 2) (trace_of full_cycle)
         = (count_ev cycle_end (trace_of full_cycle)
            + left_now (phase_of (th_pc (ferry (final full_cycle))))
                (th_pc (mkThread Running C_usleep_return)))%nat).
Proof.
  split; [vm_compute; reflexivity|].
  apply (each_car_once_per_cycle (trace_of full_cycle) (final full_cycle) 2).
  - apply run_reaches.
  - vm_compute. reflexivity.
Defined.

(* ===================================================================== *)
(** ** The deck is empty when a cycle starts *)

(** X20.  A cycle starts with an empty deck: whenever the ferry stands at
    the top of its loop, before it has posted a board permit,
    cars_on_board is 0, sem_board is 0 and no car is aboard or holds a
    board permit. *)
Theorem deck_empty_at_cycle_start tr s i th :
  exec boot tr s -> phase_of (th_pc (ferry s)) = Boarding 0 ->
  cars s !! i = Some th ->
  cars_on_board s = 0 /\ sem_board s = 0%nat
  /\ permit_taken (th_pc th) = 0%nat /\ aboard (th_pc th) = 0%nat.
Proof.
  intros H Hph Hl.
  destruct (gate_inv_reachable _ _ H) as (_ & Ha & _ & _ & Hp & _).
  rewrite Hph in Hp.
  assert (H0 : cnt permit_taken (cars s) = 0%nat /\ cnt aboard (cars s) = 0%nat) by lia.
  destruct H0 as [H1 H2].
  repeat split; try lia; eapply cnt_none; eauto.
Qed.

Lemma deck_empty_at_cycle_start_witness :
  th_pc (ferry (final full_cycle)) = F_check_top
  /\ (cars_on_board (final full_cycle) = 0 /\ sem_board (final full_cycle) = 0%nat
      /\ permit_taken (th_pc (mkThread Running C_usleep_return)) = 0%nat
      /\ aboard (th_pc (mkThread Running C_usleep_return)) = 0%nat).
Proof.
  split; [vm_compute; reflexivity|].
  apply (deck_empty_at_cycle_start (trace_of full_cycle) (final full_cycle) 4).
  - apply run_reaches.
  - vm_compute. reflexivity.
  - vm_compute. reflexivity.
Defined.

(* ===================================================================== *)
(** ** How many crossings fit into a run *)

Lemma crossings_inv_ferry tr s o s' :
  crossings_inv tr s -> ferry_thread s = Some (o, s') ->
  crossings_inv (tr ++ [Ev TFerry o]) s'.
Proof.
  intros (H1 & H2 & H3) Hstep. unfold crossings_inv, crossings_end in *.
  rewrite count_ev_snoc.
  destruct s as [t B F U E m n mpc [fst fpc] cs out].
  unfold ferry_thread, emit in Hstep; simpl in *.
  destruct fpc; simpl in Hstep; split_step Hstep; injection Hstep as <- <-;
    simpl in *; unfold time_is_up, woken, usec, PROGRAM_RUNTIME in *;
    simpl in *; rewrite ?Z.leb_le, ?Z.leb_gt in *; lia.
Qed.

Lemma crossings_inv_step tr s e s' :
  crossings_inv tr s -> step_case s e s' -> crossings_inv (tr ++ [e]) s'.
Proof.
  intros Hinv Hc.
  destruct Hc as [d Hd | env o s' Henv Hm | o s' Hr Hf | i th env o s' Henv Hl Hr Hcar
                 | Hk | i th Hl Hk].
  - destruct Hinv as (H1 & H2 & H3). unfold crossings_inv, crossings_end in *.
    rewrite count_ev_snoc. simpl. rewrite Nat.add_0_r.
    destruct (th_pc (ferry s)); repeat split; auto; lia.
  - destruct (main_thread_frame _ _ _ _ Hm) as (_ & Hn & _ & _ & _ & _ & _ & _ & Hpc & _).
    unfold crossings_inv, crossings_end in *. rewrite count_ev_snoc, Hpc, Hn.
    simpl. rewrite Nat.add_0_r. exact Hinv.
  - eauto using crossings_inv_ferry.
  - destruct (car_thread_frame _ _ _ _ _ _ Hcar) as (_ & Hfe).
    destruct (car_thread_slot _ _ _ _ _ _ Hcar) as (th' & _ & _ & Hn & _).
    unfold crossings_inv, crossings_end in *. rewrite count_ev_snoc, Hfe, Hn.
    simpl. rewrite Nat.add_0_r. exact Hinv.
  - unfold crossings_inv, crossings_end in *. rewrite count_ev_snoc. simpl.
    rewrite Nat.add_0_r. exact Hinv.
  - unfold crossings_inv, crossings_end in *. rewrite count_ev_snoc. simpl.
    rewrite Nat.add_0_r. exact Hinv.
Qed.

Lemma crossings_inv_reachable tr s : exec boot tr s -> crossings_inv tr s.
Proof.
  induction 1 as [|tr s a e s' Hex IH Hstep].
  - unfold crossings_inv, crossings_end, usec, PROGRAM_RUNTIME. simpl. lia.
  - apply do_step_cases in Hstep as [_ Hc]. eauto using crossings_inv_step.
Qed.

(** X21.  The ferry starts a crossing only after a check that read a time
    below the run time, and crossings take three seconds each, one after
    the other: it calls sleep(3) at most PROGRAM_RUNTIME / 3 = 20 times. *)
Theorem crossings_fit_the_runtime tr s :
  exec boot tr s -> 3 * Z.of_nat (count_ev is_crossing tr) <= PROGRAM_RUNTIME.
Proof.
  intros H. destruct (crossings_inv_reachable _ _ H) as (_ & H2 & _).
  unfold usec in H2. lia.
Qed.

Lemma crossings_fit_the_runtime_witness :
  count_ev is_crossing (trace_of late_departure) = 16%nat
  /\ 3 * Z.of_nat (count_ev is_crossing (trace_of late_departure))
     <= PROGRAM_RUNTIME.
Proof.
  split; [vm_compute; reflexivity|].
  apply (crossings_fit_the_runtime (trace_of late_departure)
           (final late_departure)).
  apply run_reaches.
Defined.

(* ===================================================================== *)
(** ** Nothing is logged during a crossing *)

(** A step that prints does so within the run time. *)
Lemma print_on_time s e s' l :
  step_case s e s' -> stdout s' = stdout s ++ [l] -> now s <= usec PROGRAM_RUNTIME.
Proof.
  intros Hc Hout.
  assert (Hl : printed_ok l /\ line_clock l = now s).
  { destruct Hc as [d Hd | env o s' Henv Hm | o s' Hr Hf | i th env o s' Henv Hl Hr Hcar
                   | Hk | i th Hl Hk]; simpl in Hout;
      try (apply (f_equal (@length _)) in Hout; rewrite length_app in Hout;
           simpl in Hout; lia).
    - destruct (main_thread_frame _ _ _ _ Hm) as (_ & _ & _ & _ & _ & _ & _ & _ & _ & Ho).
      rewrite Ho in Hout. apply (f_equal (@length _)) in Hout.
      rewrite length_app in Hout. simpl in Hout. lia.
    - destruct s as [t B F U E m n mpc [fst fpc] cs out].
      unfold ferry_thread, emit in Hf; simpl in *.
      destruct fpc; simpl in Hf; split_step Hf; injection Hf as <- <-;
        simpl in Hout;
        try (apply (f_equal (@length _)) in Hout; rewrite length_app in Hout;
             simpl in Hout; lia).
      all: apply app_inj_tail in Hout as [_ ->].
      all: (split; [eexists _, _, (-1); split; [discriminate | eassumption]|]).
      all: match goal with H : print_status _ _ _ = Some _ |- _ =>
             apply print_status_Some in H as (H & _ & _); rewrite H by auto end.
      all: reflexivity.
    - destruct s as [t B F U E m n mpc fth cs out], th as [st pc].
      unfold car_thread, emit in Hcar; simpl in *.
      destruct pc; simpl in Hcar; split_step Hcar; injection Hcar as <- <-;
        simpl in Hout;
        try (apply (f_equal (@length _)) in Hout; rewrite length_app in Hout;
             simpl in Hout; lia).
      all: apply app_inj_tail in Hout as [_ ->].
      all: (split; [eexists _, _, (car_id i);
                    split; [pose proof (car_id_pos i); lia | eassumption]|]).
      all: match goal with H : print_status _ _ _ = Some _ |- _ =>
             apply print_status_Some in H as (_ & H & _);
             rewrite H by (pose proof (car_id_pos i); lia) end.
      all: reflexivity. }
  destruct Hl as [(t & message & car_num & Hn & Hp) Hclock].
  destruct (print_status_Some _ _ _ _ Hp) as (H1 & H2 & H3).
  specialize (H3 Hn). rewrite <- Hclock.
  destruct (Z.eq_dec car_num (-1)) as [->|Hne].
  - rewrite H1 by auto. exact H3.
  - rewrite H2 by auto. exact H3.
Qed.

(** While the ferry is in transit only its arrival can be printed. *)
Lemma transit_step s e s' :
  gate_inv s -> in_transit (th_pc (ferry s)) = true -> step_case s e s' ->
  (stdout s' = stdout s
   \/ stdout s' = stdout s ++ [FerryLine (now s) "arrives to new dock"])
  /\ (stdout s' = stdout s -> now s <= usec PROGRAM_RUNTIME ->
      in_transit (th_pc (ferry s')) = true).
Proof.
  intros Hg Htr Hc.
  destruct Hc as [d Hd | env o s' Henv Hm | o s' Hr Hf | i th env o s' Henv Hl Hr Hcar
                 | Hk | i th Hl Hk]; simpl; auto.
  - destruct (main_thread_frame _ _ _ _ Hm)
      as (_ & _ & _ & _ & _ & _ & _ & _ & Hpc & Ho).
    rewrite Hpc, Ho. auto.
  - destruct s as [t B F U E m n mpc [fst fpc] cs out].
    unfold ferry_thread, emit in Hf; simpl in *.
    destruct fpc; try discriminate Htr; simpl in Hf; split_step Hf;
      injection Hf as <- <-; simpl; auto.
    + match goal with H : print_status _ _ _ = Some _ |- _ =>
        apply print_status_Some in H as (H & _ & _); rewrite H by auto end.
      split; [auto|]. intros Heq. apply (f_equal (@length _)) in Heq.
      rewrite length_app in Heq. simpl in Heq. lia.
    + match goal with H : print_status _ _ _ = None |- _ =>
        apply print_status_None_ferry in H end.
      split; [auto|]. intros _ Hle. lia.
  - destruct (car_thread_frame _ _ _ _ _ _ Hcar) as (_ & Hfe). rewrite Hfe.
    split; [|auto]. left.
    destruct Hg as (Hlen & Ha & _ & _ & Hp & _).
    pose proof (cnt_bound aboard (cars s) aboard_le_1) as Hb.
    assert (Hph : phase_of (th_pc (ferry s)) = Unboarding 0)
      by (destruct (th_pc (ferry s)); try discriminate Htr; reflexivity).
    rewrite Hph in Hp. unfold FERRY_CAPACITY in *.
    assert (H1 : aboard (th_pc th) = 1%nat)
      by (eapply cnt_all; [apply aboard_le_1 | | exact Hl]; lia).
    assert (H2 : leaving (th_pc th) = 0%nat) by (eapply cnt_none; [|exact Hl]; lia).
    assert (H3 : just_in (th_pc th) = 0%nat) by (eapply cnt_none; [|exact Hl]; lia).
    destruct s as [t B F U E m n mpc fth cs out], th as [st pc].
    unfold car_thread, emit in Hcar; simpl in *.
    destruct pc; try discriminate; simpl in Hcar; split_step Hcar;
      injection Hcar as <- <-; reflexivity.
Qed.

Lemma last_snoc_inv {A} (l pre : list A) x y :
  l ++ [x] = pre ++ [y] -> l = pre /\ x = y.
Proof. intros H. apply app_inj_tail in H. exact H. Qed.

Lemma quiet_inv_step s e s' :
  gate_inv s -> quiet_inv s -> step_case s e s' -> quiet_inv s'.
Proof.
  intros Hg Hinv Hc pre t Hout.
  pose proof (now_step _ _ _ Hc) as Hnow.
  destruct (print_step _ _ _ Hc)
    as [Heq | [(m & Hm & Heq) | (i & th & m & o' & _ & _ & Hm & Heq)]].
  - rewrite Heq in Hout. destruct (Hinv pre t Hout) as [Htr | Hlate]; [|right; lia].
    destruct (Z_le_gt_dec (now s) (usec PROGRAM_RUNTIME)) as [Hle|Hgt];
      [|right; lia].
    left. apply (transit_step _ _ _ Hg Htr Hc); assumption.
  - rewrite Heq in Hout. apply last_snoc_inv in Hout as [_ Hl].
    injection Hl as _ ->. destruct Hm as [Hm | _]; [discriminate Hm|].
    left. clear -Hc Heq.
    destruct Hc as [d Hd | env o s' Henv Hmn | o s' Hr Hf | i th env o s' Henv Hl Hr Hcar
                   | Hk | i th Hl Hk]; simpl in Heq;
      try (apply (f_equal (@length _)) in Heq; rewrite length_app in Heq;
           simpl in Heq; lia).
    + destruct (main_thread_frame _ _ _ _ Hmn)
        as (_ & _ & _ & _ & _ & _ & _ & _ & _ & Ho).
      rewrite Ho in Heq. apply (f_equal (@length _)) in Heq.
      rewrite length_app in Heq. simpl in Heq. lia.
    + destruct s as [t0 B F U E m n mpc [fst fpc] cs out].
      unfold ferry_thread, emit in Hf; simpl in *.
      destruct fpc; simpl in Hf; split_step Hf; injection Hf as <- <-;
        simpl in Heq;
        try (apply (f_equal (@length _)) in Heq; rewrite length_app in Heq;
             simpl in Heq; lia);
        try reflexivity.
      all: apply app_inj_tail in Heq as [_ Heq].
      all: match goal with H : print_status _ _ _ = Some _ |- _ =>
             apply print_status_Some in H as (H & _ & _);
             rewrite H in Heq by auto end; discriminate Heq.
    + destruct (print_step _ _ _ (sc_car s i th env o s' Henv Hl Hr Hcar))
        as [Hs | [(m' & _ & Hs) | (i' & th' & m' & o'' & _ & _ & _ & Hs)]];
        rewrite Hs in Heq.
      * apply (f_equal (@length _)) in Heq. rewrite length_app in Heq.
        simpl in Heq. lia.
      * exfalso. destruct s as [t0 B F U E m n mpc fth cs out], th as [st pc].
        unfold car_thread, emit in Hcar; simpl in *.
        destruct pc; simpl in Hcar; split_step Hcar; injection Hcar as <- <-;
          simpl in Hs;
          try (apply (f_equal (@length _)) in Hs; rewrite length_app in Hs;
               simpl in Hs; lia).
        all: apply app_inj_tail in Hs as [_ Hs].
        all: match goal with H : print_status _ _ _ = Some _ |- _ =>
               apply print_status_Some in H as (_ & H & _);
               rewrite H in Hs by (pose proof (car_id_pos i); lia) end;
          discriminate Hs.
      * apply app_inj_tail in Heq as [_ Heq]. discriminate Heq.
  - rewrite Heq in Hout. apply last_snoc_inv in Hout as [_ Hl]. discriminate Hl.
Qed.

Lemma quiet_inv_reachable tr s : exec boot tr s -> quiet_inv s.
Proof.
  induction 1 as [|tr s a e s' Hex IH Hstep].
  - intros pre t Hout. destruct pre; discriminate Hout.
  - apply do_step_cases in Hstep as [_ Hc].
    eauto using quiet_inv_step, gate_inv_reachable.
Qed.

(** X22.  Nothing is logged during a crossing: on stdout, the line after a
    "leaves the dock" line, if there is one, is the ferry's "arrives to new
    dock" line.  No car line comes in between. *)
Theorem nothing_logged_during_crossing tr s pre t l post :
  exec boot tr s ->
  stdout s = pre ++ FerryLine t "leaves the dock" :: l :: post ->
  exists t', l = FerryLine t' "arrives to new dock".
Proof.
  intros H. revert pre t l post.
  induction H as [|tr s a e s' Hex IH Hstep]; intros pre t l post Hout.
  - destruct pre; discriminate Hout.
  - apply do_step_cases in Hstep as [_ Hc].
    assert (Hnew : forall x, stdout s' = stdout s ++ [x] ->
              exists t', l = FerryLine t' "arrives to new dock").
    { intros x Heq. rewrite Heq in Hout.
      destruct post as [|y post _] using rev_ind.
      - change (pre ++ FerryLine t "leaves the dock" :: [l])
          with (pre ++ [FerryLine t "leaves the dock"] ++ [l]) in Hout.
        rewrite app_assoc in Hout. apply app_inj_tail in Hout as [Hs ->].
        pose proof (print_on_time _ _ _ _ Hc Heq) as Hle.
        destruct (quiet_inv_reachable _ _ Hex pre t Hs) as [Htr | Hlate]; [|lia].
        destruct (transit_step _ _ _ (gate_inv_reachable _ _ Hex) Htr Hc)
          as [[Hsame | Happ] _].
        + rewrite Hsame in Heq. apply (f_equal (@length _)) in Heq.
          rewrite length_app in Heq. simpl in Heq. lia.
        + rewrite Happ in Heq. apply app_inj_tail in Heq as [_ <-]. eauto.
      - change (pre ++ FerryLine t "leaves the dock" :: l :: post ++ [y])
          with (pre ++ (FerryLine t "leaves the dock" :: l :: post) ++ [y]) in Hout.
        rewrite app_assoc in Hout. apply app_inj_tail in Hout as [Hs _].
        eauto. }
    destruct (print_step _ _ _ Hc)
      as [Heq | [(m & _ & Heq) | (i & th & m & o' & _ & _ & _ & Heq)]]; eauto.
    rewrite Heq in Hout. eauto.
Qed.

Lemma nothing_logged_during_crossing_witness :
  exists t', FerryLine 3055000 "arrives to new dock"
             = FerryLine t' "arrives to new dock".
Proof.
  assert (Hout : stdout (final arrived)
                 = [FerryLine 5000 "arrives to new dock";
                    CarLine 15000 1 "entered the ferry";
                    CarLine 25000 2 "entered the ferry";
                    CarLine 35000 3 "entered the ferry";
                    CarLine 45000 4 "entered the ferry";
                    CarLine 55000 5 "entered the ferry"]
                   ++ FerryLine 55000 "leaves the dock"
                      :: FerryLine 3055000 "arrives to new dock" :: [])
    by (vm_compute; reflexivity).
  exact (nothing_logged_during_crossing (trace_of arrived) (final arrived)
           _ _ _ _ (run_reaches arrived) Hout).
Defined.
